(** * Verification of the cache benchmark harness (benchmark.c)

    A shallow embedding of the benchmarking core of [benchmark.c]: the
    byte-to-prefix helper, the page pre-faulting loop of
    [benchmark_prologue], the four workloads [bench], [bench1], [bench2],
    [bench3], the report printed by [benchmark_epilogue] and the control
    flow of [main] over an explicit model of the operating system.

    Conventions.
    - C integers are mathematical integers ([Z]) with the wrap-around of
      their type written out: [u64] for [size_t]/[unsigned long], [u32] for
      [uint32_t], [s32] for [int], [s64] for [loff_t]/[long]. Signed
      arithmetic wraps as well, which is what the workloads do as they are
      compiled (without optimisation, benchmark.c:156-157); the theorems
      say where they rely on a signed result being exact.
    - A buffer is the list of its elements; an address is the offset of an
      element from the start of the buffer, so the pointer [buf] itself is
      offset 0.  An access outside the buffer is a [Fault].
    - Loops carry a fuel argument; the theorems show that the fuel they ask
      for is enough, so every result below is a real run of the loop. *)

From Stdlib Require Import ZArith Lia Bool Ascii String DecimalString.
From stdpp Require Import base tactics option list numbers.

Local Open Scope Z_scope.

(** ** Machine integers *)

Module Int.

Definition wrap (bits : Z) (z : Z) : Z := z mod 2 ^ bits.

Definition swrap (bits : Z) (z : Z) : Z :=
  (z + 2 ^ (bits - 1)) mod 2 ^ bits - 2 ^ (bits - 1).

Definition u8 : Z -> Z := wrap 8.
Definition u32 : Z -> Z := wrap 32.
Definition u64 : Z -> Z := wrap 64.
Definition s32 : Z -> Z := swrap 32.
Definition s64 : Z -> Z := swrap 64.

(** [ffs] of libc: the 1-based position of the least significant set bit,
    0 when no bit is set. *)
Fixpoint pos_ffs (p : positive) : Z :=
  match p with
  | xO q => 1 + pos_ffs q
  | _ => 1
  end.

Definition ffs (x : Z) : Z :=
  match x with
  | Z0 => 0
  | Zpos p | Zneg p => pos_ffs p
  end.

Definition sizeof_uint32_t : Z := 4.

End Int.

(** ** bytes_to_prefix (benchmark.c:43-62) *)

Module Prefix.
Import Int.

(** [*s] is a [char *]; a null pointer is [None]. The three tests are
    sequential, as in the source, each on the current value of [b]. *)
Definition bytes_to_prefix (bytes : Z) (s : option string) : Z * option string :=
  let b := bytes in
  let mask := u64 (u32 (Z.shiftl 1 10) - 1) in
  match s with
  | Some _ =>
      let '(b, s) :=
        if Z.land b mask =? 0 then (Z.shiftr b 10, Some "k"%string) else (b, s) in
      let '(b, s) :=
        if Z.land b mask =? 0 then (Z.shiftr b 10, Some "M"%string) else (b, s) in
      let '(b, s) :=
        if Z.land b mask =? 0 then (Z.shiftr b 10, Some "G"%string) else (b, s) in
      (b, s)
  | None => (b, s)
  end.

(** The unit selected for exponent [k]; exponent 0 keeps the caller's
    placeholder, that is, no prefix is chosen. *)
Definition prefix_of (k : Z) (placeholder : string) : option string :=
  if k =? 1 then Some "k"%string
  else if k =? 2 then Some "M"%string
  else if k =? 3 then Some "G"%string
  else Some placeholder.

End Prefix.

(** ** The memory under test

    The state threaded through the pre-faulting loop and the workloads: the
    elements of the buffer and the accesses made so far, oldest first. *)

Module Mem.
Import Int.

Inductive access : Type :=
| Read (i : Z)
| Write (i : Z)
| Flush (i : Z).

Record mem : Type := mk_mem { cells : list Z; log : list access }.

Inductive outcome (A : Type) : Type :=
| Done (a : A) (m : mem)
| Fault
| OutOfFuel.

Arguments Done {A} a m.
Arguments Fault {A}.
Arguments OutOfFuel {A}.

Definition M (A : Type) : Type := mem -> outcome A.

Definition ret {A} (a : A) : M A := fun m => Done a m.

Definition bind {A B} (c : M A) (k : A -> M B) : M B :=
  fun m =>
    match c m with
    | Done a m' => k a m'
    | Fault => Fault
    | OutOfFuel => OutOfFuel
    end.

Notation "x <- c ;; k" := (bind c (fun x => k))
  (at level 20, c at level 99, k at level 200, only parsing).
Notation "c ;; k" := (bind c (fun _ => k))
  (at level 100, k at level 200, right associativity, only parsing).

Definition timeout {A} : M A := fun _ => OutOfFuel.

Definition record (a : access) (m : mem) : mem :=
  mk_mem (cells m) (log m ++ [a]).

(** [buf[i]] as an rvalue. *)
Definition load (i : Z) : M Z :=
  fun m =>
    if i <? 0 then Fault
    else match cells m !! Z.to_nat i with
         | Some v => Done v (record (Read i) m)
         | None => Fault
         end.

(** [buf[i] = v]. *)
Definition store (i v : Z) : M unit :=
  fun m =>
    if i <? 0 then Fault
    else match cells m !! Z.to_nat i with
         | Some _ =>
             Done tt (mk_mem (<[Z.to_nat i := v]> (cells m)) (log m ++ [Write i]))
         | None => Fault
         end.

(** benchmark.c:81-84: the cache line holding address [p] is invalidated;
    the buffer keeps its contents. *)
Definition clflush (p : Z) : M unit :=
  fun m => Done tt (record (Flush p) m).

(** The offsets written, in program order. *)
Fixpoint writes (l : list access) : list Z :=
  match l with
  | [] => []
  | Write i :: l' => i :: writes l'
  | _ :: l' => writes l'
  end.

(** The offsets whose cache line was invalidated, in program order. *)
Fixpoint flushes (l : list access) : list Z :=
  match l with
  | [] => []
  | Flush i :: l' => i :: flushes l'
  | _ :: l' => flushes l'
  end.

Definition offset_of (a : access) : Z :=
  match a with Read i | Write i | Flush i => i end.

(** An index inside a buffer of [n] elements. *)
Definition inside (n : nat) (i : Z) : Prop := 0 <= i < Z.of_nat n.

End Mem.

(** ** The page pre-faulting loop of benchmark_prologue (benchmark.c:100-119) *)

Module Prefault.
Import Int Mem.

(** The pointer [buf] is offset 0 of the region. *)
Definition buf : Z := 0.

(** One pass of the [do ... while] body and its condition. [i] is a
    [loff_t], [size] and [page_size] are [size_t]. *)
Fixpoint prefault_loop (fuel : nat) (page_size : Z) (i size : Z) : M unit :=
  match fuel with
  | O => timeout
  | S fuel' =>
      x <- load (buf + i) ;;
      store (buf + i) x ;;
      clflush buf ;;
      if size <? page_size then ret tt
      else
        let size := u64 (size - page_size) in
        let i := s64 (i + page_size) in
        if negb (size =? 0) then prefault_loop fuel' page_size i size
        else ret tt
  end.

Definition prefault (fuel : nat) (page_size : Z) (size : Z) : M unit :=
  let i := 0 in
  prefault_loop fuel page_size i size.

(** Number of pages the loop walks over for a region of [size] bytes. *)
Definition pages (page_size size : Z) : Z :=
  (size + page_size - 1) / page_size.

(** The offsets of [n] consecutive pages, the first one at [i]. *)
Fixpoint page_offsets (page_size : Z) (n : nat) (i : Z) : list Z :=
  match n with
  | O => []
  | S n' => i :: page_offsets page_size n' (i + page_size)
  end.

(** The accesses of one pass of the loop at offset [i]. *)
Definition pass (i : Z) : list access := [Read i; Write i; Flush buf].

End Prefault.

(** ** The workloads (benchmark.c:158-193) *)

Module Workloads.
Import Int Mem.

(** [buf[i] *= 3] and [buf[i]++] on [uint32_t] elements. *)
Definition triple (i : Z) : M unit :=
  x <- load i ;; store i (u32 (x * 3)).

Definition incr (i : Z) : M unit :=
  x <- load i ;; store i (u32 (x + 1)).

(** [for (i = ...; i < length; i += step)] with [int i], [int step] and
    [size_t length]: the comparison converts [i] to [size_t]. *)
Fixpoint bench_loop (fuel : nat) (length step : Z) (i : Z) : M unit :=
  match fuel with
  | O => timeout
  | S fuel' =>
      if u64 i <? length then
        triple i ;;
        bench_loop fuel' length step (s32 (i + step))
      else ret tt
  end.

Definition bench (fuel : nat) (length : Z) (step : Z) : M unit :=
  let shift := u8 (ffs sizeof_uint32_t - 1) in
  let length := Z.shiftr length shift in
  bench_loop fuel length step 0.

(** [for (i = ...; i < limit; i++)] with [int i] and [int limit]. *)
Fixpoint for_lt (fuel : nat) (limit : Z) (body : Z -> M unit) (i : Z) : M unit :=
  match fuel with
  | O => timeout
  | S fuel' =>
      if i <? limit then
        body i ;;
        for_lt fuel' limit body (s32 (i + 1))
      else ret tt
  end.

(** The element index of pass [i] of [bench1]: [i * 16] is an [int]
    product, converted to [size_t] for the mask. *)
Definition bench1_index (lengthMod : Z) (i : Z) : Z :=
  Z.land (u64 (s32 (i * 16))) lengthMod.

Definition bench1 (fuel : nat) (length : Z) (limit : Z) : M unit :=
  let lengthMod := u64 (length - 1) in
  for_lt fuel limit (fun i => incr (bench1_index lengthMod i)) 0.

Definition bench2 (fuel : nat) (count : Z) : M unit :=
  for_lt fuel count (fun _ => incr 0 ;; incr 0) 0.

Definition bench3 (fuel : nat) (count : Z) : M unit :=
  for_lt fuel count (fun _ => incr 0 ;; incr 1) 0.

(** The effect of one [buf[i]++] that stays inside the buffer, and of a
    series of them. *)
Definition bump (m : mem) (i : Z) : mem :=
  mk_mem (alter (fun x => u32 (x + 1)) (Z.to_nat i) (cells m))
         (log m ++ [Read i; Write i]).

Definition bump_all (l : list Z) (m : mem) : mem := foldl bump m l.

(** An element after [c] increments. *)
Definition bumped (x c : Z) : Z := if c =? 0 then x else u32 (x + c).

(** The accesses of a series of increments. *)
Definition rmw (l : list Z) : list access := l ≫= fun i => [Read i; Write i].

(** What the specification expects of the aliasing workload: the offset of
    pass [i], and how many passes below [n] land on offset [j]. *)
Definition alias_offset (L : Z) (i : Z) : Z := (i * 16) mod L.

Definition alias_offsets (L n : Z) : list Z := alias_offset L <$> seqZ 0 n.

Fixpoint occurrences (j : Z) (l : list Z) : Z :=
  match l with
  | [] => 0
  | x :: l' => (if x =? j then 1 else 0) + occurrences j l'
  end.

(** What the specification expects of the strided scan: element [j]
    tripled when [j] is a multiple of [step] below [count]. *)
Definition strided (count step : Z) (j : nat) (x : Z) : Z :=
  if (Z.of_nat j <? count) && (Z.of_nat j mod step =? 0) then u32 (x * 3) else x.

(** The same, for the part of the scan that starts at index [i]. *)
Definition strided_from (i count step : Z) (j : nat) (x : Z) : Z :=
  if (i <=? Z.of_nat j) && (Z.of_nat j <? count) && (Z.of_nat j mod step =? 0)
  then u32 (x * 3) else x.

End Workloads.

(** ** printf, as far as the report needs it

    The conversions [%<width>zu], [%<width>lu] and [%s] of libc's [printf]:
    an unsigned conversion prints the argument as a 64-bit unsigned decimal,
    right-aligned with spaces in a field of at least [width] characters. *)

Module Printf.
Import Int.

Inductive printf_arg : Type :=
| ArgU (z : Z)
| ArgS (s : string).

Definition nl : string := String (ascii_of_nat 10) EmptyString.

Definition dec (z : Z) : string :=
  NilZero.string_of_uint (N.to_uint (Z.to_N z)).

Fixpoint spaces (n : nat) : string :=
  match n with
  | O => EmptyString
  | S n' => String " "%char (spaces n')
  end.

Definition lpad (width : nat) (s : string) : string :=
  (spaces (width - String.length s) ++ s)%string.

Definition is_digit (c : ascii) : bool :=
  let n := nat_of_ascii c in
  (Nat.leb 48 n && Nat.leb n 57)%bool.

Definition digit_of (c : ascii) : nat := (nat_of_ascii c - 48)%nat.

Inductive fmt_state : Type :=
| Lit
| Dir (width : nat).

Fixpoint sprintf_aux (st : fmt_state) (fmt : string) (args : list printf_arg)
  : string :=
  match fmt with
  | EmptyString => EmptyString
  | String c rest =>
      match st with
      | Lit =>
          if Ascii.eqb c "%"%char then sprintf_aux (Dir 0) rest args
          else String c (sprintf_aux Lit rest args)
      | Dir w =>
          if is_digit c then sprintf_aux (Dir (10 * w + digit_of c)) rest args
          else if (Ascii.eqb c "z" || Ascii.eqb c "l")%bool
          then sprintf_aux (Dir w) rest args
          else if Ascii.eqb c "u" then
            match args with
            | ArgU z :: args' =>
                (lpad w (dec (u64 z)) ++ sprintf_aux Lit rest args')%string
            | _ => sprintf_aux Lit rest (tail args)
            end
          else if Ascii.eqb c "s" then
            match args with
            | ArgS s :: args' =>
                (lpad w s ++ sprintf_aux Lit rest args')%string
            | _ => sprintf_aux Lit rest (tail args)
            end
          else String c (sprintf_aux Lit rest args)
      end
  end.

Definition sprintf (fmt : string) (args : list printf_arg) : string :=
  sprintf_aux Lit fmt args.

Fixpoint commas (s : string) : nat :=
  match s with
  | EmptyString => O
  | String c rest => ((if Ascii.eqb c "," then 1 else 0) + commas rest)%nat
  end.

Fixpoint starts_with (p s : string) : bool :=
  match p, s with
  | EmptyString, _ => true
  | String a p', String b s' => (Ascii.eqb a b && starts_with p' s')%bool
  | String _ _, EmptyString => false
  end.

(** The report line, field by field: the value of [step] in a field of
    4, the unit, the elapsed time in a field of 6, the two fault deltas in
    fields of 2, the voluntary switches in a field of 1 and the
    involuntary ones in a field of 2, with a comma after every counter but
    the last, and a newline. *)
Definition report_line (value : Z) (unit : string)
    (us majflt minflt nvcsw nivcsw : Z) : string :=
  ("step: " ++ lpad 4 (dec value) ++ unit
   ++ ", diff: " ++ lpad 6 (dec us)
   ++ "(us) hf: " ++ lpad 2 (dec majflt)
   ++ ", sf " ++ lpad 2 (dec minflt)
   ++ ", nvcs: " ++ lpad 1 (dec nvcsw)
   ++ ", nivcs: " ++ lpad 2 (dec nivcsw) ++ nl)%string.

(** The template of the specification, word for word, each number
    preceded by any amount of padding: no comma follows the major faults
    or the voluntary switches. *)
Definition spec_report_line (p1 p2 p3 p4 p5 p6 : nat) (value : Z)
    (unit : string) (us majflt minflt nvcsw nivcsw : Z) : string :=
  ("step: " ++ spaces p1 ++ dec value ++ unit
   ++ ", diff: " ++ spaces p2 ++ dec us
   ++ "(us) hf: " ++ spaces p3 ++ dec majflt
   ++ " sf " ++ spaces p4 ++ dec minflt
   ++ ", nvcs: " ++ spaces p5 ++ dec nvcsw
   ++ " nivcs: " ++ spaces p6 ++ dec nivcsw ++ nl)%string.

End Printf.

(** ** The process: system calls, the harness and main

    At this level the memory traffic of one pre-faulting pass and of one
    workload call is a single event each ([Prefault], [Run]); what they do
    to the buffer is [Prefault.prefault] and [Driver.workload_run]. *)

Module Driver.
Import Int Prefix Printf.

Record rusage : Type := mk_rusage {
  ru_majflt : Z; ru_minflt : Z; ru_nvcsw : Z; ru_nivcsw : Z }.

Record timeval : Type := mk_timeval { tv_sec : Z; tv_usec : Z }.

Inductive syscall : Type :=
| SchedSetaffinity
| SchedSetscheduler
| Mmap (size : Z)
| Munmap (size : Z)
| Getrusage
| Gettimeofday.

Inductive workload : Type :=
| Bench (length step : Z)
| Bench1 (length limit : Z)
| Bench2 (count : Z)
| Bench3 (count : Z).

Inductive event : Type :=
| Sys (c : syscall) (ok : bool)
| Prefault (page_size size : Z)
| Run (w : workload)
| Stdout (s : string)
| Perror (s : string).

(** What the operating system answers. A call is identified by the number
    of events that precede it in the run. *)
Record os : Type := mk_os {
  pagesize : Z;
  setaffinity_ok : bool;
  setscheduler_ok : bool;
  mmap_ok : nat -> bool;
  munmap_ok : nat -> bool;
  rusage_at : nat -> option rusage;
  time_at : nat -> option timeval }.

(** The two static snapshot slots, the regions currently mapped (by size)
    and the events so far, oldest first. *)
Record proc : Type := mk_proc {
  susage : rusage;
  eusage : rusage;
  mapped : list Z;
  trace : list event }.

Inductive slot : Type := Susage | Eusage.

Inductive result (A : Type) : Type :=
| Ret (a : A) (s : proc)
| Exit (code : Z) (s : proc)
| Diverge.

Arguments Ret {A} a s.
Arguments Exit {A} code s.
Arguments Diverge {A}.

Definition P (A : Type) : Type := proc -> result A.

Definition ret {A} (a : A) : P A := fun s => Ret a s.

Definition bind {A B} (c : P A) (k : A -> P B) : P B :=
  fun s =>
    match c s with
    | Ret a s' => k a s'
    | Exit code s' => Exit code s'
    | Diverge => Diverge
    end.

Notation "x <- c ;; k" := (bind c (fun x => k))
  (at level 20, c at level 99, k at level 200, only parsing).
Notation "c ;; k" := (bind c (fun _ => k))
  (at level 100, k at level 200, right associativity, only parsing).

Definition diverge {A} : P A := fun _ => Diverge.

Definition get : P proc := fun s => Ret s s.

Definition now (s : proc) : nat := length (trace s).

Definition emit (e : event) : P unit :=
  fun s => Ret tt (mk_proc (susage s) (eusage s) (mapped s) (trace s ++ [e])).

(** benchmark.c:36-40 *)
Definition die {A} (str : string) : P A :=
  fun s => Exit 1 (mk_proc (susage s) (eusage s) (mapped s) (trace s ++ [Perror str])).

Definition die_if (failed : bool) (str : string) : P unit :=
  if failed then die str else ret tt.

Definition zero_rusage : rusage := mk_rusage 0 0 0 0.
Definition zero_timeval : timeval := mk_timeval 0 0.

Definition initial : proc := mk_proc zero_rusage zero_rusage [] [].

Fixpoint remove_one (size : Z) (l : list Z) : list Z :=
  match l with
  | [] => []
  | x :: l' => if x =? size then l' else x :: remove_one size l'
  end.

Definition MEGABYTES (x : Z) : Z := s64 (Z.shiftl (s64 x) 20).
Definition KILOBYTES (x : Z) : Z := s64 (Z.shiftl (s64 x) 10).
Definition GIGABYTES (x : Z) : Z := s64 (Z.shiftl (s64 x) 30).

Definition report_format : string :=
  ("step: %4zu%s, diff: %6lu(us) hf: %2lu, sf %2lu, nvcs: %1lu, "
   ++ "nivcs: %2lu" ++ nl)%string.

Definition is_run (e : event) : bool :=
  match e with Run _ => true | _ => false end.

Definition is_report (e : event) : bool :=
  match e with
  | Stdout s => starts_with "step: " s
  | _ => false
  end.

Definition count (p : event -> bool) (l : list event) : nat :=
  length (List.filter p l).

(** What a [Run] event does to the buffer it is given. *)
Definition workload_run (w : workload) (fuel : nat) : Mem.M unit :=
  match w with
  | Bench length step => Workloads.bench fuel length step
  | Bench1 length limit => Workloads.bench1 fuel length limit
  | Bench2 n => Workloads.bench2 fuel n
  | Bench3 n => Workloads.bench3 fuel n
  end.

(** The number of elements a call may touch, the number of passes of its
    loop, and what the call needs from a buffer of [n] elements: the element
    count within the buffer and within the reach of the [int] index, a
    power-of-two length for the mask, two elements for the increments. *)
Definition reach (w : workload) : Z :=
  match w with
  | Bench length _ => length / 4
  | Bench1 length _ => length
  | Bench2 _ | Bench3 _ => 2
  end.

Definition passes (w : workload) : Z :=
  match w with
  | Bench length _ => length / 4
  | Bench1 _ limit => limit
  | Bench2 n | Bench3 n => n
  end.

Definition well_called (w : workload) (n : nat) : Prop :=
  match w with
  | Bench length step =>
      0 <= length /\ 1 <= step < 2 ^ 31 /\ length / 4 <= 2 ^ 31
      /\ length / 4 <= Z.of_nat n
  | Bench1 length limit =>
      (exists k, 0 <= k < 64 /\ length = 2 ^ k) /\ limit < 2 ^ 31
      /\ length <= Z.of_nat n
  | Bench2 count | Bench3 count => count < 2 ^ 31 /\ (2 <= n)%nat
  end.

(** The sizes passed to [mmap] and to [munmap], in call order. *)
Fixpoint map_calls (l : list event) : list Z :=
  match l with
  | [] => []
  | Sys (Mmap size) _ :: l' => size :: map_calls l'
  | _ :: l' => map_calls l'
  end.

Fixpoint unmap_calls (l : list event) : list Z :=
  match l with
  | [] => []
  | Sys (Munmap size) _ :: l' => size :: unmap_calls l'
  | _ :: l' => unmap_calls l'
  end.

(** A system on which mapping, unmapping and the two queries succeed. *)
Definition os_ok (sys : os) : Prop :=
  (forall n, mmap_ok sys n = true)
  /\ (forall n, munmap_ok sys n = true)
  /\ (forall n, is_Some (rusage_at sys n))
  /\ (forall n, is_Some (time_at sys n)).

(** [c] returns from [s], having added the events [evs] to the trace. *)
Definition runs {A} (c : P A) (s : proc)
    (R : A -> proc -> list event -> Prop) : Prop :=
  exists a s' evs, c s = Ret a s' /\ trace s' = trace s ++ evs /\ R a s' evs.

(** [c] returns a value in [Q], prints [n] report lines and neither maps
    nor unmaps. *)
Definition quiet {A} (Q : A -> Prop) (n : nat) (c : P A) : Prop :=
  forall s,
    runs c s (fun a s' evs =>
      Q a /\ mapped s' = mapped s /\ map_calls evs = [] /\ unmap_calls evs = []
      /\ count is_report evs = n).

(** [c] returns a value in [Q] after the map calls [maps], the unmap calls
    [unmaps] and [n] report lines, and turns the mapped regions [l] into
    [f l]. *)
Definition effect {A} (maps unmaps : list Z) (f : list Z -> list Z) (n : nat)
    (Q : A -> Prop) (c : P A) : Prop :=
  forall s,
    runs c s (fun a s' evs =>
      Q a /\ mapped s' = f (mapped s) /\ map_calls evs = maps
      /\ unmap_calls evs = unmaps /\ count is_report evs = n).

(** The passes of a sweep, one after the other. *)
Definition chain (body : Z -> P unit) (steps : list Z) : P unit :=
  foldr (fun step k => body step ;; k) (ret tt) steps.

Fixpoint doubling (n : nat) (x : Z) : list Z :=
  match n with
  | O => []
  | S n' => x :: doubling n' (2 * x)
  end.





Section WithOS.

Variable sys : os.

(** System calls return 0 on success and -1 on failure. *)
Definition rc (ok : bool) : Z := if ok then 0 else -1.

Definition sched_setaffinity : P Z :=
  let ok := setaffinity_ok sys in
  emit (Sys SchedSetaffinity ok) ;; ret (rc ok).

Definition sched_setscheduler : P Z :=
  let ok := setscheduler_ok sys in
  emit (Sys SchedSetscheduler ok) ;; ret (rc ok).

(** [true] when the mapping succeeds, [false] for [MAP_FAILED]. *)
Definition mmap (size : Z) : P bool :=
  fun s =>
    let ok := mmap_ok sys (now s) in
    Ret ok (mk_proc (susage s) (eusage s)
              (if ok then size :: mapped s else mapped s)
              (trace s ++ [Sys (Mmap size) ok])).

Definition munmap (size : Z) : P Z :=
  fun s =>
    let ok := munmap_ok sys (now s) in
    Ret (rc ok) (mk_proc (susage s) (eusage s)
                   (if ok then remove_one size (mapped s) else mapped s)
                   (trace s ++ [Sys (Munmap size) ok])).

(** [getrusage(RUSAGE_SELF, &susage)] or [&eusage]. *)
Definition getrusage (into : slot) : P Z :=
  fun s =>
    match rusage_at sys (now s) with
    | Some ru =>
        Ret 0 (mk_proc (match into with Susage => ru | Eusage => susage s end)
                 (match into with Susage => eusage s | Eusage => ru end)
                 (mapped s) (trace s ++ [Sys Getrusage true]))
    | None =>
        Ret (-1) (mk_proc (susage s) (eusage s) (mapped s)
                    (trace s ++ [Sys Getrusage false]))
    end.

(** [gettimeofday(&tv, NULL)]: the return code and the time stored. *)
Definition gettimeofday : P (Z * timeval) :=
  fun s =>
    match time_at sys (now s) with
    | Some tv =>
        Ret (0, tv) (mk_proc (susage s) (eusage s) (mapped s)
                       (trace s ++ [Sys Gettimeofday true]))
    | None =>
        Ret (-1, zero_timeval)
          (mk_proc (susage s) (eusage s) (mapped s)
             (trace s ++ [Sys Gettimeofday false]))
    end.

Definition getpagesize : Z := s32 (pagesize sys).

(** benchmark.c:65-73 *)
Definition timediff (start : timeval) : P Z :=
  r <- gettimeofday ;;
  let '(code, stop) := r in
  die_if (negb (code =? 0)) "gettimeofday()" ;;
  ret (s64 ((tv_sec stop - tv_sec start) * 1000000
            + tv_usec stop - tv_usec start)).

(** benchmark.c:98-126; the returned value is what is left in [*start]. *)
Definition benchmark_prologue (size : Z) : P timeval :=
  let page_size := u64 getpagesize in
  emit (Prefault page_size size) ;;
  code <- getrusage Susage ;;
  die_if (code =? -1) "getrusage()" ;;
  r <- gettimeofday ;;
  let '(code, start) := r in
  die_if (code =? -1) "gettimeofday()" ;;
  ret start.

Definition c_str (s : option string) : string :=
  match s with Some s => s | None => "(null)"%string end.

(** The arguments of the report's [printf]. *)
Definition report_args (step : Z) (prefix : option string) (diff : Z)
    (s : proc) : list printf_arg :=
  [ArgU step; ArgS (c_str prefix); ArgU diff;
   ArgU (s64 (ru_majflt (eusage s) - ru_majflt (susage s)));
   ArgU (s64 (ru_minflt (eusage s) - ru_minflt (susage s)));
   ArgU (s64 (ru_nvcsw (eusage s) - ru_nvcsw (susage s)));
   ArgU (s64 (ru_nivcsw (eusage s) - ru_nivcsw (susage s)))].

(** benchmark.c:132-150 *)
Definition benchmark_epilogue (start : timeval) (step : Z) : P unit :=
  diff <- timediff start ;;
  code <- getrusage Eusage ;;
  die_if (code =? -1) "getrusage()" ;;
  let prefix := Some " "%string in
  let '(step, prefix) := bytes_to_prefix step prefix in
  s <- get ;;
  emit (Stdout (sprintf report_format (report_args step prefix diff s))).

(** [for (step = ...; step <= hi; step <<= 1)] on [size_t]. *)
Fixpoint sweep (fuel : nat) (hi : Z) (body : Z -> P unit) (step : Z) : P unit :=
  match fuel with
  | O => diverge
  | S fuel' =>
      if step <=? hi then
        body step ;;
        sweep fuel' hi body (u64 (Z.shiftl step 1))
      else ret tt
  end.

(** benchmark.c:229-231, one pass of the stride sweep. *)
Definition stride_step (size : Z) (step : Z) : P unit :=
  start <- benchmark_prologue size ;;
  emit (Run (Bench size (s32 step))) ;;
  benchmark_epilogue start step.

(** benchmark.c:239-250, one pass of the working-set sweep. *)
Definition size_step (step : Z) : P unit :=
  let length := Z.shiftr step (ffs sizeof_uint32_t - 1) in
  let size := u64 (length * sizeof_uint32_t) in
  ok <- mmap size ;;
  die_if (negb ok) "mmap()" ;;
  start <- benchmark_prologue size ;;
  emit (Run (Bench1 length (s32 (MEGABYTES 64)))) ;;
  benchmark_epilogue start step ;;
  code <- munmap size ;;
  die_if (code =? -1) "munmap()".

(** benchmark.c:222-234 *)
Definition example2 (fuel : nat) : P unit :=
  emit (Stdout (nl ++ "Example 2: Impact of cache lines. 1" ++ nl)) ;;
  let size := u64 (MEGABYTES 64) in
  ok <- mmap size ;;
  die_if (negb ok) "mmap()" ;;
  sweep fuel 4096 (stride_step size) 1 ;;
  code <- munmap size ;;
  die_if (code =? -1) "munmap()".

(** benchmark.c:236-251 *)
Definition example3 (fuel : nat) : P unit :=
  emit (Stdout (nl ++ "Example 3: L1 and L2 cache sizes" ++ nl)) ;;
  sweep fuel (u64 (GIGABYTES 1)) size_step (u64 (KILOBYTES 1)).

(** benchmark.c:259-261 and 262-264, the two measurements of example 4. *)
Definition ilp_step (size : Z) (w : workload) (label : Z) : P unit :=
  start <- benchmark_prologue size ;;
  emit (Run w) ;;
  benchmark_epilogue start label.

(** benchmark.c:253-266 *)
Definition example4 : P unit :=
  emit (Stdout (nl ++ "Example 4: Instruction-level parallelism" ++ nl)) ;;
  let size := u64 getpagesize in
  ok <- mmap size ;;
  die_if (negb ok) "mmap()" ;;
  ilp_step size (Bench2 (256 * 1024 * 1024)) 1 ;;
  ilp_step size (Bench3 (256 * 1024 * 1024)) 2 ;;
  code <- munmap size ;;
  die_if (code =? -1) "munmap()".

(** benchmark.c:196-268 *)
Definition main (fuel : nat) : P Z :=
  sched_setaffinity ;;
  code <- sched_setscheduler ;;
  die_if (negb (code =? 0)) "sched_setscheduler()" ;;
  example2 fuel ;;
  example3 fuel ;;
  example4 ;;
  ret 0.

End WithOS.

(** The size of the region of the pass of the working-set sweep at
    [step]. *)
Definition size_of (step : Z) : Z :=
  u64 (Z.shiftr step (ffs sizeof_uint32_t - 1) * sizeof_uint32_t).

(** The map calls of a run, in order: the stride region, the 21 regions
    of the working-set sweep, the page of the parallelism experiment. *)
Definition regions_of_run (sys : os) : list Z :=
  67108864 :: (size_of <$> doubling 21 1024) ++ [u64 (getpagesize sys)].

(** The workload calls of a trace, each with the size in bytes of the
    region mapped at the time of the call. *)
Fixpoint calls (mapped : list Z) (l : list event) : list (workload * Z) :=
  match l with
  | [] => []
  | Sys (Mmap size) true :: l' => calls (size :: mapped) l'
  | Sys (Munmap size) true :: l' => calls (remove_one size mapped) l'
  | Run w :: l' => (w, hd 0 mapped) :: calls mapped l'
  | _ :: l' => calls mapped l'
  end.


(** An operating system on which every call succeeds, with a clock that
    advances one second per event and fault counters that grow with it. *)
Definition quiet_os : os :=
  mk_os 4096 true true (fun _ => true) (fun _ => true)
    (fun n => Some (mk_rusage 0 (Z.of_nat n) 0 0))
    (fun n => Some (mk_timeval (Z.of_nat n) 0)).

(** The same system, except that pinning the process to a CPU fails. *)
Definition unpinned_os : os :=
  mk_os 4096 false true (fun _ => true) (fun _ => true)
    (fun n => Some (mk_rusage 0 (Z.of_nat n) 0 0))
    (fun n => Some (mk_timeval (Z.of_nat n) 0)).

(** The exit status of the process: what [main] returns, or the argument
    of [exit]. *)
Definition exit_status (r : result Z) : option Z :=
  match r with
  | Ret code _ => Some code
  | Exit code _ => Some code
  | Diverge => None
  end.

Definition final_trace {A} (r : result A) : list event :=
  match r with
  | Ret _ s | Exit _ s => trace s
  | Diverge => []
  end.

End Driver.

(** ** Notions for the further results on the harness and the workloads *)

Module Further.
Import Int Mem.

(** The multiplier a unit stands for. *)
Definition unit_scale (u : option string) : Z :=
  match u with
  | Some s =>
      if String.eqb s "k" then 1024
      else if String.eqb s "M" then 1024 * 1024
      else if String.eqb s "G" then 1024 * 1024 * 1024
      else 1
  | None => 1
  end.

(** A time of day in microseconds. *)
Definition usecs (tv : Driver.timeval) : Z :=
  Driver.tv_sec tv * 1000000 + Driver.tv_usec tv.

(** The accesses of one pass of the pre-faulting loop over page [p]. *)
Definition page_pass (page_size : Z) (p : Z) : list access :=
  [Read (p * page_size); Write (p * page_size); Flush 0].

(** A value an [uint32_t] element can hold. *)
Definition is_uint32 (x : Z) : Prop := 0 <= x < 2 ^ 32.

End Further.


(** ** The order of events of a run, whatever the system answers *)

Module Protocol.
Import Int Printf Driver.

(** The message the driver hands to [die] when a call fails; the return
    value of [sched_setaffinity] is not looked at (benchmark.c:213). *)
Definition die_message (c : syscall) : option string :=
  match c with
  | SchedSetaffinity => None
  | SchedSetscheduler => Some "sched_setscheduler()"%string
  | Mmap _ => Some "mmap()"%string
  | Munmap _ => Some "munmap()"%string
  | Getrusage => Some "getrusage()"%string
  | Gettimeofday => Some "gettimeofday()"%string
  end.

(** A failed call among those the driver checks. *)
Definition failed_check (e : event) : bool :=
  match e with
  | Sys c false => match die_message c with Some _ => true | None => false end
  | _ => false
  end.

(** An event without what varies from run to run: the numbers of a report
    line and the outcome of the unchecked call. *)
Definition skeleton (e : event) : event :=
  match e with
  | Sys SchedSetaffinity _ => Sys SchedSetaffinity true
  | Stdout s => if starts_with "step: " s then Stdout "step: "%string else e
  | _ => e
  end.

(** The regions mapped after the events [evs], from the regions mapped
    before them. *)
Definition replay_event (l : list Z) (e : event) : list Z :=
  match e with
  | Sys (Mmap size) true => size :: l
  | Sys (Munmap size) true => remove_one size l
  | _ => l
  end.

Definition replay (l : list Z) (evs : list event) : list Z :=
  foldl replay_event l evs.

(** The events of one measurement: benchmark_prologue, the workload,
    benchmark_epilogue. *)
Definition measurement (page_size size : Z) (w : workload) : list event :=
  [Prefault page_size size; Sys Getrusage true; Sys Gettimeofday true;
   Run w;
   Sys Gettimeofday true; Sys Getrusage true; Stdout "step: "%string].

(** The events of the three experiments and of the whole run when no call
    fails, for a page of [page_size] bytes. *)
Definition nominal_stride_step (page_size size step : Z) : list event :=
  measurement page_size size (Bench size (s32 step)).

Definition nominal_size_step (page_size step : Z) : list event :=
  let length := Z.shiftr step (ffs sizeof_uint32_t - 1) in
  let size := u64 (length * sizeof_uint32_t) in
  Sys (Mmap size) true
  :: measurement page_size size (Bench1 length (s32 (MEGABYTES 64)))
  ++ [Sys (Munmap size) true].

Definition nominal_example2 (page_size : Z) : list event :=
  let size := u64 (MEGABYTES 64) in
  Stdout (nl ++ "Example 2: Impact of cache lines. 1" ++ nl)
  :: Sys (Mmap size) true
  :: (doubling 13 1 ≫= nominal_stride_step page_size size)
  ++ [Sys (Munmap size) true].

Definition nominal_example3 (page_size : Z) : list event :=
  Stdout (nl ++ "Example 3: L1 and L2 cache sizes" ++ nl)
  :: (doubling 21 1024 ≫= nominal_size_step page_size).

Definition nominal_example4 (page_size : Z) : list event :=
  Stdout (nl ++ "Example 4: Instruction-level parallelism" ++ nl)
  :: Sys (Mmap page_size) true
  :: measurement page_size page_size (Bench2 (256 * 1024 * 1024))
  ++ measurement page_size page_size (Bench3 (256 * 1024 * 1024))
  ++ [Sys (Munmap page_size) true].

Definition nominal_main (page_size : Z) : list event :=
  [Sys SchedSetaffinity true; Sys SchedSetscheduler true]
  ++ nominal_example2 page_size
  ++ nominal_example3 page_size
  ++ nominal_example4 page_size.

(** [c] keeps to the sequence [nom]. Either it returns a value in [Q]
    after events that are [nom] up to [skeleton], or it exits with status 1
    after a part of [nom], the failure of the call that comes next in
    [nom] and the message of that call on stderr. It does one or the
    other; the regions mapped are those the events account for. *)
Definition follows {A} (nom : list event) (Q : A -> Prop) (c : P A) : Prop :=
  forall s,
    match c s with
    | Ret a s' =>
        Q a
        /\ exists evs,
            trace s' = trace s ++ evs
            /\ skeleton <$> evs = nom
            /\ mapped s' = replay (mapped s) evs
    | Exit code s' =>
        code = 1
        /\ exists pre call msg rest,
            trace s' = trace s ++ pre ++ [Sys call false; Perror msg]
            /\ die_message call = Some msg
            /\ nom = (skeleton <$> pre) ++ Sys call true :: rest
            /\ mapped s' = replay (mapped s) pre
    | Diverge => False
    end.

(** What a call the driver goes on to check does: it returns after one
    event, the call with its outcome, and [failed] is the test the driver
    makes on the value returned. *)
Definition answers {A} (c : syscall) (failed : A -> bool) (call : P A) : Prop :=
  forall s, exists a ok s',
    call s = Ret a s'
    /\ trace s' = trace s ++ [Sys c ok]
    /\ mapped s' = replay_event (mapped s) (Sys c ok)
    /\ failed a = negb ok.

(** The pre-faulting passes of a trace: the page size and the size each
    was given, with the regions mapped at the time. *)
Fixpoint prefaults (mapped : list Z) (l : list event)
  : list (Z * Z * list Z) :=
  match l with
  | [] => []
  | Sys (Mmap size) true :: l' => prefaults (size :: mapped) l'
  | Sys (Munmap size) true :: l' => prefaults (remove_one size mapped) l'
  | Prefault page_size size :: l' =>
      (page_size, size, mapped) :: prefaults mapped l'
  | _ :: l' => prefaults mapped l'
  end.

(** Events that neither map nor unmap. *)
Definition keeps_regions (e : event) : bool :=
  match e with
  | Sys (Mmap _) true | Sys (Munmap _) true => false
  | _ => true
  end.

End Protocol.

(** ** The cache enumeration of enumerate.c

    [enumerate_cache] asks the processor for its deterministic cache
    parameters (CPUID leaf 4) sub-leaf by sub-leaf and prints one row per
    cache. The processor is a function from the leaf and sub-leaf to the
    four registers; what is printed and what was asked are kept in order.
    The registers and the decoded fields are [uint32_t] or [unsigned]. *)

Module Enumerate.
Import Int Printf.

Record regs : Type := mk_regs { reg_eax : Z; reg_ebx : Z; reg_ecx : Z; reg_edx : Z }.

(** [cpuid] with [eax] and [ecx] as given. *)
Definition processor : Type := Z -> Z -> regs.

Record console : Type := mk_console {
  stdout : list string;
  queries : list (Z * Z) }.

Definition say (line : string) (o : console) : console :=
  mk_console (stdout o ++ [line]) (queries o).

Definition ask (leaf subleaf : Z) (o : console) : console :=
  mk_console (stdout o) (queries o ++ [(leaf, subleaf)]).

(** What a [char *] taken from memory leads to: a string, a null
    pointer, or an address that cannot be read. *)
Inductive pointee : Type :=
| Text (s : string)
| Null
| Wild.

(** The function returns; or [fprintf] is handed an address it cannot
    read and the process is killed; or the walk over [header] leaves the
    array (it starts at 0 and the null pointer at index 5 ends it, so
    [enumerate_cache] never gets there); or the loop is still running when
    the fuel is spent. *)
Inductive outcome : Type :=
| Returned (o : console)
| Killed (o : console)
| OutOfTable (o : console)
| Running.

Definition tab : string := String (ascii_of_nat 9) EmptyString.

(** enumerate.c:88-96; a null pointer ends the array. *)
Definition header : list (option string) :=
  [Some ("[L]*  " ++ tab ++ "  - Self Initialized")%string;
   Some "[Ways]** - Fully associative"%string;
   Some "*============================================================================*"%string;
   Some "| L |  Type  | No.Sets | LineSz | Line Part | Ways | Size | Invd | Incv.| Indx"%string;
   Some "*============================================================================*"%string;
   None].

(** enumerate.c:98-116 *)
Definition bytes_to_prefix (bytes : Z) (s : option string) : Z * option string :=
  let b := bytes in
  match s with
  | Some _ =>
      let '(b, s) :=
        if Z.land b (u64 (1024 - 1)) =? 0
        then (Z.shiftr b 10, Some "k"%string) else (b, s) in
      let '(b, s) :=
        if Z.land b (u64 (1024 - 1)) =? 0
        then (Z.shiftr b 10, Some "M"%string) else (b, s) in
      let '(b, s) :=
        if Z.land b (u64 (1024 - 1)) =? 0
        then (Z.shiftr b 10, Some "G"%string) else (b, s) in
      (b, s)
  | None => (b, s)
  end.

(** enumerate.c:118-121 *)
Definition cache_type : list (option string) :=
  [Some "Data"%string; Some "Instn"%string; Some "Unified"%string;
   Some "Unkown"%string; None].

(** [cache_type[index]]. Nothing checks the index: inside the array the
    program finds its five entries, past its end whatever pointer the
    memory holds there, which [beyond] gives for each index from 5 on. *)
Definition cache_type_at (beyond : Z -> pointee) (index : Z) : pointee :=
  match cache_type !! Z.to_nat index with
  | Some (Some name) => Text name
  | Some None => Null
  | None => beyond index
  end.

(** What [%s] prints for a pointer, when it can be read. *)
Definition shown (p : pointee) : option string :=
  match p with
  | Text s => Some s
  | Null => Some "(null)"%string
  | Wild => None
  end.

(** A value converted to [bool]. *)
Definition to_bool (z : Z) : bool := negb (z =? 0).

(** What [%s] prints for a string, and for a null pointer. *)
Definition c_str (s : option string) : string :=
  match s with Some s => s | None => "(null)"%string end.

Record cache : Type := mk_cache {
  type : Z;
  level : Z;
  self_init : bool;
  fully_associative : bool;
  line_size : Z;
  line_partitions : Z;
  ways : Z;
  sets : Z;
  wbinvd : bool;
  inclusive : bool;
  indexing : bool;
  total_size : Z }.

(** enumerate.c:155-184: the fields of one sub-leaf. [eax] and [ebx] are
    shifted in place from one field to the next. *)
Definition decode (r : regs) : cache :=
  let eax := u32 (reg_eax r) in
  let ebx := u32 (reg_ebx r) in
  let ecx := u32 (reg_ecx r) in
  let edx := u32 (reg_edx r) in
  let type := Z.land eax 0x1F in
  let eax := Z.shiftr eax 5 in
  let level := Z.land eax 0x7 in
  let eax := Z.shiftr eax 3 in
  let self_init := to_bool (Z.land eax 0x1) in
  let eax := Z.shiftr eax 1 in
  let fully_associative := to_bool (Z.land eax 0x1) in
  let line_size := u32 (Z.land ebx 0xFFF + 1) in
  let ebx := Z.shiftr ebx 12 in
  let line_partitions := u32 (Z.land ebx 0x3FF + 1) in
  let ebx := Z.shiftr ebx 10 in
  let ways := u32 (Z.land ebx 0x3FF + 1) in
  let sets := u32 (ecx + 1) in
  let wbinvd := to_bool (Z.land edx 0x1) in
  let inclusive := to_bool (Z.land edx 0x2) in
  let indexing := to_bool (Z.land edx 0x4) in
  let total_size :=
    u64 (u32 (u32 (u32 (ways * line_partitions) * line_size) * sets)) in
  mk_cache type level self_init fully_associative line_size line_partitions
    ways sets wbinvd inclusive indexing total_size.

Definition row_format : string :=
  ("%2s%u%s %8s %6u %8u %8u %8u%s %8zu%s " ++ "%4s %6s %6s" ++ nl)%string.

(** enumerate.c:185-196: the row of one cache; there is none when the
    pointer taken from [cache_type[type - 1]] cannot be read. *)
Definition row (beyond : Z -> pointee) (c : cache) : option string :=
  let prefix := Some " "%string in
  let '(total_size, prefix) := bytes_to_prefix (total_size c) prefix in
  match shown (cache_type_at beyond (u32 (type c - 1))) with
  | Some name =>
      Some (sprintf row_format
              [ArgS "L"; ArgU (level c);
               ArgS (if self_init c then "*" else "");
               ArgS name;
               ArgU (sets c); ArgU (line_size c); ArgU (line_partitions c);
               ArgU (ways c);
               ArgS (if fully_associative c then "*" else "");
               ArgU total_size; ArgS (c_str prefix);
               ArgS (if wbinvd c then "N" else "Y");
               ArgS (if inclusive c then "N" else "Y");
               ArgS (if indexing c then "D" else "C")])
  | None => None
  end.

(** enumerate.c:132-133, [index] an [int]. *)
Fixpoint print_header (fuel : nat) (index : Z) (o : console) : outcome :=
  match fuel with
  | O => Running
  | S fuel' =>
      if index <? 0 then OutOfTable o
      else match header !! Z.to_nat index with
           | Some (Some line) =>
               print_header fuel' (s32 (index + 1))
                 (say (sprintf ("%s" ++ nl) [ArgS line]) o)
           | Some None => Returned o
           | None => OutOfTable o
           end
  end.

(** enumerate.c:136-198: the loop ends when a sub-leaf reports the null
    type, and only then. *)
Fixpoint enumerate_loop (cpuid : processor) (beyond : Z -> pointee)
    (fuel : nat) (index : Z) (o : console) : outcome :=
  match fuel with
  | O => Running
  | S fuel' =>
      let eax := 0x04 in
      let ecx := u32 index in
      let r := cpuid eax ecx in
      let o := ask eax ecx o in
      let c := decode r in
      if negb (to_bool (type c)) then Returned o
      else match row beyond c with
           | Some line =>
               enumerate_loop cpuid beyond fuel' (s32 (index + 1)) (say line o)
           | None => Killed o
           end
  end.

(** enumerate.c:123-199 *)
Definition enumerate_cache (cpuid : processor) (beyond : Z -> pointee)
    (fuel : nat) : outcome :=
  let index := 0 in
  match print_header fuel index (mk_console [] []) with
  | Returned o =>
      let index := 0 in
      enumerate_loop cpuid beyond fuel index o
  | stopped => stopped
  end.

(** The registers of a sub-leaf from its fields, bit by bit as the
    comment at enumerate.c:31-66 lays them out; [ids] are bits 10 to 31 of
    EAX, [spare] bits 3 to 31 of EDX. The fields marked ** in the comment
    are stored less one. *)
Definition leaf4 (type level : Z) (self_init fully_associative : bool) (ids : Z)
    (line_size line_partitions ways sets : Z)
    (wbinvd inclusive indexing : bool) (spare : Z) : regs :=
  mk_regs
    (type + 2 ^ 5 * level + 2 ^ 8 * Z.b2z self_init
     + 2 ^ 9 * Z.b2z fully_associative + 2 ^ 10 * ids)
    ((line_size - 1) + 2 ^ 12 * (line_partitions - 1) + 2 ^ 22 * (ways - 1))
    (sets - 1)
    (Z.b2z wbinvd + 2 * Z.b2z inclusive + 4 * Z.b2z indexing + 8 * spare).

(** The lines of the header as printed. *)
Definition header_lines : list string :=
  omap (fun l => (fun s => s ++ nl)%string <$> l) header.

(** A row, field by field. *)
Definition row_line (c : cache) (name : string) (size : Z) (unit : string) : string :=
  (lpad 2 "L" ++ dec (level c) ++ (if self_init c then "*" else "")
   ++ " " ++ lpad 8 name
   ++ " " ++ lpad 6 (dec (sets c))
   ++ " " ++ lpad 8 (dec (line_size c))
   ++ " " ++ lpad 8 (dec (line_partitions c))
   ++ " " ++ lpad 8 (dec (ways c)) ++ (if fully_associative c then "*" else "")
   ++ " " ++ lpad 8 (dec size) ++ unit
   ++ " " ++ lpad 4 (if wbinvd c then "N" else "Y")
   ++ " " ++ lpad 6 (if inclusive c then "N" else "Y")
   ++ " " ++ lpad 6 (if indexing c then "D" else "C") ++ nl)%string.

(** What the Type column shows for a type field: for 1 to 4 a name of
    the table, for 5 what [%s] makes of the null pointer that ends it, for
    any other type what the memory past the table leads to. *)
Definition type_name (beyond : Z -> pointee) (t : Z) : option string :=
  if t =? 1 then Some "Data"%string
  else if t =? 2 then Some "Instn"%string
  else if t =? 3 then Some "Unified"%string
  else if t =? 4 then Some "Unkown"%string
  else if t =? 5 then Some "(null)"%string
  else shown (beyond (u32 (t - 1))).

(** The query of sub-leaf [i]. *)
Definition query (i : Z) : Z * Z := (4, i).

End Enumerate.

(** ** The cache-control bits of read_cr0.c

    [__read_cr0] (read_cr0.c:15-43) reads the control register of the
    processor it runs on and logs two of its flags. Modelled is what it
    computes from the register value, an [unsigned long] shifted in place:
    the arguments it hands to [pr_info]. The lock around the computation
    and the kernel log are left out. *)

Module ReadCr0.
Import Int.

Definition __read_cr0 (read_cr0 : Z) (smp_processor_id : Z)
  : Z * Z * string * string :=
  let cr0 := u64 read_cr0 in
  let tmp := cr0 in
  let tmp := Z.shiftr tmp 29 in
  let nw := negb (Z.land tmp 0x1 =? 0) in
  let tmp := Z.shiftr tmp 1 in
  let cd := negb (Z.land tmp 0x1 =? 0) in
  (smp_processor_id, cr0,
   if nw then "true"%string else "false"%string,
   if cd then "true"%string else "false"%string).

End ReadCr0.
(** * Proofs *)

(** ** Machine integers *)

Section IntFacts.
Import Int.

Lemma u32_small z : 0 <= z < 2 ^ 32 -> u32 z = z.
Proof. intros H. unfold u32, wrap. apply Z.mod_small. lia. Qed.

Lemma u64_small z : 0 <= z < 2 ^ 64 -> u64 z = z.
Proof. intros H. unfold u64, wrap. apply Z.mod_small. lia. Qed.

Lemma s32_small z : - 2 ^ 31 <= z < 2 ^ 31 -> s32 z = z.
Proof.
  intros H. unfold s32, swrap. change (32 - 1) with 31.
  rewrite Z.mod_small; lia.
Qed.

Lemma s64_small z : - 2 ^ 63 <= z < 2 ^ 63 -> s64 z = z.
Proof.
  intros H. unfold s64, swrap. change (64 - 1) with 63.
  rewrite Z.mod_small; lia.
Qed.

(** Past [INT_MAX] an [int] wraps to a negative value. *)
Lemma s32_overflow z : 2 ^ 31 <= z < 2 ^ 32 -> s32 z = z - 2 ^ 32.
Proof.
  intros H. unfold s32, swrap. change (32 - 1) with 31.
  replace (z + 2 ^ 31) with ((z - 2 ^ 31) + 1 * 2 ^ 32) by lia.
  rewrite Z.mod_add by lia. rewrite Z.mod_small; lia.
Qed.

(** A negative [int] converted to [size_t] lands in the top of the range. *)
Lemma u64_negative z : - 2 ^ 63 <= z < 0 -> u64 z = z + 2 ^ 64.
Proof.
  intros H. unfold u64, wrap.
  replace z with ((z + 2 ^ 64) + (-1) * 2 ^ 64) at 1 by lia.
  rewrite Z.mod_add by lia. rewrite Z.mod_small; lia.
Qed.

Lemma u32_add_idemp x c : u32 (u32 x + c) = u32 (x + c).
Proof. unfold u32, wrap. now rewrite Zplus_mod_idemp_l. Qed.

Lemma u32_range z : 0 <= u32 z < 2 ^ 32.
Proof. unfold u32, wrap. apply Z.mod_pos_bound. lia. Qed.

End IntFacts.

(** ** bytes_to_prefix *)

Section PrefixFacts.
Import Int Prefix.

Lemma land_mask b : Z.land b 1023 = b mod 1024.
Proof. change 1023 with (Z.ones 10). now rewrite Z.land_ones by lia. Qed.

Lemma shiftr_10 b : Z.shiftr b 10 = b / 1024.
Proof. now rewrite Z.shiftr_div_pow2 by lia. Qed.

Lemma mask_clear b : (1024 | b) -> (Z.land b 1023 =? 0) = true.
Proof.
  intros H. rewrite land_mask. apply Z.eqb_eq.
  apply Z.mod_divide in H; [exact H | lia].
Qed.

Lemma mask_set b : ~ (1024 | b) -> (Z.land b 1023 =? 0) = false.
Proof.
  intros H. rewrite land_mask. apply Z.eqb_neq. intros E. apply H.
  apply Z.mod_divide; [lia | exact E].
Qed.

(** Dividing out one factor of 1024 keeps the remaining divisibility. *)
Lemma divide_step b n : 0 < n -> (1024 * n | b) -> (n | b / 1024).
Proof.
  intros Hn [q Hq]. exists q. subst b.
  replace (q * (1024 * n)) with (q * n * 1024) by lia.
  now rewrite Z.div_mul by lia.
Qed.

Lemma not_divide_step b n :
  0 < n -> (1024 | b) -> ~ (1024 * n | b) -> ~ (n | b / 1024).
Proof.
  intros Hn [q Hq] H [r Hr]. apply H. subst b.
  rewrite Z.div_mul in Hr by lia. subst q. exists r. lia.
Qed.

Lemma bytes_to_prefix_unfold b p :
  bytes_to_prefix b (Some p) =
  let '(b, s) :=
    if Z.land b 1023 =? 0 then (Z.shiftr b 10, Some "k"%string) else (b, Some p) in
  let '(b, s) :=
    if Z.land b 1023 =? 0 then (Z.shiftr b 10, Some "M"%string) else (b, s) in
  let '(b, s) :=
    if Z.land b 1023 =? 0 then (Z.shiftr b 10, Some "G"%string) else (b, s) in
  (b, s).
Proof. reflexivity. Qed.

Ltac test_fails H :=
  rewrite (mask_set _ H); cbn -[Z.land Z.div Z.shiftr Z.pow].

Ltac test_passes H :=
  rewrite (mask_clear _ H); cbn -[Z.land Z.div Z.shiftr Z.pow];
  rewrite shiftr_10.

(** C4. For a size divisible by 1024^k and, unless k is 3, not by
    1024^(k+1), [bytes_to_prefix] returns the size divided by 1024^k with
    the unit of exponent k: none (the caller's placeholder is kept), k, M
    or G. *)
Theorem bytes_to_prefix_largest_unit (b k : Z) (p : string) :
  0 <= k <= 3 ->
  (1024 ^ k | b) ->
  (k = 3 \/ ~ (1024 ^ (k + 1) | b)) ->
  bytes_to_prefix b (Some p) = (b / 1024 ^ k, prefix_of k p).
Proof.
  intros Hk Hdiv Hmax. rewrite bytes_to_prefix_unfold.
  assert (k = 0 \/ k = 1 \/ k = 2 \/ k = 3) as [-> | [-> | [-> | ->]]] by lia.
  - destruct Hmax as [? | Hmax]; [lia |].
    change (1024 ^ (0 + 1)) with 1024 in Hmax.
    do 3 test_fails Hmax.
    change (1024 ^ 0) with 1. now rewrite Z.div_1_r.
  - destruct Hmax as [? | Hmax]; [lia |].
    change (1024 ^ 1) with 1024 in Hdiv |- *.
    change (1024 ^ (1 + 1)) with (1024 * 1024) in Hmax.
    assert (~ (1024 | b / 1024)) as H1 by (apply not_divide_step; [lia | done..]).
    test_passes Hdiv. do 2 test_fails H1. reflexivity.
  - destruct Hmax as [? | Hmax]; [lia |].
    change (1024 ^ 2) with (1024 * 1024) in Hdiv |- *.
    change (1024 ^ (2 + 1)) with (1024 * (1024 * 1024)) in Hmax.
    assert (1024 | b) as H0.
    { destruct Hdiv as [q ->]. exists (q * 1024). lia. }
    assert (1024 | b / 1024) as H1 by (apply divide_step; [lia | done]).
    assert (~ (1024 * 1024 | b / 1024)) as H2
      by (apply not_divide_step; [lia | done..]).
    assert (~ (1024 | b / 1024 / 1024)) as H3
      by (apply not_divide_step; [lia | done..]).
    test_passes H0. test_passes H1. test_fails H3.
    now rewrite Z.div_div by lia.
  - change (1024 ^ 3) with (1024 * (1024 * 1024)) in Hdiv |- *.
    assert (1024 | b) as H0.
    { destruct Hdiv as [q ->]. exists (q * (1024 * 1024)). lia. }
    assert (1024 * 1024 | b / 1024) as H1 by (apply divide_step; [lia | done]).
    assert (1024 | b / 1024) as H1'.
    { destruct H1 as [q ->]. exists (q * 1024). lia. }
    assert (1024 | b / 1024 / 1024) as H2 by (apply divide_step; [lia | done]).
    test_passes H0. test_passes H1'. test_passes H2.
    now rewrite !Z.div_div by lia.
Qed.

(** The three sizes the specification names: 64k, 1G and a plain 1000. *)
Lemma bytes_to_prefix_largest_unit_witness :
  bytes_to_prefix 65536 (Some " "%string) = (64, Some "k"%string).
Proof.
  apply (bytes_to_prefix_largest_unit 65536 1 " ").
  - lia.
  - exists 64. reflexivity.
  - right. intros [q Hq]. lia.
Defined.

Example bytes_to_prefix_1G :
  bytes_to_prefix 1073741824 (Some " "%string) = (1, Some "G"%string).
Proof. reflexivity. Qed.

Example bytes_to_prefix_1000 :
  bytes_to_prefix 1000 (Some " "%string) = (1000, Some " "%string).
Proof. reflexivity. Qed.

(** A null unit pointer leaves the size as it is. *)
Example bytes_to_prefix_null b : bytes_to_prefix b None = (b, None).
Proof. reflexivity. Qed.

End PrefixFacts.

(** ** Accesses that stay inside the buffer *)

Section MemFacts.
Import Int Mem Workloads.

Lemma lookup_inside (l : list Z) i :
  inside (length l) i -> exists v, l !! Z.to_nat i = Some v.
Proof.
  intros [H0 H1]. apply lookup_lt_is_Some. lia.
Qed.

Lemma load_inside m i v :
  0 <= i -> cells m !! Z.to_nat i = Some v ->
  load i m = Done v (record (Read i) m).
Proof.
  intros Hi Hv. unfold load.
  destruct (Z.ltb_spec i 0) as [? | _]; [lia |]. now rewrite Hv.
Qed.

Lemma store_inside m i v w :
  0 <= i -> cells m !! Z.to_nat i = Some v ->
  store i w m = Done tt (mk_mem (<[Z.to_nat i := w]> (cells m)) (log m ++ [Write i])).
Proof.
  intros Hi Hv. unfold store.
  destruct (Z.ltb_spec i 0) as [? | _]; [lia |]. now rewrite Hv.
Qed.

(** A read-modify-write of one element. *)
Lemma update_inside (f : Z -> Z) m i :
  inside (length (cells m)) i ->
  (x <- load i ;; store i (f x)) m =
  Done tt (mk_mem (alter f (Z.to_nat i) (cells m)) (log m ++ [Read i; Write i])).
Proof.
  intros Hi. destruct (lookup_inside _ _ Hi) as [v Hv].
  destruct Hi as [Hi _]. unfold bind.
  rewrite (load_inside m i v Hi Hv). cbv beta iota.
  rewrite (store_inside (record (Read i) m) i v (f v) Hi Hv). cbn.
  f_equal. f_equal.
  - apply list_eq. intros j.
    destruct (decide (Z.to_nat i = j)) as [<- | Hne].
    + rewrite list_lookup_alter_eq, Hv, list_lookup_insert_eq; [done |].
      apply lookup_lt_is_Some. eauto.
    + now rewrite list_lookup_alter_ne, list_lookup_insert_ne.
  - now rewrite <- app_assoc.
Qed.

Lemma incr_inside m i :
  inside (length (cells m)) i -> incr i m = Done tt (bump m i).
Proof. intros Hi. unfold incr, bump. now rewrite update_inside. Qed.

Lemma bump_length m i : length (cells (bump m i)) = length (cells m).
Proof. unfold bump. cbn. apply length_alter. Qed.

Lemma bump_all_length l m : length (cells (bump_all l m)) = length (cells m).
Proof.
  revert m. induction l as [| i l IH]; intros m; [done |].
  cbn. unfold bump_all in IH. rewrite IH. apply bump_length.
Qed.

Lemma bump_all_app l1 l2 m :
  bump_all (l1 ++ l2) m = bump_all l2 (bump_all l1 m).
Proof. unfold bump_all. apply foldl_app. Qed.

Lemma bump_all_log l m : log (bump_all l m) = log m ++ rmw l.
Proof.
  revert m. induction l as [| i l IH]; intros m.
  - cbn. now rewrite app_nil_r.
  - cbn. unfold bump_all in IH. rewrite IH. cbn. now rewrite <- app_assoc.
Qed.

Lemma writes_app l1 l2 : writes (l1 ++ l2) = writes l1 ++ writes l2.
Proof.
  induction l1 as [| a l1 IH]; [done |]. destruct a; cbn; now rewrite IH.
Qed.

Lemma writes_rmw l : writes (rmw l) = l.
Proof. induction l as [| i l IH]; [done |]. cbn. now f_equal. Qed.

Lemma occurrences_app j l1 l2 :
  occurrences j (l1 ++ l2) = occurrences j l1 + occurrences j l2.
Proof. induction l1 as [| x l1 IH]; cbn; [done | lia]. Qed.

Lemma occurrences_nonneg j l : 0 <= occurrences j l.
Proof. induction l as [| x l IH]; cbn; [lia |]. destruct (x =? j); lia. Qed.

Lemma occurrences_le_length j l : occurrences j l <= Z.of_nat (length l).
Proof. induction l as [| x l IH]; cbn; [lia |]. destruct (x =? j); lia. Qed.

(** Each element ends up incremented once per occurrence of its index,
    modulo 2^32. *)
Lemma bump_all_lookup l m (j : nat) :
  Forall (fun i => 0 <= i) l ->
  cells (bump_all l m) !! j =
  (fun x => bumped x (occurrences (Z.of_nat j) l)) <$> cells m !! j.
Proof.
  revert m. induction l as [| i l IH]; intros m Hl.
  - cbn. now destruct (cells m !! j).
  - inversion Hl as [| ? ? Hi Hl']; subst.
    change (bump_all (i :: l) m) with (bump_all l (bump m i)).
    rewrite (IH _ Hl'). cbn [occurrences].
    pose proof (occurrences_nonneg (Z.of_nat j) l) as Hc.
    unfold bump; cbn [cells].
    destruct (Z.eqb_spec i (Z.of_nat j)) as [-> | Hne].
    + rewrite Nat2Z.id, list_lookup_alter_eq.
      destruct (cells m !! j) as [x |]; cbn; [| done].
      f_equal. unfold bumped.
      destruct (Z.eqb_spec (occurrences (Z.of_nat j) l) 0) as [-> | ?].
      * reflexivity.
      * destruct (Z.eqb_spec (1 + occurrences (Z.of_nat j) l) 0); [lia |].
        rewrite u32_add_idemp. f_equal. lia.
    + rewrite list_lookup_alter_ne by lia.
      now rewrite Z.add_0_l.
Qed.

(** The [int] loop counter runs from [i] to [limit] when the fuel covers
    the remaining passes. *)
Lemma for_lt_run body (step : Z -> mem -> mem) (Inv : mem -> Prop) limit :
  limit < 2 ^ 31 ->
  (forall i m, 0 <= i < limit -> Inv m ->
     body i m = Done tt (step i m) /\ Inv (step i m)) ->
  forall fuel i m,
    0 <= i ->
    (Z.to_nat (limit - i) < fuel)%nat ->
    Inv m ->
    for_lt fuel limit body i m =
    Done tt (foldl (fun m i => step i m) m (seqZ i (limit - i))).
Proof.
  intros Hlimit Hbody. induction fuel as [| fuel IH]; intros i m Hi Hfuel Hm.
  - lia.
  - cbn [for_lt]. destruct (Z.ltb_spec i limit) as [Hlt | Hge].
    + destruct (Hbody i m) as [Hrun Hinv]; [lia | done |].
      unfold bind. rewrite Hrun.
      rewrite s32_small by lia.
      rewrite IH by (done || lia).
      rewrite (seqZ_cons i) by lia. cbn [foldl].
      do 3 f_equal. lia.
    + rewrite seqZ_nil by lia. reflexivity.
Qed.

End MemFacts.

(** ** The increment workloads and the aliasing workload *)

Section IncrementFacts.
Import Int Mem Workloads.

Lemma foldl_bump_bind (touch : Z -> list Z) l m :
  foldl (fun m i => bump_all (touch i) m) m l = bump_all (l ≫= touch) m.
Proof.
  revert m. induction l as [| i l IH]; intros m; [done |].
  change ((i :: l) ≫= touch) with (touch i ++ (l ≫= touch)).
  rewrite bump_all_app. cbn [foldl]. apply IH.
Qed.

(** A counted loop whose pass [i] increments the elements [touch i], all
    inside the buffer, is the series of all these increments. *)
Lemma for_lt_bumps (touch : Z -> list Z) body limit (n : nat) :
  limit < 2 ^ 31 ->
  (forall i m, 0 <= i < limit -> length (cells m) = n ->
     body i m = Done tt (bump_all (touch i) m)) ->
  forall fuel m,
    (Z.to_nat limit < fuel)%nat ->
    length (cells m) = n ->
    for_lt fuel limit body 0 m = Done tt (bump_all (seqZ 0 limit ≫= touch) m).
Proof.
  intros Hlimit Hbody fuel m Hfuel Hm.
  rewrite (for_lt_run body (fun i m => bump_all (touch i) m)
             (fun m => length (cells m) = n) limit Hlimit).
  - rewrite Z.sub_0_r. now rewrite foldl_bump_bind.
  - intros i m0 Hi Hm0. split; [now apply Hbody |].
    now rewrite bump_all_length.
  - lia.
  - now rewrite Z.sub_0_r.
  - exact Hm.
Qed.

Lemma occurrences_bind_const j (c : list Z) (l : list Z) :
  occurrences j (l ≫= fun _ => c) = occurrences j c * Z.of_nat (length l).
Proof.
  induction l as [| x l IH]; cbn; [lia |].
  rewrite occurrences_app, IH. lia.
Qed.

Lemma bind_singleton (f : Z -> Z) (l : list Z) :
  (l ≫= fun i => [f i]) = f <$> l.
Proof. induction l as [| x l IH]; cbn; [done | now f_equal]. Qed.

Lemma Forall_bind_const (Q : Z -> Prop) (c l : list Z) :
  Forall Q c -> Forall Q (l ≫= fun _ => c).
Proof.
  intros Hc. induction l as [| x l IH]; cbn; [constructor |].
  apply Forall_app. now split.
Qed.

Lemma bumped_zero c : 0 <= c < 2 ^ 32 -> bumped 0 c = c.
Proof.
  intros Hc. unfold bumped. destruct (Z.eqb_spec c 0) as [-> | ?]; [done |].
  now rewrite Z.add_0_l, u32_small.
Qed.

Lemma bench2_run fuel count (m : mem) :
  count < 2 ^ 31 ->
  (Z.to_nat count < fuel)%nat ->
  (1 <= length (cells m))%nat ->
  bench2 fuel count m =
  Done tt (bump_all (seqZ 0 count ≫= fun _ => [0; 0]) m).
Proof.
  intros Hc Hfuel Hm. unfold bench2.
  apply (for_lt_bumps (fun _ => [0; 0]) _ count (length (cells m))); try done.
  intros i m0 _ Hm0. unfold bind.
  rewrite incr_inside by (unfold inside; lia). cbv beta iota.
  rewrite incr_inside by (rewrite bump_length; unfold inside; lia).
  reflexivity.
Qed.

Lemma bench3_run fuel count (m : mem) :
  count < 2 ^ 31 ->
  (Z.to_nat count < fuel)%nat ->
  (2 <= length (cells m))%nat ->
  bench3 fuel count m =
  Done tt (bump_all (seqZ 0 count ≫= fun _ => [0; 1]) m).
Proof.
  intros Hc Hfuel Hm. unfold bench3.
  apply (for_lt_bumps (fun _ => [0; 1]) _ count (length (cells m))); try done.
  intros i m0 _ Hm0. unfold bind.
  rewrite incr_inside by (unfold inside; lia). cbv beta iota.
  rewrite incr_inside by (rewrite bump_length; unfold inside; lia).
  reflexivity.
Qed.

(** Masking with [L - 1] for a power of two [L] is the remainder modulo
    [L], whatever the [int] product wrapped to. *)
Lemma mod_mod_pow2 a n k : 0 <= k <= n -> (a mod 2 ^ n) mod 2 ^ k = a mod 2 ^ k.
Proof.
  intros Hk.
  assert (2 ^ n = 2 ^ (n - k) * 2 ^ k) as Hn.
  { rewrite <- Z.pow_add_r by lia. f_equal. lia. }
  assert (0 < 2 ^ k) by (apply Z.pow_pos_nonneg; lia).
  assert (0 < 2 ^ n) by (apply Z.pow_pos_nonneg; lia).
  rewrite (Z.mod_eq a (2 ^ n)) by lia.
  rewrite Hn at 1.
  replace (a - 2 ^ (n - k) * 2 ^ k * (a / 2 ^ n))
    with (a + (- (2 ^ (n - k) * (a / 2 ^ n))) * 2 ^ k) by lia.
  now rewrite Z.mod_add by lia.
Qed.

Lemma bench1_index_range k i :
  0 <= k < 64 -> 0 <= bench1_index (u64 (2 ^ k - 1)) i < 2 ^ k.
Proof.
  intros Hk. unfold bench1_index.
  assert (0 < 2 ^ k) by (apply Z.pow_pos_nonneg; lia).
  assert (2 ^ k <= 2 ^ 63) by (apply Z.pow_le_mono_r; lia).
  rewrite (u64_small (2 ^ k - 1)) by lia.
  change (2 ^ k - 1) with (Z.pred (2 ^ k)). rewrite <- Z.ones_equiv.
  rewrite Z.land_ones by lia. apply Z.mod_pos_bound. lia.
Qed.

Lemma bench1_index_wrapped k i :
  0 <= k <= 32 ->
  bench1_index (u64 (2 ^ k - 1)) i = alias_offset (2 ^ k) i.
Proof.
  intros Hk. unfold bench1_index, alias_offset.
  assert (0 < 2 ^ k) by (apply Z.pow_pos_nonneg; lia).
  assert (2 ^ k <= 2 ^ 32) by (apply Z.pow_le_mono_r; lia).
  rewrite (u64_small (2 ^ k - 1)) by lia.
  change (2 ^ k - 1) with (Z.pred (2 ^ k)). rewrite <- Z.ones_equiv.
  rewrite Z.land_ones by lia.
  unfold u64, wrap. rewrite mod_mod_pow2 by lia.
  unfold s32, swrap. change (32 - 1) with 31.
  assert (2 ^ 31 = 2 ^ (31 - k) * 2 ^ k \/ k = 32) as [H31 | ->].
  { destruct (decide (k = 32)); [now right | left].
    rewrite <- Z.pow_add_r by lia. f_equal. lia. }
  - replace ((i * 16 + 2 ^ 31) mod 2 ^ 32 - 2 ^ 31)
      with ((i * 16 + 2 ^ 31) mod 2 ^ 32 + (- 2 ^ (31 - k)) * 2 ^ k) by lia.
    rewrite Z.mod_add by lia. rewrite mod_mod_pow2 by lia.
    rewrite H31. now rewrite Z.mod_add by lia.
  - rewrite <- (Z.mod_small (2 ^ 31) (2 ^ 32)) at 2 by lia.
    rewrite <- Zminus_mod. f_equal. lia.
Qed.

Lemma bench1_index_exact k i :
  0 <= k < 64 -> 0 <= i < 2 ^ 27 ->
  bench1_index (u64 (2 ^ k - 1)) i = alias_offset (2 ^ k) i.
Proof.
  intros Hk Hi. unfold bench1_index, alias_offset.
  assert (0 < 2 ^ k) by (apply Z.pow_pos_nonneg; lia).
  assert (2 ^ k <= 2 ^ 63) by (apply Z.pow_le_mono_r; lia).
  rewrite (u64_small (2 ^ k - 1)) by lia.
  change (2 ^ k - 1) with (Z.pred (2 ^ k)). rewrite <- Z.ones_equiv.
  rewrite Z.land_ones by lia.
  rewrite s32_small by lia. now rewrite u64_small by lia.
Qed.

Lemma bench1_run fuel k limit (m : mem) :
  0 <= k < 64 ->
  limit < 2 ^ 31 ->
  (Z.to_nat limit < fuel)%nat ->
  2 ^ k <= Z.of_nat (length (cells m)) ->
  bench1 fuel (2 ^ k) limit m =
  Done tt (bump_all (bench1_index (u64 (2 ^ k - 1)) <$> seqZ 0 limit) m).
Proof.
  intros Hk Hc Hfuel Hm. unfold bench1. rewrite <- bind_singleton.
  apply (for_lt_bumps _ _ limit (length (cells m))); try done.
  intros i m0 _ Hm0. apply incr_inside. rewrite Hm0.
  pose proof (bench1_index_range k i Hk). unfold inside. lia.
Qed.

End IncrementFacts.

Section WorkloadResults.
Import Int Mem Workloads.

Lemma occurrences_notin j l : j ∉ l -> occurrences j l = 0.
Proof.
  induction l as [| x l IH]; intros Hj; [done |].
  apply not_elem_of_cons in Hj as [Hne Hj]. cbn.
  destruct (Z.eqb_spec x j); [congruence |]. now rewrite IH.
Qed.

Lemma alias_offsets_length L n : length (alias_offsets L n) = Z.to_nat n.
Proof. unfold alias_offsets. now rewrite length_fmap, length_seqZ. Qed.

Lemma alias_offsets_nonneg L n : 0 < L -> Forall (fun i => 0 <= i) (alias_offsets L n).
Proof.
  intros HL. unfold alias_offsets. apply Forall_fmap, Forall_seqZ.
  intros i _. cbn. unfold alias_offset. apply Z.mod_pos_bound. lia.
Qed.

Lemma bench1_indices k N :
  0 <= k < 64 -> (k <= 32 \/ N <= 2 ^ 27) ->
  bench1_index (u64 (2 ^ k - 1)) <$> seqZ 0 N = alias_offsets (2 ^ k) N.
Proof.
  intros Hk Hrange. unfold alias_offsets. apply list_eq. intros j.
  rewrite !list_lookup_fmap.
  destruct (seqZ 0 N !! j) as [i |] eqn:E; [| done]. cbn. f_equal.
  apply lookup_seqZ in E as [-> Hj].
  destruct Hrange as [H32 | H27].
  - apply bench1_index_wrapped. lia.
  - apply bench1_index_exact; lia.
Qed.

(** C5, as the code does it. When the length L = 2^k is at most 2^32
    or the number of passes N is at most 2^27: on a zero-initialised
    buffer of at least L elements, the aliasing workload with N passes
    touches the offsets (i*16) mod L for i = 0, ..., N-1 in this order;
    afterwards the element at each offset j holds the number of passes i
    with (i*16) mod L = j, and the offsets no pass lands on are still
    zero. The [int] product i*16 is exact for N <= 2^27, and its
    wrap-around is invisible for L <= 2^32. *)
Theorem bench1_aliasing_counts (k N : Z) (n fuel : nat) :
  0 <= k < 64 ->
  N < 2 ^ 31 ->
  (k <= 32 \/ N <= 2 ^ 27) ->
  2 ^ k <= Z.of_nat n ->
  (Z.to_nat N < fuel)%nat ->
  exists m',
    bench1 fuel (2 ^ k) N (mk_mem (replicate n 0) []) = Done tt m'
    /\ writes (log m') = alias_offsets (2 ^ k) N
    /\ (forall j, (j < n)%nat ->
          cells m' !! j = Some (occurrences (Z.of_nat j) (alias_offsets (2 ^ k) N)))
    /\ (forall j, (j < n)%nat -> Z.of_nat j ∉ alias_offsets (2 ^ k) N ->
          cells m' !! j = Some 0).
Proof.
  intros Hk HN Hrange Hn Hfuel.
  assert (0 < 2 ^ k) as Hpos by (apply Z.pow_pos_nonneg; lia).
  eexists. split.
  { apply bench1_run; try done. cbn. now rewrite length_replicate. }
  rewrite (bench1_indices k N Hk Hrange).
  assert (forall j, (j < n)%nat ->
            cells (bump_all (alias_offsets (2 ^ k) N) (mk_mem (replicate n 0) [])) !! j
            = Some (occurrences (Z.of_nat j) (alias_offsets (2 ^ k) N))) as Hcells.
  { intros j Hj. rewrite bump_all_lookup by now apply alias_offsets_nonneg.
    cbn [cells]. rewrite lookup_replicate_2 by done. cbn. f_equal.
    apply bumped_zero. split; [apply occurrences_nonneg |].
    pose proof (occurrences_le_length (Z.of_nat j) (alias_offsets (2 ^ k) N)) as Hle.
    rewrite alias_offsets_length in Hle. lia. }
  split; [| split].
  - rewrite bump_all_log. cbn [log app]. apply writes_rmw.
  - exact Hcells.
  - intros j Hj Hnotin. rewrite (Hcells j Hj). f_equal.
    now apply occurrences_notin.
Qed.

Lemma bench1_aliasing_counts_witness :
  exists m',
    bench1 10 32 5 (mk_mem (replicate 32 0) []) = Done tt m'
    /\ writes (log m') = [0; 16; 0; 16; 0]
    /\ (forall j, (j < 32)%nat ->
          cells m' !! j = Some (occurrences (Z.of_nat j) [0; 16; 0; 16; 0]))
    /\ (forall j, (j < 32)%nat -> Z.of_nat j ∉ [0; 16; 0; 16; 0] ->
          cells m' !! j = Some 0).
Proof.
  apply (bench1_aliasing_counts 5 5 32 10); [lia | lia | lia | cbn; lia | lia].
Defined.

(** The offset the aliasing workload touches in pass [i], whatever the
    length and the number of passes. *)
Lemma bench1_offset_at (k N : Z) (n fuel i : nat) :
  0 <= k < 64 ->
  N < 2 ^ 31 ->
  2 ^ k <= Z.of_nat n ->
  (Z.to_nat N < fuel)%nat ->
  Z.of_nat i < N ->
  exists m',
    bench1 fuel (2 ^ k) N (mk_mem (replicate n 0) []) = Done tt m'
    /\ writes (log m') !! i = Some (bench1_index (u64 (2 ^ k - 1)) (Z.of_nat i)).
Proof.
  intros Hk HN Hn Hfuel Hi. eexists. split.
  { apply bench1_run; try done. cbn. now rewrite length_replicate. }
  rewrite bump_all_log. cbn [log app]. rewrite writes_rmw.
  rewrite list_lookup_fmap, lookup_seqZ_lt by lia. reflexivity.
Qed.

(** C5, as stated: with L = 2^33 elements and 2^27 + 1 passes the
    offsets touched are not (i*16) mod L for i = 0, ..., 2^27. In pass
    i = 2^27 the [int] product i*16 wraps to -2^31; converted to [size_t]
    and masked it gives offset 6442450944, where (i*16) mod L is
    2147483648. *)
Lemma bench1_offsets_wrap_with_the_int_product :
  ~ (exists m',
       bench1 (S (Z.to_nat (2 ^ 27 + 1))) (2 ^ 33) (2 ^ 27 + 1)
         (mk_mem (replicate (Z.to_nat (2 ^ 33)) 0) []) = Done tt m'
       /\ writes (log m') = alias_offsets (2 ^ 33) (2 ^ 27 + 1)).
Proof.
  intros (m' & Hrun & Hwrites).
  destruct (bench1_offset_at 33 (2 ^ 27 + 1) (Z.to_nat (2 ^ 33))
              (S (Z.to_nat (2 ^ 27 + 1))) (Z.to_nat (2 ^ 27)))
    as (m'' & Hrun' & Hoffset); [lia.. |].
  rewrite Hrun in Hrun'. assert (m'' = m') as -> by congruence.
  rewrite Hwrites in Hoffset. unfold alias_offsets in Hoffset.
  rewrite list_lookup_fmap, lookup_seqZ_lt, Z2Nat.id in Hoffset by lia.
  vm_compute in Hoffset. discriminate Hoffset.
Qed.

Lemma increments_lookup (c : list Z) (N : Z) (n j : nat) :
  Forall (fun i => 0 <= i) c ->
  0 <= N -> occurrences (Z.of_nat j) c * N < 2 ^ 32 ->
  (j < n)%nat ->
  cells (bump_all (seqZ 0 N ≫= fun _ => c) (mk_mem (replicate n 0) [])) !! j
  = Some (occurrences (Z.of_nat j) c * N).
Proof.
  intros Hc HN Hbound Hj.
  rewrite bump_all_lookup by now apply Forall_bind_const.
  cbn [cells]. rewrite lookup_replicate_2 by done. cbn. f_equal.
  rewrite occurrences_bind_const, length_seqZ, Z2Nat.id by lia.
  apply bumped_zero. pose proof (occurrences_nonneg (Z.of_nat j) c). nia.
Qed.

(** C6. With an iteration count N, the dependent-increment workload
    ([bench2]) leaves element 0 of a zero-initialised buffer at 2N and every
    other element at zero; the independent-increment workload ([bench3])
    leaves elements 0 and 1 at N and every other element at zero. *)
Theorem increment_workloads_final_values (N : Z) (fuel : nat) :
  0 <= N < 2 ^ 31 ->
  (Z.to_nat N < fuel)%nat ->
  (forall n, (1 <= n)%nat ->
     exists m', bench2 fuel N (mk_mem (replicate n 0) []) = Done tt m'
                /\ cells m' = 2 * N :: replicate (n - 1) 0)
  /\ (forall n, (2 <= n)%nat ->
        exists m', bench3 fuel N (mk_mem (replicate n 0) []) = Done tt m'
                   /\ cells m' = N :: N :: replicate (n - 2) 0).
Proof.
  intros HN Hfuel. split; intros n Hn; eexists; split.
  - apply bench2_run; [lia | done | cbn; rewrite length_replicate; lia].
  - apply list_eq. intros j. destruct (decide (j < n)%nat) as [Hj | Hj].
    + assert (Forall (fun i => 0 <= i) [0; 0]) as Hc by (repeat constructor; lia).
      assert (occurrences (Z.of_nat j) [0; 0] = if decide (j = 0)%nat then 2 else 0)
        as Hocc.
      { cbn [occurrences]. repeat case_decide; repeat case_match. all: lia. }
      rewrite (increments_lookup [0; 0] N n j Hc (proj1 HN)); [| | done].
      * rewrite Hocc. destruct j as [| j]; [reflexivity |].
        case_decide; [lia |].
        change ((2 * N :: replicate (n - 1) 0) !! S j)
          with (replicate (n - 1) 0 !! j).
        now rewrite lookup_replicate_2 by lia.
      * rewrite Hocc. case_decide; lia.
    + rewrite !lookup_ge_None_2; [done | |].
      * cbn. rewrite length_replicate. lia.
      * rewrite bump_all_length. cbn. rewrite length_replicate. lia.
  - apply bench3_run; [lia | done | cbn; rewrite length_replicate; lia].
  - apply list_eq. intros j. destruct (decide (j < n)%nat) as [Hj | Hj].
    + assert (Forall (fun i => 0 <= i) [0; 1]) as Hc by (repeat constructor; lia).
      assert (occurrences (Z.of_nat j) [0; 1] = if decide (j < 2)%nat then 1 else 0)
        as Hocc.
      { cbn [occurrences]. repeat case_decide; repeat case_match. all: lia. }
      rewrite (increments_lookup [0; 1] N n j Hc (proj1 HN)); [| | done].
      * rewrite Hocc.
        destruct j as [| [| j]];
          [case_decide; [cbn -[Z.mul]; f_equal; lia | lia].. |].
        case_decide; [lia |].
        change ((N :: N :: replicate (n - 2) 0) !! S (S j))
          with (replicate (n - 2) 0 !! j).
        now rewrite lookup_replicate_2 by lia.
      * rewrite Hocc. case_decide; lia.
    + rewrite !lookup_ge_None_2; [done | |].
      * cbn. rewrite length_replicate. lia.
      * rewrite bump_all_length. cbn. rewrite length_replicate. lia.
Qed.

Lemma increment_workloads_final_values_witness :
  (exists m', bench2 8 5 (mk_mem [0; 0; 0] []) = Done tt m'
              /\ cells m' = [10; 0; 0])
  /\ (exists m', bench3 8 5 (mk_mem [0; 0; 0] []) = Done tt m'
                 /\ cells m' = [5; 5; 0]).
Proof.
  destruct (increment_workloads_final_values 5 8) as [H2 H3]; [lia | lia |].
  split; [apply (H2 3%nat); lia | apply (H3 3%nat); lia].
Defined.

End WorkloadResults.

(** ** The strided scan *)

Section StridedFacts.
Import Int Mem Workloads.

Lemma triple_inside m i :
  inside (length (cells m)) i ->
  triple i m =
  Done tt (mk_mem (alter (fun x => u32 (x * 3)) (Z.to_nat i) (cells m))
             (log m ++ [Read i; Write i])).
Proof. intros Hi. unfold triple. now rewrite update_inside. Qed.

(** Between two multiples of [step] no index is a multiple of [step]. *)
Lemma between_multiples i j step :
  0 < step -> i mod step = 0 -> i < j < i + step -> j mod step <> 0.
Proof.
  intros Hs Hi Hj.
  replace j with ((j - i) + (i / step) * step).
  - rewrite Z.mod_add by lia. rewrite Z.mod_small; lia.
  - pose proof (Z.div_mod i step ltac:(lia)). lia.
Qed.

Lemma strided_from_at i count step x :
  0 <= i < count -> i mod step = 0 ->
  strided_from i count step (Z.to_nat i) x = u32 (x * 3).
Proof.
  intros Hi Hm. unfold strided_from. rewrite Z2Nat.id by lia.
  destruct (Z.leb_spec i i); [| lia].
  destruct (Z.ltb_spec i count); [| lia].
  now rewrite Hm.
Qed.

Lemma strided_from_before i count step j x :
  Z.of_nat j < i -> strided_from i count step j x = x.
Proof.
  intros Hj. unfold strided_from.
  destruct (Z.leb_spec i (Z.of_nat j)); [lia | done].
Qed.

Lemma strided_from_done i count step j x :
  count <= i -> strided_from i count step j x = x.
Proof.
  intros Hc. unfold strided_from.
  destruct (Z.leb_spec i (Z.of_nat j)); [| done].
  destruct (Z.ltb_spec (Z.of_nat j) count); [lia | done].
Qed.

Lemma strided_from_next i count step j x :
  0 < step -> i mod step = 0 -> Z.of_nat j <> i ->
  strided_from (i + step) count step j x = strided_from i count step j x.
Proof.
  intros Hs Hi Hj. unfold strided_from.
  destruct (Z.leb_spec (i + step) (Z.of_nat j)) as [H1 | H1];
    destruct (Z.leb_spec i (Z.of_nat j)) as [H2 | H2]; try lia; try done.
  cbn. destruct (Z.ltb_spec (Z.of_nat j) count); [| done]. cbn.
  destruct (Z.eqb_spec (Z.of_nat j mod step) 0) as [E | E]; [| done].
  exfalso. apply (between_multiples i (Z.of_nat j) step); [done.. | lia | done].
Qed.

Lemma strided_from_last i count step j x :
  0 < step -> i mod step = 0 -> Z.of_nat j <> i -> count <= i + step ->
  strided_from i count step j x = x.
Proof.
  intros Hs Hi Hj Hc.
  rewrite <- (strided_from_next i count step j x) by done.
  apply strided_from_done. lia.
Qed.

(** Tripling element [i] and scanning on from [i + step] is scanning
    from [i]. *)
Lemma imap_strided_step i count step (l : list Z) :
  0 < step -> 0 <= i < count -> i mod step = 0 ->
  imap (strided_from (i + step) count step)
    (alter (fun x => u32 (x * 3)) (Z.to_nat i) l)
  = imap (strided_from i count step) l.
Proof.
  intros Hs Hi Hm. apply list_eq. intros j. rewrite !list_lookup_imap.
  destruct (decide (Z.to_nat i = j)) as [<- | Hne].
  - rewrite list_lookup_alter_eq. destruct (l !! Z.to_nat i) as [x |]; [| done].
    cbn. f_equal. rewrite strided_from_before by lia.
    now rewrite strided_from_at.
  - rewrite list_lookup_alter_ne by done.
    destruct (l !! j) as [x |]; [| done]. cbn. f_equal.
    apply strided_from_next; [done.. | lia].
Qed.

Lemma imap_strided_done i count step (l : list Z) :
  count <= i -> imap (strided_from i count step) l = l.
Proof.
  intros Hc. apply list_eq. intros j. rewrite list_lookup_imap.
  destruct (l !! j) as [x |]; [| done]. cbn. f_equal.
  now apply strided_from_done.
Qed.

Lemma bench_loop_run count step :
  1 <= step < 2 ^ 31 ->
  0 <= count <= 2 ^ 31 ->
  forall fuel i m,
    0 <= i < 2 ^ 31 ->
    i mod step = 0 ->
    count <= Z.of_nat (length (cells m)) ->
    (Z.to_nat (count - i) < fuel)%nat ->
    exists idxs,
      bench_loop fuel count step i m =
      Done tt (mk_mem (imap (strided_from i count step) (cells m))
                 (log m ++ rmw idxs))
      /\ Forall (fun j => 0 <= j < count) idxs.
Proof.
  intros Hstep Hcount. induction fuel as [| fuel IH]; intros i m Hi Hmod Hlen Hfuel.
  - lia.
  - cbn [bench_loop]. rewrite (u64_small i) by lia.
    destruct (Z.ltb_spec i count) as [Hlt | Hge].
    + unfold bind. rewrite triple_inside by (unfold inside; lia). cbv beta iota.
      destruct (Z_lt_le_dec (i + step) (2 ^ 31)) as [Hfit | Hwrap].
      * rewrite s32_small by lia.
        destruct (IH (i + step)
                    (mk_mem (alter (fun x => u32 (x * 3)) (Z.to_nat i) (cells m))
                       (log m ++ [Read i; Write i])))
          as (idxs & Hrun & Hin).
        { lia. }
        { rewrite <- Zplus_mod_idemp_l, Hmod, Z.add_0_l. apply Z_mod_same_full. }
        { cbn. rewrite length_alter. lia. }
        { lia. }
        exists (i :: idxs). split.
        -- rewrite Hrun. cbn [cells log]. f_equal. f_equal.
           ++ apply imap_strided_step; lia.
           ++ now rewrite <- app_assoc.
        -- constructor; [lia | done].
      * rewrite s32_overflow by lia.
        destruct fuel as [| fuel]; [lia |]. cbn [bench_loop].
        rewrite u64_negative by lia.
        destruct (Z.ltb_spec (i + step - 2 ^ 32 + 2 ^ 64) count) as [? | _]; [lia |].
        exists [i]. split.
        -- unfold ret. f_equal. f_equal.
           rewrite <- (imap_strided_step i count step) by lia.
           symmetry. apply imap_strided_done. lia.
        -- constructor; [lia | constructor].
    + exists []. split; [| constructor].
      unfold ret. f_equal. rewrite imap_strided_done by lia.
      cbn. rewrite app_nil_r. now destruct m.
Qed.

Lemma strided_from_zero count step j x :
  strided_from 0 count step j x = strided count step j x.
Proof.
  unfold strided_from, strided.
  destruct (Z.leb_spec 0 (Z.of_nat j)); [done | lia].
Qed.

Lemma bench_run fuel length step (m : mem) :
  0 <= length ->
  1 <= step < 2 ^ 31 ->
  length / 4 <= 2 ^ 31 ->
  length / 4 <= Z.of_nat (List.length (cells m)) ->
  (Z.to_nat (length / 4) < fuel)%nat ->
  exists idxs,
    bench fuel length step m =
    Done tt (mk_mem (imap (strided (length / 4) step) (cells m))
               (log m ++ rmw idxs))
    /\ Forall (fun j => 0 <= j < length / 4) idxs.
Proof.
  intros Hlen Hstep Hcount Hbuf Hfuel. unfold bench.
  change (u8 (ffs sizeof_uint32_t - 1)) with 2.
  rewrite Z.shiftr_div_pow2 by lia. change (2 ^ 2) with 4.
  assert (0 <= length / 4) by (apply Z.div_pos; lia).
  destruct (bench_loop_run (length / 4) step Hstep ltac:(lia) fuel 0 m)
    as (idxs & Hrun & Hin);
    [lia | apply Z.mod_0_l; lia | lia | rewrite Z.sub_0_r; lia |].
  exists idxs. split; [| done]. rewrite Hrun. f_equal. f_equal.
  apply imap_ext. intros j x _. apply strided_from_zero.
Qed.

(** C7, as the code does it. For every buffer whose element count
    [length / 4] is at most 2^31, the reach of the scan's [int] index, and
    every positive step (the powers of two among them), the strided scan
    over [length] bytes multiplies by 3 exactly the elements at the
    multiples of [step] below the element count and leaves every other
    element as it was. *)
Theorem bench_strided_scan (buf : list Z) (length step : Z) (fuel : nat) :
  0 <= length ->
  1 <= step < 2 ^ 31 ->
  length / 4 <= 2 ^ 31 ->
  length / 4 <= Z.of_nat (List.length buf) ->
  (Z.to_nat (length / 4) < fuel)%nat ->
  exists m',
    bench fuel length step (mk_mem buf []) = Done tt m'
    /\ cells m' = imap (strided (length / 4) step) buf.
Proof.
  intros Hlen Hstep Hcount Hbuf Hfuel.
  destruct (bench_run fuel length step (mk_mem buf []))
    as (idxs & Hrun & _); try done.
  eexists. split; [exact Hrun | reflexivity].
Qed.

Lemma bench_strided_scan_witness :
  exists m',
    bench 10 30 2 (mk_mem [1; 2; 3; 4; 5; 6; 7; 8] []) = Done tt m'
    /\ cells m' = [3; 2; 9; 4; 15; 6; 21; 8].
Proof.
  apply (bench_strided_scan [1; 2; 3; 4; 5; 6; 7; 8] 30 2 10);
    [lia | lia | change (30 / 4) with 7; cbn [List.length]; lia..].
Defined.

Lemma strided_at count step (j : nat) x :
  Z.of_nat j < count -> Z.of_nat j mod step = 0 ->
  strided count step j x = u32 (x * 3).
Proof.
  intros Hj Hmod. unfold strided. rewrite Hmod.
  destruct (Z.ltb_spec (Z.of_nat j) count); [reflexivity | lia].
Qed.

(** A scan whose second index, twice the step, no longer fits an [int]:
    the index wraps to a negative number, as a [size_t] it is past the
    element count, and the scan stops after indices 0 and [step]. Every
    other element keeps its value. *)
Lemma bench_wrapped_scan (length step : Z) (buf : list Z) (j : nat) (x : Z) :
  0 <= length ->
  0 < step < 2 ^ 31 ->
  2 ^ 31 <= step + step ->
  step < length / 4 < 2 ^ 63 ->
  length / 4 <= Z.of_nat (List.length buf) ->
  buf !! j = Some x ->
  Z.of_nat j <> 0 -> Z.of_nat j <> step ->
  exists m',
    bench 3 length step (mk_mem buf []) = Done tt m'
    /\ cells m' !! j = Some x.
Proof.
  intros Hlen Hstep Hwrap Hcount Hbuf Hj H0 Hs. unfold bench.
  change (u8 (ffs sizeof_uint32_t - 1)) with 2.
  rewrite Z.shiftr_div_pow2 by lia. change (2 ^ 2) with 4.
  set (count := length / 4) in *.
  eexists. split.
  - cbn [bench_loop]. rewrite (u64_small 0) by lia.
    destruct (Z.ltb_spec 0 count) as [_ | ?]; [| lia].
    unfold bind at 1. rewrite triple_inside by (unfold inside; cbn [cells]; lia).
    cbv beta iota. rewrite Z.add_0_l, s32_small, (u64_small step) by lia.
    destruct (Z.ltb_spec step count) as [_ | ?]; [| lia].
    unfold bind at 1.
    rewrite triple_inside
      by (unfold inside; cbn [cells]; rewrite length_alter; lia).
    cbv beta iota. rewrite s32_overflow, u64_negative by lia.
    destruct (Z.ltb_spec (step + step - 2 ^ 32 + 2 ^ 64) count) as [? | _]; [lia |].
    reflexivity.
  - cbn [cells]. now rewrite !list_lookup_alter_ne by lia.
Qed.

(** C7, as stated: a scan with step 2^30 over a buffer of 2^31 + 1
    elements (8 GiB and 4 bytes) does not triple every element at a
    multiple of the step below the element count. It stops after indices
    0 and 2^30, where the [int] index wraps, and element 2^31 keeps its
    value. *)
Lemma bench_stops_where_the_int_index_wraps :
  ~ (exists m',
       bench 3 (2 ^ 33 + 4) (2 ^ 30)
         (mk_mem (replicate (Z.to_nat (2 ^ 31 + 1)) 1) []) = Done tt m'
       /\ cells m'
          = imap (strided ((2 ^ 33 + 4) / 4) (2 ^ 30))
              (replicate (Z.to_nat (2 ^ 31 + 1)) 1)).
Proof.
  intros (m' & Hrun & Hcells).
  destruct (bench_wrapped_scan (2 ^ 33 + 4) (2 ^ 30)
              (replicate (Z.to_nat (2 ^ 31 + 1)) 1) (Z.to_nat (2 ^ 31)) 1)
    as (m'' & Hrun' & Hkept);
    [lia | lia | lia
    | change ((2 ^ 33 + 4) / 4) with (2 ^ 31 + 1); lia
    | change ((2 ^ 33 + 4) / 4) with (2 ^ 31 + 1); rewrite length_replicate; lia
    | apply lookup_replicate_2; lia
    | lia | lia |].
  rewrite Hrun in Hrun'. assert (m'' = m') as -> by congruence.
  rewrite Hcells, list_lookup_imap, lookup_replicate_2 in Hkept by lia.
  cbn [fmap option_fmap option_map] in Hkept.
  rewrite strided_at in Hkept
    by (rewrite Z2Nat.id by lia;
        first [reflexivity | change ((2 ^ 33 + 4) / 4) with (2 ^ 31 + 1); lia]).
  change (u32 (1 * 3)) with 3 in Hkept. discriminate Hkept.
Qed.

End StridedFacts.

(** ** Memory safety of the workloads *)

Section SafetyFacts.
Import Int Mem Workloads.
Import Driver (workload, Bench, Bench1, Bench2, Bench3, workload_run, reach,
  passes, well_called).

Lemma Forall_rmw (Q : Z -> Prop) l :
  Forall Q l -> Forall (fun a => Q (offset_of a)) (rmw l).
Proof.
  induction 1 as [| i l Hi Hl IH]; [constructor |].
  cbn. constructor; [done |]. constructor; done.
Qed.

(** C10. A workload called the way the driver calls it (a positive step
    and an element count within the buffer for the strided scan, a
    power-of-two length L >= 1 within the buffer for the aliasing
    workload, a buffer of at least two elements for the increment
    workloads) runs to completion without leaving the buffer: every access
    is at an index below the element count, below L, or at 0 or 1
    respectively. *)
Theorem workloads_stay_in_bounds (w : workload) (buf : list Z) (fuel : nat) :
  well_called w (length buf) ->
  (Z.to_nat (passes w) < fuel)%nat ->
  exists m',
    workload_run w fuel (mk_mem buf []) = Done tt m'
    /\ Forall (fun a => 0 <= offset_of a < reach w) (log m')
    /\ Forall (fun a => inside (length buf) (offset_of a)) (log m').
Proof.
  intros Hcall Hfuel.
  assert (forall idxs m',
            Forall (fun j => 0 <= j < reach w) idxs ->
            reach w <= Z.of_nat (length buf) ->
            log m' = rmw idxs ->
            Forall (fun a => 0 <= offset_of a < reach w) (log m')
            /\ Forall (fun a => inside (length buf) (offset_of a)) (log m'))
    as Hlog.
  { intros idxs m' Hin Hreach ->. split.
    - now apply (Forall_rmw (fun j => 0 <= j < reach w)).
    - apply (Forall_rmw (inside (length buf))).
      eapply Forall_impl; [| exact Hin]. unfold inside. cbn. lia. }
  destruct w as [len step | len limit | count | count];
    cbn [well_called passes reach workload_run] in Hcall, Hfuel, Hlog |- *.
  - destruct Hcall as (Hlen & Hstep & Hreach & Hbuf).
    destruct (bench_run fuel len step (mk_mem buf [])) as (idxs & Hrun & Hin);
      try done.
    eexists. split; [exact Hrun |]. now apply (Hlog idxs).
  - destruct Hcall as ((k & Hk & ->) & Hlimit & Hbuf).
    eexists. split; [now apply bench1_run |].
    apply (Hlog (bench1_index (u64 (2 ^ k - 1)) <$> seqZ 0 limit)).
    + apply Forall_fmap, Forall_seqZ. intros i _. cbn.
      now apply bench1_index_range.
    + done.
    + now rewrite bump_all_log.
  - destruct Hcall as (Hcount & Hbuf).
    eexists. split; [apply bench2_run; [done | done | cbn; lia] |].
    apply (Hlog (seqZ 0 count ≫= fun _ => [0; 0])).
    + apply Forall_bind_const. repeat constructor; lia.
    + lia.
    + now rewrite bump_all_log.
  - destruct Hcall as (Hcount & Hbuf).
    eexists. split; [apply bench3_run; [done | done | cbn; lia] |].
    apply (Hlog (seqZ 0 count ≫= fun _ => [0; 1])).
    + apply Forall_bind_const. repeat constructor; lia.
    + lia.
    + now rewrite bump_all_log.
Qed.

Lemma workloads_stay_in_bounds_witness :
  exists m',
    workload_run (Bench1 4 5) 10 (mk_mem [7; 7; 7; 7] []) = Done tt m'
    /\ Forall (fun a => 0 <= offset_of a < 4) (log m')
    /\ Forall (fun a => inside 4 (offset_of a)) (log m').
Proof.
  apply (workloads_stay_in_bounds (Bench1 4 5) [7; 7; 7; 7] 10).
  - cbn. split; [exists 2; split; [lia | reflexivity] | lia].
  - cbn. lia.
Defined.

End SafetyFacts.

(** ** The pre-faulting loop *)

Section PrefaultFacts.
Import Int Mem Prefault.

Lemma pages_small page_size size :
  0 < size -> size < page_size -> pages page_size size = 1.
Proof.
  intros H0 H1. unfold pages. symmetry.
  apply (Z.div_unique _ _ 1 (size - 1)); lia.
Qed.

Lemma pages_one page_size : 0 < page_size -> pages page_size page_size = 1.
Proof.
  intros H0. unfold pages. symmetry.
  apply (Z.div_unique _ _ 1 (page_size - 1)); lia.
Qed.

Lemma pages_next page_size size :
  0 < page_size -> page_size <= size ->
  pages page_size size = 1 + pages page_size (size - page_size).
Proof.
  intros H0 H1. unfold pages.
  replace (size + page_size - 1) with ((size - page_size + page_size - 1) + 1 * page_size)
    by lia.
  rewrite Z.div_add by lia. lia.
Qed.

Lemma pages_pos page_size size :
  0 < page_size -> 0 < size -> 0 < pages page_size size.
Proof.
  intros H0 H1. unfold pages.
  apply Z.div_str_pos. lia.
Qed.

(** One pass: the byte at [i] is read and written back, the line at the
    start of the region is invalidated. *)
Lemma pass_run i (m : mem) (k : M unit) :
  inside (length (cells m)) i ->
  (x <- load (buf + i) ;; store (buf + i) x ;; clflush buf ;; k) m
  = k (mk_mem (cells m) (log m ++ pass i)).
Proof.
  intros Hi. destruct (lookup_inside _ _ Hi) as [v Hv].
  destruct Hi as [Hi _]. change (buf + i) with i. unfold bind.
  rewrite (load_inside m i v Hi Hv). cbv beta iota.
  rewrite (store_inside (record (Read i) m) i v v Hi Hv). cbv beta iota.
  unfold clflush, record. cbn [cells log].
  rewrite list_insert_id by done. unfold pass.
  now rewrite <- !app_assoc.
Qed.

Lemma prefault_loop_run page_size :
  0 < page_size ->
  forall fuel i size (m : mem),
    0 <= i -> 0 < size ->
    i + size <= Z.of_nat (length (cells m)) ->
    i + size < 2 ^ 63 ->
    (Z.to_nat (size / page_size) < fuel)%nat ->
    prefault_loop fuel page_size i size m =
    Done tt (mk_mem (cells m)
               (log m ++
                (page_offsets page_size (Z.to_nat (pages page_size size)) i ≫= pass))).
Proof.
  intros Hps. induction fuel as [| fuel IH]; intros i size m Hi Hsize Hlen Hmax Hfuel.
  - lia.
  - cbn [prefault_loop]. rewrite pass_run by (unfold inside; lia).
    destruct (Z.ltb_spec size page_size) as [Hlt | Hge].
    + rewrite pages_small by lia. reflexivity.
    + rewrite u64_small by lia. rewrite s64_small by lia.
      destruct (Z.eqb_spec (size - page_size) 0) as [E | E]; cbn [negb].
      * replace size with page_size by lia. rewrite pages_one by lia. reflexivity.
      * assert (size / page_size = 1 + (size - page_size) / page_size) as Hq.
        { replace size with ((size - page_size) + 1 * page_size) at 1 by lia.
          rewrite Z.div_add by lia. lia. }
        assert (0 <= (size - page_size) / page_size) by (apply Z.div_pos; lia).
        rewrite IH; cbn [cells log]; try lia.
        rewrite (pages_next page_size size) by lia.
        pose proof (pages_pos page_size (size - page_size) Hps ltac:(lia)) as Hp.
        rewrite Z2Nat.inj_add by lia. change (Z.to_nat 1) with 1%nat.
        cbn [Nat.add page_offsets]. 
        change ((i :: ?l) ≫= pass) with (pass i ++ (l ≫= pass)).
        now rewrite <- app_assoc.
Qed.

Lemma writes_passes l : writes (l ≫= pass) = l.
Proof. induction l as [| i l IH]; [done |]. cbn. now f_equal. Qed.

Lemma flushes_passes l : flushes (l ≫= pass) = replicate (length l) buf.
Proof. induction l as [| i l IH]; [done |]. cbn. now f_equal. Qed.

Lemma page_offsets_length page_size n i :
  length (page_offsets page_size n i) = n.
Proof. revert i. induction n as [| n IH]; intros i; cbn; [done | now rewrite IH]. Qed.

Lemma page_offsets_lookup page_size n i (q : nat) :
  (q < n)%nat ->
  page_offsets page_size n i !! q = Some (i + Z.of_nat q * page_size).
Proof.
  revert i q. induction n as [| n IH]; intros i q Hq; [lia |].
  destruct q as [| q]; cbn [page_offsets].
  - cbn. f_equal. lia.
  - change ((i :: ?l) !! S q) with (l !! q). rewrite IH by lia. f_equal. lia.
Qed.

Lemma prefault_run fuel page_size size (bytes : list Z) :
  0 < page_size ->
  0 < size ->
  size <= Z.of_nat (length bytes) ->
  size < 2 ^ 63 ->
  (Z.to_nat (size / page_size) < fuel)%nat ->
  prefault fuel page_size size (mk_mem bytes []) =
  Done tt (mk_mem bytes
             (page_offsets page_size (Z.to_nat (pages page_size size)) 0 ≫= pass)).
Proof.
  intros Hps Hsize Hlen Hmax Hfuel. unfold prefault.
  rewrite (prefault_loop_run page_size Hps); cbn [cells log]; try lia.
  reflexivity.
Qed.

(** Every page of the region is written once, in address order. *)
Lemma prefault_writes_every_page fuel page_size size (bytes : list Z) :
  0 < page_size ->
  0 < size ->
  size <= Z.of_nat (length bytes) ->
  size < 2 ^ 63 ->
  (Z.to_nat (size / page_size) < fuel)%nat ->
  exists m',
    prefault fuel page_size size (mk_mem bytes []) = Done tt m'
    /\ forall p, 0 <= p -> p * page_size < size ->
         writes (log m') !! Z.to_nat p = Some (p * page_size).
Proof.
  intros Hps Hsize Hlen Hmax Hfuel. eexists. split; [now apply prefault_run |].
  intros p Hp Hin. cbn [log]. rewrite writes_passes.
  assert (p + 1 <= pages page_size size) as Hpages.
  { unfold pages. apply Z.div_le_lower_bound; lia. }
  rewrite page_offsets_lookup by lia.
  f_equal. lia.
Qed.

(** Every invalidation is of the line at the start of the region. *)
Lemma prefault_flushes_base fuel page_size size (bytes : list Z) :
  0 < page_size ->
  0 < size ->
  size <= Z.of_nat (length bytes) ->
  size < 2 ^ 63 ->
  (Z.to_nat (size / page_size) < fuel)%nat ->
  exists m',
    prefault fuel page_size size (mk_mem bytes []) = Done tt m'
    /\ flushes (log m') = replicate (Z.to_nat (pages page_size size)) 0.
Proof.
  intros Hps Hsize Hlen Hmax Hfuel. eexists. split; [now apply prefault_run |].
  cbn [log]. now rewrite flushes_passes, page_offsets_length.
Qed.

(** C9. The pre-faulting loop stores back in each page the byte it has
    just read there: it runs to completion and the buffer holds afterwards
    the values it held before. *)
Theorem prefault_preserves_contents
    (page_size size : Z) (bytes : list Z) (fuel : nat) :
  0 < page_size ->
  0 < size ->
  size <= Z.of_nat (length bytes) ->
  size < 2 ^ 63 ->
  (Z.to_nat (size / page_size) < fuel)%nat ->
  exists m',
    prefault fuel page_size size (mk_mem bytes []) = Done tt m'
    /\ cells m' = bytes.
Proof.
  intros Hps Hsize Hlen Hmax Hfuel. eexists. split; [now apply prefault_run |].
  reflexivity.
Qed.

Lemma prefault_preserves_contents_witness :
  exists m',
    prefault 4 4 10 (mk_mem [1; 2; 3; 4; 5; 6; 7; 8; 9; 10] []) = Done tt m'
    /\ cells m' = [1; 2; 3; 4; 5; 6; 7; 8; 9; 10].
Proof.
  apply (prefault_preserves_contents 4 10 [1; 2; 3; 4; 5; 6; 7; 8; 9; 10] 4);
    [lia | lia | cbn [length]; lia | lia | change (10 / 4) with 2; lia].
Defined.

(** C1, evaluated. Over a region of two 4096-byte pages the loop writes
    offsets 0 and 4096, one write per page, and invalidates after each
    write the line at offset 0: after the second write the line just
    touched, at offset 4096, is not the one invalidated. *)
Theorem prefault_flushes_region_base :
  exists m',
    prefault 3 4096 8192 (mk_mem (replicate (Z.to_nat 8192) 0) []) = Done tt m'
    /\ writes (log m') = [0; 4096]
    /\ flushes (log m') = [0; 0]
    /\ writes (log m') <> flushes (log m').
Proof.
  eexists. split.
  - apply prefault_run; [lia | lia | rewrite length_replicate; lia | lia |].
    change (8192 / 4096) with 2. lia.
  - cbn [log]. change (Z.to_nat (pages 4096 8192)) with 2%nat.
    repeat split. discriminate.
Qed.

End PrefaultFacts.

(** ** The process: a small logic of runs *)

Section RunFacts.
Import Int Printf Driver.

Lemma map_calls_app l1 l2 : map_calls (l1 ++ l2) = map_calls l1 ++ map_calls l2.
Proof.
  induction l1 as [| e l1 IH]; [done |].
  destruct e as [[] ? | | | |]; cbn; now rewrite ?IH.
Qed.

Lemma unmap_calls_app l1 l2 :
  unmap_calls (l1 ++ l2) = unmap_calls l1 ++ unmap_calls l2.
Proof.
  induction l1 as [| e l1 IH]; [done |].
  destruct e as [[] ? | | | |]; cbn; now rewrite ?IH.
Qed.

Lemma count_app p l1 l2 : count p (l1 ++ l2) = (count p l1 + count p l2)%nat.
Proof. unfold count. now rewrite List.filter_app, length_app. Qed.

Lemma runs_bind {A B} (c : P A) (k : A -> P B) s
    (R1 : A -> proc -> list event -> Prop) (R2 : B -> proc -> list event -> Prop) :
  runs c s R1 ->
  (forall a s1 evs1, R1 a s1 evs1 ->
     runs (k a) s1 (fun b s2 evs2 => R2 b s2 (evs1 ++ evs2))) ->
  runs (bind c k) s R2.
Proof.
  intros (a & s1 & evs1 & Hc & Htr & HR1) Hk.
  destruct (Hk a s1 evs1 HR1) as (b & s2 & evs2 & Hk' & Htr' & HR2).
  exists b, s2, (evs1 ++ evs2). unfold bind. rewrite Hc, Hk'.
  split; [done |]. split; [| done]. now rewrite Htr', Htr, app_assoc.
Qed.

Lemma runs_weaken {A} (c : P A) s (R R' : A -> proc -> list event -> Prop) :
  runs c s R -> (forall a s' evs, R a s' evs -> R' a s' evs) -> runs c s R'.
Proof.
  intros (a & s' & evs & Hc & Htr & HR) Himp. exists a, s', evs. auto.
Qed.

Lemma quiet_bind {A B} (Q1 : A -> Prop) (Q2 : B -> Prop) n1 n2
    (c : P A) (k : A -> P B) :
  quiet Q1 n1 c -> (forall a, Q1 a -> quiet Q2 n2 (k a)) ->
  quiet Q2 (n1 + n2) (bind c k).
Proof.
  intros Hc Hk s. eapply runs_bind; [apply Hc |].
  intros a s1 evs1 (HQ & Hm & Hmaps & Hunmaps & Hn). cbn beta.
  eapply runs_weaken; [apply (Hk a HQ) |].
  intros b s2 evs2 (HQ2 & Hm2 & Hmaps2 & Hunmaps2 & Hn2).
  rewrite map_calls_app, unmap_calls_app, count_app, Hmaps, Hunmaps, Hmaps2,
    Hunmaps2, Hn, Hn2, Hm2, Hm.
  done.
Qed.

Lemma quiet_ret {A} (Q : A -> Prop) (a : A) : Q a -> quiet Q 0 (ret a).
Proof.
  intros HQ s. exists a, s, []. rewrite app_nil_r. done.
Qed.

Lemma quiet_get : quiet (fun _ => True) 0 get.
Proof. intros s. exists s, s, []. rewrite app_nil_r. done. Qed.

Lemma quiet_emit e :
  map_calls [e] = [] -> unmap_calls [e] = [] ->
  quiet (fun _ => True) (count is_report [e]) (emit e).
Proof.
  intros Hm Hu s. eexists tt, _, [e]. split; [reflexivity |]. done.
Qed.


Lemma quiet_emit_report line :
  is_report (Stdout line) = true ->
  quiet (fun _ => True) 1 (emit (Stdout line)).
Proof.
  intros Hrep s. eexists tt, _, [Stdout line]. split; [reflexivity |].
  unfold count. cbn [List.filter]. rewrite Hrep. done.
Qed.

Lemma quiet_die_if str : quiet (fun _ => True) 0 (die_if false str).
Proof. apply quiet_ret. done. Qed.

Section WithOS.

Variable sys : os.
Hypothesis Hok : os_ok sys.

Lemma quiet_getrusage into : quiet (fun code => code = 0) 0 (getrusage sys into).
Proof.
  intros s. destruct Hok as (_ & _ & Hru & _).
  destruct (Hru (now s)) as [ru Eru]. unfold runs, getrusage. rewrite Eru.
  eexists 0, _, [Sys Getrusage true]. split; [reflexivity |]. done.
Qed.

Lemma quiet_gettimeofday :
  quiet (fun r => fst r = 0) 0 (gettimeofday sys).
Proof.
  intros s. destruct Hok as (_ & _ & _ & Htv).
  destruct (Htv (now s)) as [tv Etv]. unfold runs, gettimeofday. rewrite Etv.
  eexists (0, tv), _, [Sys Gettimeofday true]. split; [reflexivity |]. done.
Qed.

Lemma quiet_timediff start : quiet (fun _ => True) 0 (timediff sys start).
Proof.
  unfold timediff.
  apply (quiet_bind (fun r => fst r = 0) _ 0 0); [apply quiet_gettimeofday |].
  intros [code stop] Hcode. cbn in Hcode. subst code.
  apply (quiet_bind (fun _ => True) _ 0 0); [apply quiet_die_if |].
  intros _ _. now apply quiet_ret.
Qed.

Lemma quiet_benchmark_prologue size :
  quiet (fun _ => True) 0 (benchmark_prologue sys size).
Proof.
  unfold benchmark_prologue.
  apply (quiet_bind (fun _ => True) _ 0 0); [now apply quiet_emit |].
  intros _ _.
  apply (quiet_bind (fun code => code = 0) _ 0 0); [apply quiet_getrusage |].
  intros code ->.
  apply (quiet_bind (fun _ => True) _ 0 0); [apply quiet_die_if |].
  intros _ _.
  apply (quiet_bind (fun r => fst r = 0) _ 0 0); [apply quiet_gettimeofday |].
  intros [code start] Hcode. cbn in Hcode. subst code.
  apply (quiet_bind (fun _ => True) _ 0 0); [apply quiet_die_if |].
  intros _ _. now apply quiet_ret.
Qed.

Lemma sprintf_report a1 u a3 a4 a5 a6 a7 :
  sprintf report_format [ArgU a1; ArgS u; ArgU a3; ArgU a4; ArgU a5; ArgU a6; ArgU a7]
  = report_line (u64 a1) u (u64 a3) (u64 a4) (u64 a5) (u64 a6) (u64 a7).
Proof. reflexivity. Qed.

Lemma report_line_is_report value u us a4 a5 a6 a7 :
  is_report (Stdout (report_line value u us a4 a5 a6 a7)) = true.
Proof. reflexivity. Qed.

Lemma quiet_benchmark_epilogue start step :
  quiet (fun _ => True) 1 (benchmark_epilogue sys start step).
Proof.
  unfold benchmark_epilogue.
  apply (quiet_bind (fun _ => True) _ 0 1); [apply quiet_timediff |].
  intros diff _.
  apply (quiet_bind (fun code => code = 0) _ 0 1); [apply quiet_getrusage |].
  intros code ->.
  apply (quiet_bind (fun _ => True) _ 0 1); [apply quiet_die_if |].
  intros _ _. destruct (Prefix.bytes_to_prefix step (Some " "%string)) as [value unit].
  apply (quiet_bind (fun _ => True) _ 0 1); [apply quiet_get |].
  intros s0 _. unfold report_args. rewrite sprintf_report.
  apply quiet_emit_report, report_line_is_report.
Qed.

(** One measurement: prologue, workload, epilogue. *)
Lemma quiet_measurement size w label :
  quiet (fun _ => True) 1 (ilp_step sys size w label).
Proof.
  unfold ilp_step.
  apply (quiet_bind (fun _ => True) _ 0 1); [apply quiet_benchmark_prologue |].
  intros start _.
  apply (quiet_bind (fun _ => True) _ 0 1); [now apply (quiet_emit (Run w)) |].
  intros _ _. apply quiet_benchmark_epilogue.
Qed.

Lemma quiet_stride_step size step :
  quiet (fun _ => True) 1 (stride_step sys size step).
Proof. apply (quiet_measurement size (Bench size (s32 step)) step). Qed.

Lemma mmap_runs size s :
  mmap sys size s =
  Ret true (mk_proc (susage s) (eusage s) (size :: mapped s)
              (trace s ++ [Sys (Mmap size) true])).
Proof.
  destruct Hok as (Hmap & _). unfold mmap. now rewrite Hmap.
Qed.

Lemma munmap_runs size s :
  munmap sys size s =
  Ret 0 (mk_proc (susage s) (eusage s) (remove_one size (mapped s))
           (trace s ++ [Sys (Munmap size) true])).
Proof.
  destruct Hok as (_ & Hunmap & _). unfold munmap. now rewrite Hunmap.
Qed.

(** A region mapped around a body that neither maps nor unmaps. *)
Lemma mapped_around size n (body : P unit) s :
  quiet (fun _ => True) n body ->
  runs (ok <- mmap sys size ;;
        die_if (negb ok) "mmap()" ;;
        body ;;
        code <- munmap sys size ;;
        die_if (code =? -1) "munmap()") s
    (fun _ s' evs =>
       map_calls evs = [size] /\ unmap_calls evs = [size]
       /\ mapped s' = mapped s /\ count is_report evs = n).
Proof.
  intros Hbody.
  destruct (Hbody (mk_proc (susage s) (eusage s) (size :: mapped s)
                     (trace s ++ [Sys (Mmap size) true])))
    as ([] & s1 & evs & Hrun & Htr & _ & Hm & Hmaps & Hunmaps & Hn).
  exists tt, (mk_proc (susage s1) (eusage s1) (remove_one size (mapped s1))
                (trace s1 ++ [Sys (Munmap size) true])),
    ([Sys (Mmap size) true] ++ evs ++ [Sys (Munmap size) true]).
  split; [| split].
  - unfold bind. rewrite mmap_runs. cbn [negb die_if]. unfold ret at 1.
    rewrite Hrun, munmap_runs. reflexivity.
  - cbn [trace]. rewrite Htr. cbn [trace]. now rewrite <- !app_assoc.
  - rewrite !map_calls_app, !unmap_calls_app, !count_app, Hmaps, Hunmaps, Hn.
    cbn [mapped]. rewrite Hm. cbn [mapped remove_one]. rewrite Z.eqb_refl.
    repeat split. cbn. lia.
Qed.

Lemma effect_bind {A B} ms1 us1 f1 n1 (Q1 : A -> Prop) ms2 us2 f2 n2
    ms us f n (Q2 : B -> Prop) (c : P A) (k : A -> P B) :
  effect ms1 us1 f1 n1 Q1 c ->
  (forall a, Q1 a -> effect ms2 us2 f2 n2 Q2 (k a)) ->
  ms = ms1 ++ ms2 -> us = us1 ++ us2 -> (forall l, f l = f2 (f1 l)) ->
  n = (n1 + n2)%nat ->
  effect ms us f n Q2 (bind c k).
Proof.
  intros Hc Hk -> -> Hf -> s. eapply runs_bind; [apply Hc |].
  intros a s1 evs1 (HQ & Hm & Hmaps & Hunmaps & Hn). cbn beta.
  eapply runs_weaken; [apply (Hk a HQ) |].
  intros b s2 evs2 (HQ2 & Hm2 & Hmaps2 & Hunmaps2 & Hn2).
  rewrite map_calls_app, unmap_calls_app, count_app, Hmaps, Hunmaps, Hmaps2,
    Hunmaps2, Hn, Hn2, Hm2, Hm, Hf.
  done.
Qed.

Lemma effect_of_quiet {A} (Q : A -> Prop) n (c : P A) :
  quiet Q n c -> effect [] [] (fun l => l) n Q c.
Proof. intros Hc s. apply Hc. Qed.

Lemma effect_mmap size :
  effect [size] [] (cons size) 0 (fun ok => ok = true) (mmap sys size).
Proof.
  intros s. eexists true, _, [Sys (Mmap size) true].
  split; [apply mmap_runs |]. done.
Qed.

Lemma effect_munmap size :
  effect [] [size] (remove_one size) 0 (fun code => code = 0) (munmap sys size).
Proof.
  intros s. eexists 0, _, [Sys (Munmap size) true].
  split; [apply munmap_runs |]. done.
Qed.

(** A computation that neither maps nor unmaps, then the rest. *)
Lemma effect_after_quiet {A B} (Q1 : A -> Prop) n1 ms us f n2 n (Q2 : B -> Prop)
    (c : P A) (k : A -> P B) :
  quiet Q1 n1 c ->
  (forall a, Q1 a -> effect ms us f n2 Q2 (k a)) ->
  n = (n1 + n2)%nat ->
  effect ms us f n Q2 (bind c k).
Proof.
  intros Hc Hk ->.
  apply (effect_bind [] [] (fun l => l) n1 Q1 ms us f n2);
    [now apply effect_of_quiet | exact Hk | done..].
Qed.

Lemma effect_unmap_or_die size :
  effect [] [size] (remove_one size) 0 (fun _ => True)
    (code <- munmap sys size ;; die_if (code =? -1) "munmap()").
Proof.
  apply (effect_bind [] [size] (remove_one size) 0 (fun code => code = 0)
           [] [] (fun l => l) 0);
    [apply effect_munmap | | done..].
  intros code ->. apply effect_of_quiet, quiet_die_if.
Qed.

(** A region mapped for the duration of a body that neither maps nor
    unmaps: [rest] is the body followed by the unmapping. *)
Lemma effect_mapped_around size n (rest : P unit) :
  effect [] [size] (remove_one size) n (fun _ => True) rest ->
  effect [size] [size] (fun l => l) n (fun _ => True)
    (ok <- mmap sys size ;; die_if (negb ok) "mmap()" ;; rest).
Proof.
  intros Hrest.
  apply (effect_bind [size] [] (cons size) 0 (fun ok => ok = true)
           [] [size] (remove_one size) n);
    [apply effect_mmap | | done | done | | done].
  - intros ok ->. cbn [negb].
    eapply effect_after_quiet; [apply quiet_die_if | intros _ _; apply Hrest | done].
  - intros l. cbn. now rewrite Z.eqb_refl.
Qed.

Lemma effect_size_step step :
  effect [size_of step] [size_of step] (fun l => l) 1 (fun _ => True)
    (size_step sys step).
Proof.
  unfold size_step. apply effect_mapped_around.
  eapply effect_after_quiet; [apply quiet_benchmark_prologue | intros start _ |].
  eapply effect_after_quiet; [now apply (quiet_emit (Run _)) | intros _ _ |].
  eapply effect_after_quiet; [apply quiet_benchmark_epilogue | intros _ _ |].
  apply effect_unmap_or_die.
  all: reflexivity.
Qed.






Lemma quiet_chain (body : Z -> P unit) steps :
  (forall step, quiet (fun _ => True) 1 (body step)) ->
  quiet (fun _ => True) (length steps) (chain body steps).
Proof.
  intros Hbody. induction steps as [| step steps IH]; [now apply quiet_ret |].
  apply (quiet_bind (fun _ => True) _ 1 (length steps)); [apply Hbody |].
  intros _ _. exact IH.
Qed.

Lemma stride_sweep_unrolled (body : Z -> P unit) :
  sweep 64 4096 body 1 = chain body (doubling 13 1).
Proof. reflexivity. Qed.

Lemma size_sweep_unrolled (body : Z -> P unit) :
  sweep 64 (u64 (GIGABYTES 1)) body (u64 (KILOBYTES 1))
  = chain body (doubling 21 1024).
Proof. reflexivity. Qed.

Lemma effect_example2 :
  effect [67108864] [67108864] (fun l => l) 13 (fun _ => True) (example2 sys 64).
Proof.
  unfold example2.
  eapply effect_after_quiet; [now apply (quiet_emit (Stdout _)) | intros _ _ |].
  change (u64 (MEGABYTES 64)) with 67108864.
  apply effect_mapped_around.
  eapply effect_after_quiet; [| intros _ _; apply effect_unmap_or_die |].
  rewrite stride_sweep_unrolled.
  apply (quiet_chain _ (doubling 13 1)). intros step. apply quiet_stride_step.
  all: reflexivity.
Qed.

Lemma effect_example4 :
  effect [u64 (getpagesize sys)] [u64 (getpagesize sys)] (fun l => l) 2
    (fun _ => True) (example4 sys).
Proof.
  unfold example4.
  eapply effect_after_quiet; [now apply (quiet_emit (Stdout _)) | intros _ _ |].
  apply effect_mapped_around.
  eapply effect_after_quiet; [apply quiet_measurement | intros _ _ |].
  eapply effect_after_quiet; [apply quiet_measurement | intros _ _ |].
  apply effect_unmap_or_die.
  all: reflexivity.
Qed.



End WithOS.

End RunFacts.

(** ** The report line *)

Section ReportFacts.
Import Int Printf Driver.

Lemma u64_s64 z : u64 (s64 z) = u64 z.
Proof.
  unfold u64, s64, wrap, swrap. change (64 - 1) with 63.
  replace ((z + 2 ^ 63) mod 2 ^ 64 - 2 ^ 63)
    with (z + (- ((z + 2 ^ 63) / 2 ^ 64)) * 2 ^ 64).
  - now rewrite Z.mod_add by lia.
  - pose proof (Z.div_mod (z + 2 ^ 63) (2 ^ 64) ltac:(lia)). lia.
Qed.

Lemma now_emit s e su eu mp : now (mk_proc su eu mp (trace s ++ [e])) = S (now s).
Proof. unfold now. cbn [trace]. rewrite length_app. cbn. lia. Qed.

Lemma commas_app s1 s2 : commas (s1 ++ s2) = (commas s1 + commas s2)%nat.
Proof.
  induction s1 as [| c s1 IH]; [done |]. cbn. rewrite IH. lia.
Qed.

Lemma commas_spaces n : commas (spaces n) = 0%nat.
Proof. induction n as [| n IH]; [done |]. exact IH. Qed.

(** The begin snapshot is what [benchmark_prologue] leaves in [susage]. *)
Lemma benchmark_prologue_snapshot (sys : os) (s : proc) (size : Z)
    (ru : rusage) (start : timeval) :
  rusage_at sys (S (now s)) = Some ru ->
  time_at sys (S (S (now s))) = Some start ->
  exists s',
    benchmark_prologue sys size s = Ret start s'
    /\ susage s' = ru
    /\ trace s' = trace s ++ [Prefault (u64 (getpagesize sys)) size;
                              Sys Getrusage true; Sys Gettimeofday true].
Proof.
  intros Hru Htime. eexists. split.
  - unfold benchmark_prologue, bind, emit, getrusage.
    rewrite now_emit, Hru. cbn [Z.eqb Z.opp die_if]. unfold ret at 1.
    unfold gettimeofday. rewrite !now_emit, Htime.
    cbn [Z.eqb Z.opp die_if]. reflexivity.
  - cbn [susage trace]. split; [done |]. now rewrite <- !app_assoc.
Qed.

(** C8, as the code prints it. The end operation prints one line:
    "step: ", the scaled value and its unit, ", diff: ", the elapsed
    microseconds, "(us) hf: ", the major-fault delta, ", sf ", the
    minor-fault delta, ", nvcs: ", the voluntary-switch delta, ", nivcs: ",
    the involuntary-switch delta and a newline, each number right-aligned
    in its field. The four counters are the differences between the
    snapshot taken now and the one [benchmark_prologue] left in [susage],
    printed as unsigned 64-bit numbers. *)
Theorem report_line_template (sys : os) (s : proc) (start stop : timeval)
    (ru : rusage) (step : Z) :
  time_at sys (now s) = Some stop ->
  rusage_at sys (S (now s)) = Some ru ->
  exists s',
    benchmark_epilogue sys start step s = Ret tt s'
    /\ eusage s' = ru
    /\ susage s' = susage s
    /\ trace s' =
       trace s ++
       [Sys Gettimeofday true; Sys Getrusage true;
        Stdout
          (report_line
             (u64 (fst (Prefix.bytes_to_prefix step (Some " "%string))))
             (c_str (snd (Prefix.bytes_to_prefix step (Some " "%string))))
             (u64 ((tv_sec stop - tv_sec start) * 1000000
                   + tv_usec stop - tv_usec start))
             (u64 (ru_majflt ru - ru_majflt (susage s)))
             (u64 (ru_minflt ru - ru_minflt (susage s)))
             (u64 (ru_nvcsw ru - ru_nvcsw (susage s)))
             (u64 (ru_nivcsw ru - ru_nivcsw (susage s))))].
Proof.
  intros Htime Hru. unfold benchmark_epilogue.
  destruct (Prefix.bytes_to_prefix step (Some " "%string)) as [value unit].
  eexists. split.
  - unfold timediff, bind, gettimeofday. rewrite Htime.
    cbn [Z.eqb negb die_if]. unfold ret at 1. unfold ret at 1.
    unfold getrusage. rewrite now_emit, Hru.
    cbn [Z.eqb Z.opp die_if]. unfold ret at 1.
    unfold get, emit, report_args. rewrite sprintf_report.
    cbn [susage eusage mapped trace fst snd]. rewrite !u64_s64. reflexivity.
  - cbn [susage eusage trace]. repeat split. now rewrite <- !app_assoc.
Qed.

End ReportFacts.

Section ReportResults.
Import Int Printf Driver.

Lemma report_line_template_witness :
  exists s',
    benchmark_epilogue quiet_os zero_timeval 1024 initial = Ret tt s'
    /\ eusage s' = mk_rusage 0 1 0 0
    /\ susage s' = zero_rusage
    /\ trace s' =
       [Sys Gettimeofday true; Sys Getrusage true;
        Stdout ("step:    1k, diff:      0(us) hf:  0, sf  1, nvcs: 0, nivcs:  0"
                ++ nl)].
Proof.
  exact (report_line_template quiet_os initial zero_timeval (mk_timeval 0 0)
           (mk_rusage 0 1 0 0) 1024 eq_refl eq_refl).
Defined.

(** C8, as stated: the line the end operation prints for step 1024 is
    not an instance of the specification's template, whatever the padding:
    it has a comma after the major-fault count and one after the
    voluntary-switch count, the template has neither. *)
Lemma report_line_differs_from_spec_template :
  ~ (exists s' p1 p2 p3 p4 p5 p6,
       benchmark_epilogue quiet_os zero_timeval 1024 initial = Ret tt s'
       /\ In (Stdout (spec_report_line p1 p2 p3 p4 p5 p6 1 "k" 0 0 1 0 0))
            (trace s')).
Proof.
  intros (s' & p1 & p2 & p3 & p4 & p5 & p6 & Hrun & Hin).
  vm_compute in Hrun. injection Hrun as <-. cbn [trace In] in Hin.
  destruct Hin as [Hin | [Hin | [Hin | []]]]; try discriminate Hin.
  pose proof (f_equal (fun e => match e with Stdout l => commas l | _ => O end) Hin)
    as Hline.
  cbv beta iota in Hline. unfold spec_report_line in Hline.
  rewrite !commas_app, !commas_spaces in Hline.
  vm_compute in Hline. discriminate.
Qed.

End ReportResults.

(** ** The region lifecycle and the setup calls *)

Section LifecycleResults.
Import Int Printf Driver.





(** The working-set sweep: every map call is answered by an unmap call of
    the same size before the next pass maps. *)
Lemma effect_size_chain (sys : os) steps :
  os_ok sys ->
  effect (size_of <$> steps) (size_of <$> steps) (fun l => l) (length steps)
    (fun _ => True) (chain (size_step sys) steps).
Proof.
  intros Hok. induction steps as [| step steps IH].
  - apply effect_of_quiet. now apply quiet_ret.
  - apply (effect_bind [size_of step] [size_of step] (fun l => l) 1
             (fun _ => True) (size_of <$> steps) (size_of <$> steps)
             (fun l => l) (length steps));
      [now apply effect_size_step | intros _ _; exact IH | done..].
Qed.

Lemma effect_example3 (sys : os) :
  os_ok sys ->
  effect (size_of <$> doubling 21 1024) (size_of <$> doubling 21 1024)
    (fun l => l) 21 (fun _ => True) (example3 sys 64).
Proof.
  intros Hok. unfold example3.
  eapply (effect_after_quiet (fun _ => True) _ _ _ _ 21);
    [now apply (quiet_emit (Stdout _)) | intros _ _ | reflexivity].
  rewrite size_sweep_unrolled. now apply (effect_size_chain sys (doubling 21 1024)).
Qed.

(** C2, evaluated. When pinning the process to a CPU fails and every
    other call succeeds, [main] goes on: it takes all 36 measurements and
    returns 0. *)
Theorem affinity_failure_is_ignored :
  nth_error (final_trace (main unpinned_os 64 initial)) 0
    = Some (Sys SchedSetaffinity false)
  /\ count is_run (final_trace (main unpinned_os 64 initial)) = 36%nat
  /\ count is_report (final_trace (main unpinned_os 64 initial)) = 36%nat
  /\ exit_status (main unpinned_os 64 initial) = Some 0.
Proof. vm_compute. repeat split. Qed.

(** The scheduler half of the setup is checked: when raising the
    priority fails, the process exits with status 1 right away. *)
Lemma scheduler_failure_aborts (sys : os) (fuel : nat) (s : proc) :
  setscheduler_ok sys = false ->
  exists s',
    main sys fuel s = Exit 1 s'
    /\ trace s' = trace s ++ [Sys SchedSetaffinity (setaffinity_ok sys);
                              Sys SchedSetscheduler false;
                              Perror "sched_setscheduler()"]
    /\ count is_run (trace s') = count is_run (trace s).
Proof.
  intros Hfail. eexists. split; [| split].
  - unfold main, bind, sched_setaffinity, sched_setscheduler, bind, emit, ret.
    rewrite Hfail. cbn [rc Z.eqb negb die_if]. unfold die. reflexivity.
  - cbn [trace]. now rewrite <- !app_assoc.
  - cbn [trace]. rewrite !count_app. cbn. lia.
Qed.

End LifecycleResults.

(** ** The whole run *)

Section MainFacts.
Import Int Printf Driver.

Variable sys : os.
Hypothesis Hok : os_ok sys.
Hypothesis Hsched : setscheduler_ok sys = true.

Lemma quiet_sched_setaffinity :
  quiet (fun _ => True) 0 (sched_setaffinity sys).
Proof.
  unfold sched_setaffinity.
  apply (quiet_bind (fun _ => True) _ 0 0); [now apply (quiet_emit (Sys _ _)) |].
  intros _ _. now apply quiet_ret.
Qed.

Lemma quiet_sched_setscheduler :
  quiet (fun code => code = 0) 0 (sched_setscheduler sys).
Proof.
  unfold sched_setscheduler. rewrite Hsched.
  apply (quiet_bind (fun _ => True) _ 0 0); [now apply (quiet_emit (Sys _ _)) |].
  intros _ _. now apply quiet_ret.
Qed.

(** On a system that grants the priority and whose other calls succeed,
    whether or not the process was pinned to a CPU, [main] returns 0 after
    36 report lines; every region it mapped was unmapped, in the same
    order, and nothing stays mapped. *)
Lemma effect_main :
  effect (regions_of_run sys) (regions_of_run sys) (fun l => l) 36
    (fun code => code = 0) (main sys 64).
Proof.
  unfold main.
  eapply effect_after_quiet; [apply quiet_sched_setaffinity | intros _ _ |].
  eapply effect_after_quiet; [apply quiet_sched_setscheduler | intros code -> |].
  eapply effect_after_quiet; [apply quiet_die_if | intros _ _ |].
  apply (effect_bind [67108864] [67108864] (fun l => l) 13 (fun _ => True)
           ((size_of <$> doubling 21 1024) ++ [u64 (getpagesize sys)])
           ((size_of <$> doubling 21 1024) ++ [u64 (getpagesize sys)])
           (fun l => l) 23);
    [now apply effect_example2 | intros _ _ | done..].
  apply (effect_bind (size_of <$> doubling 21 1024) (size_of <$> doubling 21 1024)
           (fun l => l) 21 (fun _ => True)
           [u64 (getpagesize sys)] [u64 (getpagesize sys)] (fun l => l) 2);
    [now apply effect_example3 | intros _ _ | done..].
  apply (effect_bind [u64 (getpagesize sys)] [u64 (getpagesize sys)]
           (fun l => l) 2 (fun _ => True) [] [] (fun l => l) 0);
    [now apply effect_example4 | intros _ _ | done..].
  apply effect_of_quiet. now apply quiet_ret.
  all: reflexivity.
Qed.

End MainFacts.

(** ** The calls the driver makes *)

Section DriverCalls.
Import Int Driver.

Ltac quotient_now :=
  repeat match goal with
         | |- context [?a / 4] =>
             let v := eval vm_compute in (a / 4) in change (a / 4) with v
         end.

Ltac well_called_now :=
  cbn [well_called fst snd]; quotient_now;
  repeat match goal with
         | |- _ /\ _ => split
         | |- exists k, _ /\ ?len = 2 ^ k =>
             exists (Z.log2 len); split; [vm_compute; split; congruence | reflexivity]
         end;
  lia.

(** Every workload call of a run on a system with 4096-byte pages is
    [well_called] for the region mapped at the time, taken as a buffer of
    4-byte elements. *)
Lemma driver_calls_well_called :
  Forall (fun c => well_called (fst c) (Z.to_nat (snd c / 4)))
    (calls [] (final_trace (main quiet_os 64 initial))).
Proof.
  set (l := calls [] (final_trace (main quiet_os 64 initial))).
  vm_compute in l. subst l.
  repeat (constructor; [well_called_now |]).
  constructor.
Qed.

End DriverCalls.

(** * Further results *)

(** ** bytes_to_prefix scales without loss *)

Section ScalingFacts.
Import Int Prefix Further.

(** Scaling is exact whenever the string passed in counts as no unit,
    a null pointer included. *)
Lemma bytes_to_prefix_scaled (b : Z) (s : option string) :
  unit_scale s = 1 ->
  fst (bytes_to_prefix b s) * unit_scale (snd (bytes_to_prefix b s)) = b.
Proof.
  intros Hs. destruct s as [p |]; [| cbn; lia].
  assert (forall x, x mod 1024 = 0 -> x / 1024 * 1024 = x) as Hexact.
  { intros x Hx. pose proof (Z.div_mod x 1024 ltac:(lia)). lia. }
  rewrite bytes_to_prefix_unfold, !land_mask.
  destruct (Z.eqb_spec (b mod 1024) 0) as [H1 | H1];
    cbv beta iota zeta; rewrite ?land_mask, ?shiftr_10.
  - destruct (Z.eqb_spec (b / 1024 mod 1024) 0) as [H2 | H2];
      cbv beta iota zeta; rewrite ?land_mask, ?shiftr_10.
    + destruct (Z.eqb_spec (b / 1024 / 1024 mod 1024) 0) as [H3 | H3];
        cbv beta iota zeta; cbn [fst snd].
      * change (unit_scale (Some "G"%string)) with (1024 * 1024 * 1024).
        apply Hexact in H1, H2, H3. lia.
      * change (unit_scale (Some "M"%string)) with (1024 * 1024).
        apply Hexact in H1, H2. lia.
    + rewrite ?land_mask.
      destruct (Z.eqb_spec (b / 1024 mod 1024) 0) as [? | _]; [done |].
      cbv beta iota zeta; cbn [fst snd].
      change (unit_scale (Some "k"%string)) with 1024.
      apply Hexact in H1. lia.
  - do 2 (rewrite ?land_mask;
          destruct (Z.eqb_spec (b mod 1024) 0) as [? | _]; [done |];
          cbv beta iota zeta).
    cbn [fst snd]. rewrite Hs. lia.
Qed.

(** With a placeholder that is not itself a unit, the scaled value times
    the multiplier of the selected unit is the size that was passed: the
    helper never rounds. *)
Theorem bytes_to_prefix_exact (b : Z) (p : string) :
  p <> "k"%string -> p <> "M"%string -> p <> "G"%string ->
  fst (bytes_to_prefix b (Some p)) * unit_scale (snd (bytes_to_prefix b (Some p))) = b.
Proof.
  intros Hk HM HG. apply bytes_to_prefix_scaled. unfold unit_scale.
  destruct (String.eqb_spec p "k"); [done |].
  destruct (String.eqb_spec p "M"); [done |].
  destruct (String.eqb_spec p "G"); done.
Qed.

Lemma bytes_to_prefix_exact_witness :
  fst (bytes_to_prefix 3145728 (Some " "%string))
  * unit_scale (snd (bytes_to_prefix 3145728 (Some " "%string))) = 3145728.
Proof. apply (bytes_to_prefix_exact 3145728 " "); discriminate. Defined.

End ScalingFacts.

(** ** The pre-faulting loop, access by access *)

Section PrefaultAccesses.
Import Int Mem Prefault Further.

Lemma page_offsets_closed page_size n q :
  page_offsets page_size n (q * page_size)
  = (fun p => p * page_size) <$> seqZ q (Z.of_nat n).
Proof.
  revert q. induction n as [| n IH]; intros q; [done |].
  rewrite (seqZ_cons q) by lia. cbn [page_offsets fmap list_fmap]. f_equal.
  replace (q * page_size + page_size) with (Z.succ q * page_size) by lia.
  rewrite IH. do 2 f_equal. lia.
Qed.

Lemma passes_closed page_size (l : list Z) :
  (((fun p => p * page_size) <$> l) ≫= pass) = (l ≫= page_pass page_size).
Proof. induction l as [| p l IH]; [done |]. cbn. now rewrite <- IH. Qed.

(** The loop reads and writes back the first byte of every page of the
    region, in address order, invalidates the line at the start of the
    region after each write, and touches nothing else. The body runs once
    even for an empty region: offset 0 is touched whatever the size. *)
Theorem prefault_accesses (page_size size : Z) (bytes : list Z) (fuel : nat) :
  0 < page_size ->
  0 <= size < 2 ^ 63 ->
  size <= Z.of_nat (length bytes) ->
  (1 <= length bytes)%nat ->
  (Z.to_nat (size / page_size) < fuel)%nat ->
  prefault fuel page_size size (mk_mem bytes [])
  = Done tt (mk_mem bytes
               (seqZ 0 (Z.max 1 (pages page_size size)) ≫= page_pass page_size)).
Proof.
  intros Hps Hsize Hlen Hone Hfuel.
  destruct (decide (size = 0)) as [-> | Hpos].
  - destruct fuel as [| fuel]; [lia |].
    unfold prefault. cbn [prefault_loop].
    rewrite pass_run by (unfold inside; cbn; lia).
    destruct (Z.ltb_spec 0 page_size); [| lia].
    unfold pages. rewrite Z.add_0_l, Z.div_small by lia. reflexivity.
  - rewrite prefault_run by lia.
    pose proof (pages_pos page_size size Hps ltac:(lia)).
    rewrite Z.max_r by lia.
    change 0 with (0 * page_size) at 1.
    rewrite page_offsets_closed, Z2Nat.id by lia.
    now rewrite passes_closed.
Qed.

Lemma prefault_accesses_witness :
  prefault 4 4 10 (mk_mem [1; 2; 3; 4; 5; 6; 7; 8; 9; 10] [])
  = Done tt (mk_mem [1; 2; 3; 4; 5; 6; 7; 8; 9; 10]
               [Read 0; Write 0; Flush 0; Read 4; Write 4; Flush 0;
                Read 8; Write 8; Flush 0]).
Proof.
  apply (prefault_accesses 4 10 [1; 2; 3; 4; 5; 6; 7; 8; 9; 10] 4);
    [lia | lia | cbn [length]; lia | cbn [length]; lia
    | change (10 / 4) with 2; lia].
Defined.

End PrefaultAccesses.

(** ** The workloads on arbitrary buffers *)

Section WorkloadsFurther.
Import Int Mem Workloads Further.

Lemma bumped_uint32 x c : is_uint32 x -> bumped x c = u32 (x + c).
Proof.
  intros Hx. unfold bumped. destruct (Z.eqb_spec c 0) as [-> | _]; [| done].
  now rewrite Z.add_0_r, u32_small.
Qed.

Lemma occurrences_pair j a b :
  occurrences j [a; b] = (if a =? j then 1 else 0) + (if b =? j then 1 else 0).
Proof. cbn. lia. Qed.

Ltac occ_now :=
  rewrite occurrences_pair;
  repeat match goal with
         | |- context [?a =? ?b] => destruct (Z.eqb_spec a b); try lia
         end;
  cbn [Z.add Z.mul Pos.add Pos.succ].

(** The cells after a series of increments of elements 0 and 1 only. *)
Lemma bump_all_low (c : list Z) (N : Z) (buf : list Z) :
  Forall (fun i => 0 <= i) c -> 0 <= N ->
  cells (bump_all (seqZ 0 N ≫= fun _ => c) (mk_mem buf []))
  = imap (fun j x => bumped x (occurrences (Z.of_nat j) c * N)) buf.
Proof.
  intros Hc HN. apply list_eq. intros j.
  rewrite bump_all_lookup by now apply Forall_bind_const.
  rewrite list_lookup_imap. cbn [cells].
  now rewrite occurrences_bind_const, length_seqZ, Z2Nat.id by lia.
Qed.

(** On any buffer of [uint32_t] values, with an iteration count N, the
    dependent-increment workload adds 2N to element 0 modulo 2^32 and the
    independent-increment workload adds N to elements 0 and 1 modulo 2^32;
    no other element changes. *)
Theorem increment_workloads_add_modulo (N : Z) (buf : list Z) (fuel : nat) :
  0 <= N < 2 ^ 31 ->
  Forall is_uint32 buf ->
  (Z.to_nat N < fuel)%nat ->
  ((1 <= length buf)%nat ->
   exists m', bench2 fuel N (mk_mem buf []) = Done tt m'
              /\ cells m' = alter (fun x => u32 (x + 2 * N)) 0%nat buf)
  /\ ((2 <= length buf)%nat ->
      exists m', bench3 fuel N (mk_mem buf []) = Done tt m'
                 /\ cells m' = alter (fun x => u32 (x + N)) 1%nat
                                 (alter (fun x => u32 (x + N)) 0%nat buf)).
Proof.
  intros HN Hbuf Hfuel.
  assert (forall j x, buf !! j = Some x -> is_uint32 x) as Hx
    by (intros j x Ej; eapply Forall_lookup_1; eauto).
  split; intros Hlen.
  - eexists. split; [apply bench2_run; [lia | done | cbn; lia] |].
    rewrite bump_all_low by (repeat constructor; lia).
    apply list_eq. intros j. rewrite list_lookup_imap.
    destruct j as [| j];
      [rewrite list_lookup_alter_eq | rewrite list_lookup_alter_ne by done];
      (destruct (buf !! _) as [x |] eqn:Ej; [| done]);
      cbn [fmap option_fmap option_map];
      rewrite (bumped_uint32 x) by eauto; occ_now.
    + repeat f_equal; lia.
    + rewrite Z.add_0_r. f_equal. apply u32_small. exact (Hx _ _ Ej).
  - eexists. split; [apply bench3_run; [lia | done | cbn; lia] |].
    rewrite bump_all_low by (repeat constructor; lia).
    apply list_eq. intros j. rewrite list_lookup_imap.
    destruct j as [| [| j]];
      [rewrite list_lookup_alter_ne, list_lookup_alter_eq by done
      | rewrite list_lookup_alter_eq, list_lookup_alter_ne by done
      | rewrite !list_lookup_alter_ne by done];
      (destruct (buf !! _) as [x |] eqn:Ej; [| done]);
      cbn [fmap option_fmap option_map];
      rewrite (bumped_uint32 x) by eauto; occ_now.
    + repeat f_equal; lia.
    + repeat f_equal; lia.
    + rewrite Z.add_0_r. f_equal. apply u32_small. exact (Hx _ _ Ej).
Qed.

Lemma increment_workloads_add_modulo_witness :
  (exists m', bench2 4 3 (mk_mem [4294967295; 7] []) = Done tt m'
              /\ cells m' = [5; 7])
  /\ (exists m', bench3 4 3 (mk_mem [4294967295; 7] []) = Done tt m'
                 /\ cells m' = [2; 10]).
Proof.
  destruct (increment_workloads_add_modulo 3 [4294967295; 7] 4) as [H2 H3].
  - lia.
  - repeat constructor; unfold is_uint32; lia.
  - lia.
  - split; [apply H2; cbn; lia | apply H3; cbn; lia].
Defined.

End WorkloadsFurther.

(** ** The aliasing workload on any length, and the steps the scan is not
    meant for *)

Section WorkloadEdges.
Import Int Mem Workloads Further.

Lemma land_upper a b : 0 <= a -> 0 <= b -> 0 <= Z.land a b <= b.
Proof.
  intros Ha Hb. split; [apply Z.land_nonneg; now left |].
  rewrite <- (Z2N.id a), <- (Z2N.id b) by done. rewrite <- N2Z.inj_land.
  apply N2Z.inj_le, N.land_le_r.
Qed.

Lemma u64_range z : 0 <= u64 z < 2 ^ 64.
Proof. apply Z.mod_pos_bound. lia. Qed.

(** The mask never lets the index past [L - 1], power of two or not. *)
Lemma bench1_index_masked L i :
  1 <= L < 2 ^ 64 -> 0 <= bench1_index (u64 (L - 1)) i < L.
Proof.
  intros HL. unfold bench1_index. rewrite (u64_small (L - 1)) by lia.
  pose proof (u64_range (s32 (i * 16))) as Hi.
  pose proof (land_upper (u64 (s32 (i * 16))) (L - 1)). lia.
Qed.

Lemma bench1_run_masked fuel L limit (m : mem) :
  1 <= L < 2 ^ 64 ->
  limit < 2 ^ 31 ->
  (Z.to_nat limit < fuel)%nat ->
  L <= Z.of_nat (length (cells m)) ->
  bench1 fuel L limit m =
  Done tt (bump_all (bench1_index (u64 (L - 1)) <$> seqZ 0 limit) m).
Proof.
  intros HL Hc Hfuel Hm. unfold bench1. rewrite <- bind_singleton.
  apply (for_lt_bumps _ _ limit (length (cells m))); try done.
  intros i m0 _ Hm0. apply incr_inside. rewrite Hm0.
  pose proof (bench1_index_masked L i HL). unfold inside. lia.
Qed.

(** The [int] product wraps at a multiple of 16, and so does its
    conversion to [size_t]. *)
Lemma product_mod_16 i : u64 (s32 (i * 16)) mod 2 ^ 4 = 0.
Proof.
  unfold u64, wrap. rewrite mod_mod_pow2 by lia.
  unfold s32, swrap. change (32 - 1) with 31.
  replace ((i * 16 + 2 ^ 31) mod 2 ^ 32 - 2 ^ 31)
    with ((i * 16 + 2 ^ 31) mod 2 ^ 32 + (- 2 ^ 27) * 2 ^ 4) by lia.
  rewrite Z.mod_add by lia. rewrite mod_mod_pow2 by lia.
  replace (i * 16 + 2 ^ 31) with ((i + 2 ^ 27) * 2 ^ 4) by lia.
  apply Z.mod_mul. lia.
Qed.

Lemma bench1_index_mod_16 k i :
  4 <= k < 64 -> bench1_index (u64 (2 ^ k - 1)) i mod 16 = 0.
Proof.
  intros Hk. unfold bench1_index.
  assert (0 < 2 ^ k) by (apply Z.pow_pos_nonneg; lia).
  assert (2 ^ k <= 2 ^ 63) by (apply Z.pow_le_mono_r; lia).
  rewrite (u64_small (2 ^ k - 1)) by lia.
  change (2 ^ k - 1) with (Z.pred (2 ^ k)). rewrite <- Z.ones_equiv.
  rewrite Z.land_ones by lia.
  change 16 with (2 ^ 4). rewrite mod_mod_pow2 by lia.
  apply product_mod_16.
Qed.

(** For every length L >= 1, a power of two or not, the aliasing
    workload runs to completion on a buffer of at least L elements and
    every access is at an index below L: masking with L - 1 cannot give
    more than L - 1. *)
Theorem bench1_mask_stays_below_length (L limit : Z) (buf : list Z) (fuel : nat) :
  1 <= L < 2 ^ 64 ->
  limit < 2 ^ 31 ->
  L <= Z.of_nat (length buf) ->
  (Z.to_nat limit < fuel)%nat ->
  exists m',
    bench1 fuel L limit (mk_mem buf []) = Done tt m'
    /\ length (cells m') = length buf
    /\ Forall (fun a => 0 <= offset_of a < L) (log m').
Proof.
  intros HL Hlimit Hbuf Hfuel. eexists. split; [now apply bench1_run_masked |].
  split; [now rewrite bump_all_length |].
  rewrite bump_all_log. cbn [log app].
  apply (Forall_rmw (fun j => 0 <= j < L)).
  apply Forall_fmap, Forall_seqZ. intros i _. cbn.
  now apply bench1_index_masked.
Qed.

Lemma bench1_mask_stays_below_length_witness :
  exists m',
    bench1 6 6 5 (mk_mem [1; 2; 3; 4; 5; 6] []) = Done tt m'
    /\ length (cells m') = 6%nat
    /\ Forall (fun a => 0 <= offset_of a < 6) (log m').
Proof.
  apply (bench1_mask_stays_below_length 6 5 [1; 2; 3; 4; 5; 6] 6);
    [lia | lia | cbn; lia | lia].
Defined.

(** With a power-of-two length of at least 16 elements the aliasing
    workload only ever writes elements whose index is a multiple of 16,
    whatever the number of passes, a wrapped [int] product included; the
    elements in between keep their values. *)
Theorem bench1_touches_multiples_of_16 (k limit : Z) (buf : list Z) (fuel : nat) :
  4 <= k < 64 ->
  limit < 2 ^ 31 ->
  2 ^ k <= Z.of_nat (length buf) ->
  (Z.to_nat limit < fuel)%nat ->
  exists m',
    bench1 fuel (2 ^ k) limit (mk_mem buf []) = Done tt m'
    /\ Forall (fun i => i mod 16 = 0) (writes (log m'))
    /\ (forall j : nat, Z.of_nat j mod 16 <> 0 -> cells m' !! j = buf !! j).
Proof.
  intros Hk Hlimit Hbuf Hfuel.
  assert (Forall (fun i => i mod 16 = 0)
            (bench1_index (u64 (2 ^ k - 1)) <$> seqZ 0 limit)) as Hidx.
  { apply Forall_fmap, Forall_seqZ. intros i _. cbn.
    now apply bench1_index_mod_16. }
  eexists. split; [apply bench1_run; [lia | done..] |]. split.
  - rewrite bump_all_log. cbn [log app]. now rewrite writes_rmw.
  - intros j Hj. rewrite bump_all_lookup.
    + cbn [cells]. rewrite occurrences_notin.
      * now destruct (buf !! j).
      * intros Hin. rewrite list.Forall_forall in Hidx.
        apply Hj, Hidx, Hin.
    + apply Forall_fmap, Forall_seqZ. intros i _. cbn.
      pose proof (bench1_index_range k i ltac:(lia)). lia.
Qed.

Lemma bench1_touches_multiples_of_16_witness :
  exists m',
    bench1 4 (2 ^ 5) 3 (mk_mem (replicate 32 7) []) = Done tt m'
    /\ Forall (fun i => i mod 16 = 0) (writes (log m'))
    /\ (forall j : nat, Z.of_nat j mod 16 <> 0 ->
          cells m' !! j = replicate 32 7 !! j).
Proof.
  apply (bench1_touches_multiples_of_16 5 3 (replicate 32 7) 4);
    [lia | lia | rewrite length_replicate; lia | lia].
Defined.

Lemma bench_loop_stuck count (fuel : nat) (m : mem) :
  1 <= count ->
  (1 <= length (cells m))%nat ->
  bench_loop fuel count 0 0 m = OutOfFuel.
Proof.
  intros Hcount. revert m. induction fuel as [| fuel IH]; intros m Hm; [done |].
  cbn [bench_loop]. rewrite (u64_small 0) by lia.
  destruct (Z.ltb_spec 0 count) as [_ | ?]; [| lia].
  unfold bind. rewrite triple_inside by (unfold inside; lia). cbv beta iota.
  change (s32 (0 + 0)) with 0. apply IH. cbn. now rewrite length_alter.
Qed.

(** A step of 0 never ends the strided scan: on a region of at least one
    element the loop triples element 0 again and again, so no amount of
    fuel lets the call return. *)
Theorem bench_zero_step_never_returns (length : Z) (buf : list Z) (fuel : nat) :
  4 <= length ->
  (1 <= List.length buf)%nat ->
  bench fuel length 0 (mk_mem buf []) = OutOfFuel.
Proof.
  intros Hlen Hbuf. unfold bench.
  change (u8 (ffs sizeof_uint32_t - 1)) with 2.
  rewrite Z.shiftr_div_pow2 by lia. change (2 ^ 2) with 4.
  apply bench_loop_stuck; [| done].
  apply Z.div_le_lower_bound; lia.
Qed.

Lemma bench_zero_step_never_returns_witness :
  bench 1000 8 0 (mk_mem [1; 2] []) = OutOfFuel.
Proof.
  apply (bench_zero_step_never_returns 8 [1; 2] 1000); [lia | cbn; lia].
Defined.

(** A negative step ends the strided scan after its first pass: the
    [int] index turns negative, and converted to [size_t] for the
    comparison it lies beyond every length. Element 0 is tripled and
    nothing else is touched. *)
Theorem bench_negative_step_single_pass
    (length step : Z) (buf : list Z) (fuel : nat) :
  4 <= length < 2 ^ 64 ->
  - 2 ^ 31 <= step < 0 ->
  (1 <= List.length buf)%nat ->
  (2 <= fuel)%nat ->
  bench fuel length step (mk_mem buf [])
  = Done tt (mk_mem (alter (fun x => u32 (x * 3)) 0%nat buf) [Read 0; Write 0]).
Proof.
  intros Hlen Hstep Hbuf Hfuel. unfold bench.
  change (u8 (ffs sizeof_uint32_t - 1)) with 2.
  rewrite Z.shiftr_div_pow2 by lia. change (2 ^ 2) with 4.
  assert (1 <= length / 4) by (apply Z.div_le_lower_bound; lia).
  assert (length / 4 < 2 ^ 62).
  { apply Z.div_lt_upper_bound; lia. }
  destruct fuel as [| [| fuel]]; [lia | lia |].
  cbn [bench_loop]. rewrite (u64_small 0) by lia.
  destruct (Z.ltb_spec 0 (length / 4)) as [_ | ?]; [| lia].
  unfold bind. rewrite triple_inside by (unfold inside; cbn; lia).
  cbv beta iota. rewrite Z.add_0_l, s32_small by lia.
  rewrite u64_negative by lia.
  destruct (Z.ltb_spec (step + 2 ^ 64) (length / 4)) as [? | _]; [lia |].
  reflexivity.
Qed.

Lemma bench_negative_step_single_pass_witness :
  bench 2 16 (-1) (mk_mem [5; 6; 7; 8] [])
  = Done tt (mk_mem [15; 6; 7; 8] [Read 0; Write 0]).
Proof.
  apply (bench_negative_step_single_pass 16 (-1) [5; 6; 7; 8] 2);
    [lia | lia | cbn; lia | lia].
Defined.

End WorkloadEdges.

(** ** One measurement *)

Section MeasurementFacts.
Import Int Printf Driver Further.

(** What a measurement measures. When the four queries succeed, a
    measurement is seven events: the pre-faulting pass, the begin snapshot
    of the counters, the start of the clock, the workload, the stop of the
    clock, the end snapshot and the report line. The elapsed time reported
    is the time between the two readings of the clock, with nothing but
    the workload between them: the pre-faulting pass comes before the
    clock starts. The four counters are the differences between the end
    snapshot and the begin snapshot of this very measurement. A pass of
    the stride sweep is such a measurement. *)
Theorem measurement_times_the_workload_alone
    (sys : os) (s : proc) (size : Z) (w : workload) (label : Z)
    (ru0 ru1 : rusage) (t0 t1 : timeval) :
  rusage_at sys (1 + now s) = Some ru0 ->
  time_at sys (2 + now s) = Some t0 ->
  time_at sys (4 + now s) = Some t1 ->
  rusage_at sys (5 + now s) = Some ru1 ->
  (exists s',
      ilp_step sys size w label s = Ret tt s'
      /\ trace s' =
         trace s ++
         [Prefault (u64 (getpagesize sys)) size;
          Sys Getrusage true; Sys Gettimeofday true;
          Run w;
          Sys Gettimeofday true; Sys Getrusage true;
          Stdout
            (report_line
               (u64 (fst (Prefix.bytes_to_prefix label (Some " "%string))))
               (c_str (snd (Prefix.bytes_to_prefix label (Some " "%string))))
               (u64 (usecs t1 - usecs t0))
               (u64 (ru_majflt ru1 - ru_majflt ru0))
               (u64 (ru_minflt ru1 - ru_minflt ru0))
               (u64 (ru_nvcsw ru1 - ru_nvcsw ru0))
               (u64 (ru_nivcsw ru1 - ru_nivcsw ru0)))])
  /\ (forall step,
        stride_step sys size step = ilp_step sys size (Bench size (s32 step)) step).
Proof.
  intros Hru0 Ht0 Ht1 Hru1. split; [| reflexivity].
  destruct (benchmark_prologue_snapshot sys s size ru0 t0 Hru0 Ht0)
    as (s1 & Hrun1 & Hsnap & Htr1).
  assert (now s1 = (3 + now s)%nat) as Hnow1.
  { unfold now. rewrite Htr1, length_app. cbn. lia. }
  unfold ilp_step, bind at 1. rewrite Hrun1.
  unfold bind at 1, emit at 1. unfold benchmark_epilogue.
  destruct (Prefix.bytes_to_prefix label (Some " "%string)) as [value unit].
  eexists. split.
  - unfold timediff, bind, gettimeofday.
    rewrite now_emit, Hnow1. change (S (3 + now s)) with (4 + now s)%nat.
    rewrite Ht1. cbn [Z.eqb negb die_if]. unfold ret at 1. unfold ret at 1.
    unfold getrusage. rewrite now_emit, now_emit, Hnow1.
    change (S (S (3 + now s))) with (5 + now s)%nat. rewrite Hru1.
    cbn [Z.eqb Z.opp die_if]. unfold ret at 1.
    unfold get, emit, report_args. rewrite sprintf_report.
    cbn [susage eusage mapped trace fst snd]. rewrite !u64_s64. reflexivity.
  - cbn [susage eusage trace fst snd]. rewrite Htr1, Hsnap, <- !app_assoc.
    cbn [app]. do 10 f_equal. unfold usecs. f_equal. lia.
Qed.

Lemma measurement_times_the_workload_alone_witness :
  exists s',
    ilp_step quiet_os 4096 (Bench2 8) 1 initial = Ret tt s'
    /\ trace s' =
       [Prefault 4096 4096; Sys Getrusage true; Sys Gettimeofday true;
        Run (Bench2 8);
        Sys Gettimeofday true; Sys Getrusage true;
        Stdout ("step:    1 , diff: 2000000(us) hf:  0, sf  4, nvcs: 0, nivcs:  0"
                ++ nl)].
Proof.
  exact (proj1 (measurement_times_the_workload_alone quiet_os initial 4096
                  (Bench2 8) 1 (mk_rusage 0 1 0 0) (mk_rusage 0 5 0 0)
                  (mk_timeval 2 0) (mk_timeval 4 0)
                  eq_refl eq_refl eq_refl eq_refl)).
Defined.

End MeasurementFacts.

(** ** Every run of the driver, whatever the system answers *)

Section ProtocolFacts.
Import Int Printf Driver Protocol.

Lemma replay_app l evs1 evs2 :
  replay l (evs1 ++ evs2) = replay (replay l evs1) evs2.
Proof. apply foldl_app. Qed.

Lemma follows_bind {A B} nom1 nom2 (Q1 : A -> Prop) (Q2 : B -> Prop)
    (c : P A) (k : A -> P B) :
  follows nom1 Q1 c ->
  (forall a, Q1 a -> follows nom2 Q2 (k a)) ->
  follows (nom1 ++ nom2) Q2 (bind c k).
Proof.
  intros Hc Hk s. unfold bind. specialize (Hc s).
  destruct (c s) as [a s1 | code s1 |]; [| | done].
  - destruct Hc as (Ha & evs1 & Htr1 & Hsk1 & Hm1).
    specialize (Hk a Ha s1).
    destruct (k a s1) as [b s2 | code s2 |]; [| | done].
    + destruct Hk as (Hb & evs2 & Htr2 & Hsk2 & Hm2).
      split; [done |]. exists (evs1 ++ evs2).
      rewrite Htr2, Htr1, Hm2, Hm1, fmap_app, Hsk1, Hsk2, replay_app, app_assoc.
      done.
    + destruct Hk as (Hcode & pre & call & msg & rest & Htr2 & Hmsg & Hnom & Hm2).
      split; [done |]. exists (evs1 ++ pre), call, msg, rest.
      rewrite Htr2, Htr1, Hm2, Hm1, fmap_app, Hsk1, Hnom, replay_app, <- !app_assoc.
      done.
  - destruct Hc as (Hcode & pre & call & msg & rest & Htr & Hmsg & Hnom & Hm).
    split; [done |]. exists pre, call, msg, (rest ++ nom2).
    rewrite Htr, Hm, Hnom, <- !app_assoc. done.
Qed.

Lemma follows_ext {A} nom (Q : A -> Prop) (c c' : P A) :
  (forall s, c s = c' s) -> follows nom Q c -> follows nom Q c'.
Proof. intros Heq Hc s. rewrite <- Heq. apply Hc. Qed.

Lemma follows_ret {A} (Q : A -> Prop) (a : A) : Q a -> follows [] Q (ret a).
Proof.
  intros Ha s. cbn. split; [done |]. exists []. now rewrite app_nil_r.
Qed.

Lemma follows_get : follows [] (fun _ => True) get.
Proof. intros s. cbn. split; [done |]. exists []. now rewrite app_nil_r. Qed.

Lemma follows_emit e :
  keeps_regions e = true -> follows [skeleton e] (fun _ => True) (emit e).
Proof.
  intros He s. cbn. split; [done |]. exists [e]. repeat split.
  cbn. now destruct e as [[] []| | | |].
Qed.

Lemma follows_emit_report line :
  is_report (Stdout line) = true ->
  follows [Stdout "step: "] (fun _ => True) (emit (Stdout line)).
Proof.
  intros Hline. pose proof (follows_emit (Stdout line) eq_refl) as Hemit.
  cbn [skeleton] in Hemit. cbn [is_report] in Hline. now rewrite Hline in Hemit.
Qed.

Lemma follows_emit_text line :
  is_report (Stdout line) = false ->
  follows [Stdout line] (fun _ => True) (emit (Stdout line)).
Proof.
  intros Hline. pose proof (follows_emit (Stdout line) eq_refl) as Hemit.
  cbn [skeleton] in Hemit. cbn [is_report] in Hline. now rewrite Hline in Hemit.
Qed.

(** A checked call followed by more of the run. *)
Lemma follows_checked {A B} (c : syscall) (msg : string) (failed : A -> bool)
    (call : P A) nom (Q : B -> Prop) (k : A -> P B) :
  die_message c = Some msg ->
  answers c failed call ->
  (forall a, follows nom Q (k a)) ->
  follows (Sys c true :: nom) Q (a <- call ;; die_if (failed a) msg ;; k a).
Proof.
  intros Hmsg Hcall Hk s. unfold bind at 1.
  destruct (Hcall s) as (a & ok & s1 & -> & Htr1 & Hm1 & Hfailed).
  unfold bind, die_if. rewrite Hfailed. destruct ok; cbn [negb].
  - unfold ret. specialize (Hk a s1).
    destruct (k a s1) as [b s2 | code s2 |]; [| | done].
    + destruct Hk as (Hb & evs & Htr2 & Hsk & Hm2). split; [done |].
      exists (Sys c true :: evs). rewrite Htr2, Htr1, Hm2, Hm1, <- app_assoc.
      repeat split. cbn. rewrite Hsk. now destruct c.
    + destruct Hk as (Hcode & pre & call' & msg' & rest & Htr2 & Hmsg' & Hnom & Hm2).
      split; [done |]. exists (Sys c true :: pre), call', msg', rest.
      rewrite Htr2, Htr1, Hm2, Hm1, Hnom, <- !app_assoc.
      repeat split; [done |]. cbn. now destruct c.
  - unfold die. split; [done |]. exists [], c, msg, nom.
    cbn [trace mapped]. rewrite Htr1, Hm1, <- app_assoc.
    repeat split; [done |]. now destruct c.
Qed.

(** A checked call that ends a function. *)
Lemma follows_checked_last {A} (c : syscall) (msg : string) (failed : A -> bool)
    (call : P A) :
  die_message c = Some msg ->
  answers c failed call ->
  follows [Sys c true] (fun _ => True) (a <- call ;; die_if (failed a) msg).
Proof.
  intros Hmsg Hcall.
  apply (follows_ext _ _ (a <- call ;; die_if (failed a) msg ;; ret tt)).
  - intros s. unfold bind. destruct (call s) as [a s1 | |]; [| done..].
    unfold die_if. destruct (failed a); [done |]. reflexivity.
  - apply (follows_checked c msg failed call [] (fun _ => True) (fun _ => ret tt));
      [done | done |].
    intros _. now apply follows_ret.
Qed.

Lemma follows_chain (body : Z -> P unit) (nom : Z -> list event) steps :
  (forall step, follows (nom step) (fun _ => True) (body step)) ->
  follows (steps ≫= nom) (fun _ => True) (chain body steps).
Proof.
  intros Hbody. induction steps as [| step steps IH]; [now apply follows_ret |].
  change (follows (nom step ++ (steps ≫= nom)) (fun _ => True)
            (bind (body step) (fun _ => chain body steps))).
  apply (follows_bind (nom step) (steps ≫= nom) (fun _ => True)); [apply Hbody |].
  intros _ _. exact IH.
Qed.

Section WithOS.

Variable sys : os.

Lemma answers_sched_setscheduler :
  answers SchedSetscheduler (fun code => negb (code =? 0)) (sched_setscheduler sys).
Proof.
  intros s. eexists _, (setscheduler_ok sys), _. split; [reflexivity |].
  cbn [trace mapped]. repeat split. now destruct (setscheduler_ok sys).
Qed.

Lemma answers_mmap size : answers (Mmap size) negb (mmap sys size).
Proof.
  intros s. eexists _, (mmap_ok sys (now s)), _. split; [reflexivity |].
  cbn [trace mapped]. repeat split.
Qed.

Lemma answers_munmap size :
  answers (Munmap size) (fun code => code =? -1) (munmap sys size).
Proof.
  intros s. eexists _, (munmap_ok sys (now s)), _. split; [reflexivity |].
  cbn [trace mapped]. repeat split. now destruct (munmap_ok sys (now s)).
Qed.

Lemma answers_getrusage into :
  answers Getrusage (fun code => code =? -1) (getrusage sys into).
Proof.
  intros s. unfold getrusage.
  destruct (rusage_at sys (now s)) as [ru |].
  - eexists _, true, _. split; [reflexivity |]. cbn [trace mapped]. done.
  - eexists _, false, _. split; [reflexivity |]. cbn [trace mapped]. done.
Qed.

Lemma answers_gettimeofday (failed : Z -> bool) :
  failed 0 = false -> failed (-1) = true ->
  answers Gettimeofday (fun r => failed (fst r)) (gettimeofday sys).
Proof.
  intros H0 H1 s. unfold gettimeofday.
  destruct (time_at sys (now s)) as [tv |].
  - eexists _, true, _. split; [reflexivity |]. cbn [trace mapped fst]. done.
  - eexists _, false, _. split; [reflexivity |]. cbn [trace mapped fst]. done.
Qed.

Lemma follows_timediff start :
  follows [Sys Gettimeofday true] (fun _ => True) (timediff sys start).
Proof.
  apply (follows_ext _ _
           (r <- gettimeofday sys ;;
            die_if (negb (fst r =? 0)) "gettimeofday()" ;;
            ret (s64 ((tv_sec (snd r) - tv_sec start) * 1000000
                      + tv_usec (snd r) - tv_usec start)))).
  - intros s. unfold timediff, bind.
    now destruct (gettimeofday sys s) as [[code stop] s1 | |].
  - apply (follows_checked Gettimeofday "gettimeofday()"
             (fun r => negb (fst r =? 0)) (gettimeofday sys) []);
      [done | now apply (answers_gettimeofday (fun code => negb (code =? 0))) |].
    intros r. now apply follows_ret.
Qed.

Lemma follows_benchmark_prologue size :
  follows [Prefault (u64 (getpagesize sys)) size; Sys Getrusage true;
           Sys Gettimeofday true]
    (fun _ => True) (benchmark_prologue sys size).
Proof.
  unfold benchmark_prologue.
  apply (follows_bind [_] [_; _] (fun _ => True));
    [now apply (follows_emit (Prefault _ _)) | intros _ _].
  apply (follows_checked Getrusage "getrusage()" (fun code => code =? -1)
           (getrusage sys Susage) [_]); [done | apply answers_getrusage |].
  intros _.
  apply (follows_ext _ _
           (r <- gettimeofday sys ;;
            die_if (fst r =? -1) "gettimeofday()" ;; ret (snd r))).
  - intros s. unfold bind.
    now destruct (gettimeofday sys s) as [[code stop] s1 | |].
  - apply (follows_checked Gettimeofday "gettimeofday()"
             (fun r => fst r =? -1) (gettimeofday sys) []);
      [done | now apply (answers_gettimeofday (fun code => code =? -1)) |].
    intros r. now apply follows_ret.
Qed.

Lemma follows_benchmark_epilogue start step :
  follows [Sys Gettimeofday true; Sys Getrusage true; Stdout "step: "]
    (fun _ => True) (benchmark_epilogue sys start step).
Proof.
  unfold benchmark_epilogue.
  apply (follows_bind [_] [_; _] (fun _ => True));
    [apply follows_timediff | intros diff _].
  apply (follows_checked Getrusage "getrusage()" (fun code => code =? -1)
           (getrusage sys Eusage) [_]); [done | apply answers_getrusage |].
  intros _.
  destruct (Prefix.bytes_to_prefix step (Some " "%string)) as [value unit].
  apply (follows_bind [] [_] (fun _ => True)); [apply follows_get | intros s _].
  unfold report_args. rewrite sprintf_report.
  apply follows_emit_report, report_line_is_report.
Qed.

Lemma follows_measurement size w label :
  follows (measurement (u64 (getpagesize sys)) size w) (fun _ => True)
    (ilp_step sys size w label).
Proof.
  unfold ilp_step.
  apply (follows_bind [_; _; _] [_; _; _; _] (fun _ => True));
    [apply follows_benchmark_prologue | intros start _].
  apply (follows_bind [_] [_; _; _] (fun _ => True));
    [now apply (follows_emit (Run _)) | intros _ _].
  apply follows_benchmark_epilogue.
Qed.

Lemma follows_stride_step size step :
  follows (nominal_stride_step (u64 (getpagesize sys)) size step) (fun _ => True)
    (stride_step sys size step).
Proof.
  unfold stride_step, nominal_stride_step.
  apply (follows_bind [_; _; _] [_; _; _; _] (fun _ => True));
    [apply follows_benchmark_prologue | intros start _].
  apply (follows_bind [_] [_; _; _] (fun _ => True));
    [now apply (follows_emit (Run _)) | intros _ _].
  apply follows_benchmark_epilogue.
Qed.

Lemma follows_size_step step :
  follows (nominal_size_step (u64 (getpagesize sys)) step) (fun _ => True)
    (size_step sys step).
Proof.
  unfold size_step, nominal_size_step. cbv zeta.
  apply (follows_checked (Mmap _) "mmap()" negb (mmap sys _));
    [done | apply answers_mmap | intros _].
  apply (follows_bind [_; _; _] ([_; _; _; _] ++ [_]) (fun _ => True));
    [apply follows_benchmark_prologue | intros start _].
  apply (follows_bind [_] ([_; _; _] ++ [_]) (fun _ => True));
    [now apply (follows_emit (Run _)) | intros _ _].
  apply (follows_bind [_; _; _] [_] (fun _ => True));
    [apply follows_benchmark_epilogue | intros _ _].
  now apply (follows_checked_last (Munmap _) "munmap()" (fun code => code =? -1)),
    answers_munmap.
Qed.

Lemma follows_example2 :
  follows (nominal_example2 (u64 (getpagesize sys))) (fun _ => True)
    (example2 sys 64).
Proof.
  unfold example2, nominal_example2. cbv zeta.
  apply (follows_bind [_] (_ :: _) (fun _ => True));
    [now apply follows_emit_text | intros _ _].
  apply (follows_checked (Mmap _) "mmap()" negb (mmap sys _));
    [done | apply answers_mmap | intros _].
  rewrite stride_sweep_unrolled.
  apply (follows_bind _ [_] (fun _ => True));
    [apply follows_chain, follows_stride_step | intros _ _].
  now apply (follows_checked_last (Munmap _) "munmap()" (fun code => code =? -1)),
    answers_munmap.
Qed.

Lemma follows_example3 :
  follows (nominal_example3 (u64 (getpagesize sys))) (fun _ => True)
    (example3 sys 64).
Proof.
  unfold example3, nominal_example3.
  apply (follows_bind [_] _ (fun _ => True));
    [now apply follows_emit_text | intros _ _].
  rewrite size_sweep_unrolled. apply follows_chain, follows_size_step.
Qed.

Lemma follows_example4 :
  follows (nominal_example4 (u64 (getpagesize sys))) (fun _ => True)
    (example4 sys).
Proof.
  unfold example4, nominal_example4. cbv zeta.
  apply (follows_bind [_] (_ :: _) (fun _ => True));
    [now apply follows_emit_text | intros _ _].
  apply (follows_checked (Mmap _) "mmap()" negb (mmap sys _));
    [done | apply answers_mmap | intros _].
  apply (follows_bind _ (_ ++ [_]) (fun _ => True));
    [apply follows_measurement | intros _ _].
  apply (follows_bind _ [_] (fun _ => True));
    [apply follows_measurement | intros _ _].
  now apply (follows_checked_last (Munmap _) "munmap()" (fun code => code =? -1)),
    answers_munmap.
Qed.

Lemma follows_main :
  follows (nominal_main (u64 (getpagesize sys))) (fun code => code = 0)
    (main sys 64).
Proof.
  unfold main, nominal_main.
  apply (follows_bind [_] (_ :: _) (fun _ => True)).
  { unfold sched_setaffinity.
    apply (follows_bind [_] [] (fun _ => True));
      [now apply (follows_emit (Sys SchedSetaffinity _)) | intros _ _].
    now apply follows_ret. }
  intros _ _.
  apply (follows_checked SchedSetscheduler "sched_setscheduler()"
           (fun code => negb (code =? 0)) (sched_setscheduler sys));
    [done | apply answers_sched_setscheduler | intros _].
  apply (follows_bind _ _ (fun _ => True)); [apply follows_example2 | intros _ _].
  apply (follows_bind _ _ (fun _ => True)); [apply follows_example3 | intros _ _].
  rewrite <- (app_nil_r (nominal_example4 _)).
  apply (follows_bind _ [] (fun _ => True)); [apply follows_example4 | intros _ _].
  now apply follows_ret.
Qed.

End WithOS.

End ProtocolFacts.

(** ** What every run has in common *)

Section RunResults.
Import Int Printf Driver Protocol.

Lemma replay_skeleton l evs : replay l (skeleton <$> evs) = replay l evs.
Proof.
  revert l. induction evs as [| e evs IH]; intros l; [done |].
  change (replay (replay_event l (skeleton e)) (skeleton <$> evs)
          = replay (replay_event l e) evs).
  rewrite IH. f_equal.
  destruct e as [[] [] | | | s |]; try reflexivity.
  cbn [skeleton]. now destruct (starts_with "step: " s).
Qed.

Lemma replay_keeps l evs : forallb keeps_regions evs = true -> replay l evs = l.
Proof.
  induction evs as [| e evs IH]; [done |]. cbn [forallb].
  intros [He Hevs]%andb_prop.
  change (replay (replay_event l e) evs = l).
  replace (replay_event l e) with l; [exact (IH Hevs) |].
  now destruct e as [[] [] | | | |].
Qed.

Lemma replay_region size mid l :
  replay l mid = l ->
  replay (size :: l) mid = size :: l ->
  replay l (Sys (Mmap size) true :: mid ++ [Sys (Munmap size) true]) = l.
Proof.
  intros _ Hmid. change (replay l (Sys (Mmap size) true :: ?evs))
    with (replay (size :: l) evs).
  rewrite replay_app, Hmid. cbn. now rewrite Z.eqb_refl.
Qed.

Lemma replay_bind (f : Z -> list event) steps l :
  (forall step l, replay l (f step) = l) -> replay l (steps ≫= f) = l.
Proof.
  intros Hf. induction steps as [| step steps IH]; [done |].
  change ((step :: steps) ≫= f) with (f step ++ (steps ≫= f)).
  now rewrite replay_app, Hf.
Qed.

Lemma replay_measurement ps size w l : replay l (measurement ps size w) = l.
Proof. now apply replay_keeps. Qed.

(** A run without a failure leaves mapped what was mapped before it. *)
Lemma replay_nominal_main ps l : replay l (nominal_main ps) = l.
Proof.
  unfold nominal_main. rewrite !replay_app.
  rewrite (replay_keeps l [_; _]) by done.
  assert (replay l (nominal_example2 ps) = l) as ->.
  { unfold nominal_example2. cbv zeta.
    change (replay l (Stdout ?t :: ?evs)) with (replay l evs).
    apply replay_region; apply replay_bind; intros step l';
      apply replay_measurement. }
  assert (replay l (nominal_example3 ps) = l) as ->.
  { unfold nominal_example3.
    change (replay l (Stdout ?t :: ?evs)) with (replay l evs).
    apply replay_bind. intros step l'. unfold nominal_size_step. cbv zeta.
    apply replay_region; apply replay_measurement. }
  unfold nominal_example4.
  change (replay l (Stdout ?t :: ?evs)) with (replay l evs).
  rewrite app_assoc. apply replay_region; now apply replay_keeps.
Qed.

Lemma failed_check_skeleton e : failed_check (skeleton e) = failed_check e.
Proof.
  destruct e as [[] [] | | | s |]; try reflexivity.
  cbn [skeleton]. now destruct (starts_with "step: " s).
Qed.

Lemma is_run_skeleton e : is_run (skeleton e) = is_run e.
Proof.
  destruct e as [[] [] | | | s |]; try reflexivity.
  cbn [skeleton]. now destruct (starts_with "step: " s).
Qed.

Lemma is_report_skeleton e : is_report (skeleton e) = is_report e.
Proof.
  destruct e as [[] [] | | | s |]; try reflexivity.
  cbn [skeleton]. now destruct (starts_with "step: " s) eqn:E; cbn; rewrite ?E.
Qed.

Lemma count_skeleton (p : event -> bool) evs :
  (forall e, p (skeleton e) = p e) ->
  count p (skeleton <$> evs) = count p evs.
Proof.
  intros Hp. unfold count. induction evs as [| e evs IH]; [done |].
  cbn. rewrite Hp. destruct (p e); cbn; now rewrite IH.
Qed.

Lemma count_nominal_main ps :
  count failed_check (nominal_main ps) = 0%nat
  /\ count is_run (nominal_main ps) = 36%nat
  /\ count is_report (nominal_main ps) = 36%nat.
Proof. vm_compute. done. Qed.

(** Every run of [main] ends, in one of two ways. Either it returns 0:
    its events are then the nominal sequence (affinity and scheduler
    setup, the three experiments with their headers, map calls, 36
    measurements and unmap calls), and what was mapped before is what is
    mapped after. Or it exits with status 1: its events are then an
    initial part of the nominal sequence in which no checked call failed,
    the failure of the checked call that comes next, and the message
    [perror] prints for that call; nothing follows the message. *)
Theorem main_returns_or_aborts_at_first_failure (sys : os) (s : proc) :
  (exists s' evs,
      main sys 64 s = Ret 0 s'
      /\ trace s' = trace s ++ evs
      /\ skeleton <$> evs = nominal_main (u64 (getpagesize sys))
      /\ mapped s' = mapped s)
  \/ (exists s' pre call msg rest,
        main sys 64 s = Exit 1 s'
        /\ trace s' = trace s ++ pre ++ [Sys call false; Perror msg]
        /\ die_message call = Some msg
        /\ nominal_main (u64 (getpagesize sys))
           = (skeleton <$> pre) ++ Sys call true :: rest
        /\ count failed_check pre = 0%nat).
Proof.
  pose proof (follows_main sys s) as Hrun.
  destruct (main sys 64 s) as [code s' | code s' |]; [| | done].
  - destruct Hrun as (-> & evs & Htr & Hsk & Hm). left. exists s', evs.
    repeat split; try done.
    now rewrite Hm, <- replay_skeleton, Hsk, replay_nominal_main.
  - destruct Hrun as (-> & pre & call & msg & rest & Htr & Hmsg & Hnom & Hm).
    right. exists s', pre, call, msg, rest. repeat split; try done.
    destruct (count_nominal_main (u64 (getpagesize sys))) as (Hnone & _).
    rewrite Hnom, count_app, (count_skeleton _ _ failed_check_skeleton) in Hnone.
    lia.
Qed.

(** The exit status tells whether a checked call failed. A run started
    from scratch returns 0 when none of the calls the driver checks
    failed, after 36 workload calls and 36 report lines; it exits with
    status 1 when one failed, and never sees a second failure. *)
Theorem exit_status_counts_failures (sys : os) :
  (exit_status (main sys 64 initial) = Some 0
   /\ count failed_check (final_trace (main sys 64 initial)) = 0%nat
   /\ count is_run (final_trace (main sys 64 initial)) = 36%nat
   /\ count is_report (final_trace (main sys 64 initial)) = 36%nat)
  \/ (exit_status (main sys 64 initial) = Some 1
      /\ count failed_check (final_trace (main sys 64 initial)) = 1%nat).
Proof.
  pose proof (follows_main sys initial) as Hrun.
  destruct (count_nominal_main (u64 (getpagesize sys))) as (Hnone & Hruns & Hreports).
  destruct (main sys 64 initial) as [code s' | code s' |]; [| | done].
  - destruct Hrun as (-> & evs & Htr & Hsk & _). left.
    cbn [exit_status final_trace]. rewrite Htr. cbn [initial trace app].
    rewrite <- Hsk in Hnone, Hruns, Hreports.
    rewrite (count_skeleton _ _ failed_check_skeleton) in Hnone.
    rewrite (count_skeleton _ _ is_run_skeleton) in Hruns.
    rewrite (count_skeleton _ _ is_report_skeleton) in Hreports.
    done.
  - destruct Hrun as (-> & pre & call & msg & rest & Htr & Hmsg & Hnom & _).
    right. cbn [exit_status final_trace]. rewrite Htr. cbn [initial trace app].
    rewrite Hnom, count_app, (count_skeleton _ _ failed_check_skeleton) in Hnone.
    rewrite count_app. split; [done |].
    replace (count failed_check pre) with 0%nat by lia.
    unfold count. cbn. now rewrite Hmsg.
Qed.

End RunResults.

(** ** Regions and workload calls in every run *)

Section RegionResults.
Import Int Printf Driver Protocol.

Lemma calls_skeleton l evs : calls l (skeleton <$> evs) = calls l evs.
Proof.
  revert l. induction evs as [| e evs IH]; intros l; [done |].
  destruct e as [[] [] | | | s |]; cbn [fmap list_fmap skeleton calls];
    rewrite ?IH; try reflexivity.
  destruct (starts_with "step: " s); cbn [calls]; rewrite ?IH; reflexivity.
Qed.

Lemma calls_app l evs1 evs2 :
  calls l (evs1 ++ evs2) = calls l evs1 ++ calls (replay l evs1) evs2.
Proof.
  revert l. induction evs1 as [| e evs1 IH]; intros l; [done |].
  change (replay l (e :: evs1)) with (replay (replay_event l e) evs1).
  destruct e as [[] [] | | | |]; cbn [app calls replay_event];
    rewrite ?IH; reflexivity.
Qed.

Ltac quotient_by_4 :=
  repeat match goal with
         | |- context [?a / 4] =>
             lazymatch a with
             | Zpos _ => let v := eval vm_compute in (a / 4) in change (a / 4) with v
             end
         end.

Ltac well_called_here :=
  cbn [well_called fst snd]; quotient_by_4;
  repeat match goal with
         | |- _ /\ _ => split
         | |- exists k, _ /\ ?len = 2 ^ k =>
             exists (Z.log2 len); split; [vm_compute; split; congruence | reflexivity]
         end;
  lia.

(** The workload calls of a run without a failure, each within the
    region mapped for it. *)
Lemma nominal_calls_well_called ps :
  8 <= ps ->
  Forall (fun c => well_called (fst c) (Z.to_nat (snd c / 4)))
    (calls [] (nominal_main ps)).
Proof.
  intros Hps.
  assert (2 <= Z.to_nat (ps / 4))%nat as Hpage.
  { assert (2 <= ps / 4) by (apply Z.div_le_lower_bound; lia). lia. }
  set (l := calls [] (nominal_main ps)). vm_compute in l. subst l.
  repeat (constructor; [first [well_called_here | cbn; split; [lia | exact Hpage]] |]).
  constructor.
Qed.

(** In every run, whichever calls fail, each workload is called the way
    its loop needs for the region mapped at the time, taken as a buffer of
    4-byte elements: the strided scan with a positive step and its element
    count within the region, the aliasing workload with a power-of-two
    length within the region, the increment workloads on at least two
    elements. The page is at least 8 bytes long. *)
Theorem every_run_calls_workloads_within_region (sys : os) :
  8 <= u64 (getpagesize sys) ->
  Forall (fun c => well_called (fst c) (Z.to_nat (snd c / 4)))
    (calls [] (final_trace (main sys 64 initial))).
Proof.
  intros Hps.
  pose proof (nominal_calls_well_called _ Hps) as Hnom.
  pose proof (follows_main sys initial) as Hrun.
  destruct (main sys 64 initial) as [code s' | code s' |]; [| | constructor].
  - destruct Hrun as (_ & evs & Htr & Hsk & _).
    cbn [final_trace]. rewrite Htr. cbn [initial trace app].
    now rewrite <- calls_skeleton, Hsk.
  - destruct Hrun as (_ & pre & call & msg & rest & Htr & _ & Hsk & _).
    cbn [final_trace]. rewrite Htr. cbn [initial trace app].
    rewrite calls_app.
    replace (calls _ [Sys call false; Perror msg]) with (@nil (workload * Z))
      by now destruct call.
    rewrite app_nil_r.
    rewrite Hsk, calls_app, calls_skeleton in Hnom.
    now apply Forall_app in Hnom as [Hpre _].
Qed.

Lemma every_run_calls_workloads_within_region_witness :
  Forall (fun c => well_called (fst c) (Z.to_nat (snd c / 4)))
    (calls [] (final_trace (main unpinned_os 64 initial))).
Proof.
  apply (every_run_calls_workloads_within_region unpinned_os).
  now vm_compute.
Defined.

Lemma nominal_main_length ps : length (nominal_main ps) = 303%nat.
Proof. reflexivity. Qed.

Lemma nominal_regions ps n :
  (length (replay [] (take n (nominal_main ps))) <= 1)%nat.
Proof.
  destruct (le_lt_dec 303 n) as [Hall | Hpart].
  - rewrite take_ge by (rewrite nominal_main_length; lia).
    rewrite replay_nominal_main. cbn. lia.
  - assert (forallb (fun n => length (replay [] (take n (nominal_main ps))) <=? 1)%nat
              (seq 0 303) = true) as Hcheck by (vm_compute; reflexivity).
    rewrite forallb_forall in Hcheck.
    apply Nat.leb_le, Hcheck, in_seq. lia.
Qed.

(** No run ever holds two regions at once: after any number of events
    of any run, whichever calls fail, at most one region is mapped. *)
Theorem one_region_at_a_time (sys : os) (n : nat) :
  (length (replay [] (take n (final_trace (main sys 64 initial)))) <= 1)%nat.
Proof.
  pose proof (follows_main sys initial) as Hrun.
  destruct (main sys 64 initial) as [code s' | code s' |];
    [| | cbn; rewrite take_nil; cbn; lia].
  - destruct Hrun as (_ & evs & Htr & Hsk & _).
    cbn [final_trace]. rewrite Htr. cbn [initial trace app].
    rewrite <- replay_skeleton, fmap_take, Hsk. apply nominal_regions.
  - destruct Hrun as (_ & pre & call & msg & rest & Htr & _ & Hsk & _).
    cbn [final_trace]. rewrite Htr. cbn [initial trace app].
    assert (forall k, (k <= length pre)%nat ->
              (length (replay [] (take k pre)) <= 1)%nat) as Hpre.
    { intros k Hk. rewrite <- replay_skeleton, fmap_take.
      rewrite <- (take_app_le _ (Sys call true :: rest)), <- Hsk
        by (rewrite length_fmap; lia).
      apply nominal_regions. }
    destruct (le_lt_dec n (length pre)) as [Hin | Hout].
    + rewrite take_app_le by done. now apply Hpre.
    + rewrite take_app_ge, replay_app by lia.
      rewrite (replay_keeps _ (take _ _)).
      * rewrite <- (firstn_all pre). now apply Hpre.
      * destruct call; now destruct (n - length pre)%nat as [| [| [| k]]].
Qed.

End RegionResults.

(** ** The timer and the pre-faulting calls *)

Section TimerFacts.
Import Int Printf Driver Protocol Further.

(** [timediff] returns the microseconds between [start] and the time of
    the call, exactly, when they fit the [time_t] it returns; it makes one
    call to the clock. *)
Theorem timediff_elapsed_microseconds
    (sys : os) (start stop : timeval) (s : proc) :
  time_at sys (now s) = Some stop ->
  - 2 ^ 63 <= usecs stop - usecs start < 2 ^ 63 ->
  timediff sys start s
  = Ret (usecs stop - usecs start)
      (mk_proc (susage s) (eusage s) (mapped s)
         (trace s ++ [Sys Gettimeofday true])).
Proof.
  intros Htime Hfit. unfold timediff, bind, gettimeofday. rewrite Htime.
  cbn [Z.eqb negb die_if]. unfold ret. f_equal.
  unfold usecs in *. rewrite s64_small by lia. lia.
Qed.

Lemma timediff_elapsed_microseconds_witness :
  timediff quiet_os (mk_timeval 1 999999) initial
  = Ret (- 1999999)
      (mk_proc zero_rusage zero_rusage [] [Sys Gettimeofday true]).
Proof.
  apply (timediff_elapsed_microseconds quiet_os (mk_timeval 1 999999)
           (mk_timeval 0 0) initial).
  - reflexivity.
  - vm_compute. split; [discriminate | reflexivity].
Defined.

Lemma prefaults_skeleton l evs : prefaults l (skeleton <$> evs) = prefaults l evs.
Proof.
  revert l. induction evs as [| e evs IH]; intros l; [done |].
  destruct e as [[] [] | | | s |]; cbn [fmap list_fmap skeleton prefaults];
    rewrite ?IH; try reflexivity.
  destruct (starts_with "step: " s); cbn [prefaults]; rewrite ?IH; reflexivity.
Qed.

Lemma prefaults_app l evs1 evs2 :
  prefaults l (evs1 ++ evs2) = prefaults l evs1 ++ prefaults (replay l evs1) evs2.
Proof.
  revert l. induction evs1 as [| e evs1 IH]; intros l; [done |].
  change (replay l (e :: evs1)) with (replay (replay_event l e) evs1).
  destruct e as [[] [] | | | |]; cbn [app prefaults replay_event];
    rewrite ?IH; reflexivity.
Qed.

Lemma nominal_prefaults ps :
  Forall (fun c => fst (fst c) = ps /\ snd c = [snd (fst c)])
    (prefaults [] (nominal_main ps)).
Proof.
  set (l := prefaults [] (nominal_main ps)). vm_compute in l. subst l.
  repeat (constructor; [split; reflexivity |]). constructor.
Qed.

(** In every run, whichever calls fail, each pre-faulting pass is made
    while exactly one region is mapped, and it is given the page size of
    the system and the size of that region: it walks the whole region and
    no further. *)
Theorem every_run_prefaults_the_mapped_region (sys : os) :
  Forall (fun c => fst (fst c) = u64 (getpagesize sys) /\ snd c = [snd (fst c)])
    (prefaults [] (final_trace (main sys 64 initial))).
Proof.
  pose proof (nominal_prefaults (u64 (getpagesize sys))) as Hnom.
  pose proof (follows_main sys initial) as Hrun.
  destruct (main sys 64 initial) as [code s' | code s' |]; [| | constructor].
  - destruct Hrun as (_ & evs & Htr & Hsk & _).
    cbn [final_trace]. rewrite Htr. cbn [initial trace app].
    now rewrite <- prefaults_skeleton, Hsk.
  - destruct Hrun as (_ & pre & call & msg & rest & Htr & _ & Hsk & _).
    cbn [final_trace]. rewrite Htr. cbn [initial trace app].
    rewrite prefaults_app.
    replace (prefaults _ [Sys call false; Perror msg]) with (@nil (Z * Z * list Z))
      by now destruct call.
    rewrite app_nil_r.
    rewrite Hsk, prefaults_app, prefaults_skeleton in Hnom.
    now apply Forall_app in Hnom as [Hpre _].
Qed.

End TimerFacts.

(** ** The cache enumeration *)

Section EnumerateFacts.
Import Int Printf Enumerate.

Lemma land_low z n : 0 <= n -> Z.land z (2 ^ n - 1) = z mod 2 ^ n.
Proof.
  intros Hn. change (2 ^ n - 1) with (Z.pred (2 ^ n)).
  rewrite <- Z.ones_equiv. now apply Z.land_ones.
Qed.

(** A one-bit mask converted to [bool] is that bit. *)
Lemma to_bool_mask z k : 0 <= k -> to_bool (Z.land z (2 ^ k)) = Z.testbit z k.
Proof.
  intros Hk. unfold to_bool.
  destruct (Z.eqb_spec (Z.land z (2 ^ k)) 0) as [H0 | Hne]; cbn [negb].
  - apply (f_equal (fun x => Z.testbit x k)) in H0.
    rewrite Z.land_spec, Z.pow2_bits_true, Z.bits_0, andb_true_r in H0 by done.
    now symmetry.
  - destruct (Z.testbit z k) eqn:E; [done |]. exfalso. apply Hne.
    apply Z.bits_inj'. intros n Hn. rewrite Z.land_spec, Z.bits_0.
    destruct (Z.eq_dec n k) as [-> | ?]; [now rewrite E |].
    rewrite Z.pow2_bits_false by lia. apply andb_false_r.
Qed.

Lemma u32_mul_idemp a b : u32 (u32 a * b) = u32 (a * b).
Proof. unfold u32, wrap. now rewrite Z.mul_mod_idemp_l by lia. Qed.

(** The fields as digits of the registers. *)
Lemma decode_unfold r :
  decode r =
  let eax := u32 (reg_eax r) in
  let ebx := u32 (reg_ebx r) in
  let ways := ebx / 2 ^ 22 mod 2 ^ 10 + 1 in
  let line_partitions := ebx / 2 ^ 12 mod 2 ^ 10 + 1 in
  let line_size := ebx mod 2 ^ 12 + 1 in
  let sets := u32 (u32 (reg_ecx r) + 1) in
  mk_cache (eax mod 2 ^ 5) (eax / 2 ^ 5 mod 2 ^ 3)
    (Z.testbit eax 8) (Z.testbit eax 9)
    line_size line_partitions ways sets
    (Z.testbit (u32 (reg_edx r)) 0)
    (Z.testbit (u32 (reg_edx r)) 1)
    (Z.testbit (u32 (reg_edx r)) 2)
    ((ways * line_partitions * line_size * sets) mod 2 ^ 32).
Proof.
  unfold decode. cbv zeta.
  pose proof (u32_range (reg_eax r)) as Ha.
  pose proof (u32_range (reg_ebx r)) as Hb.
  set (eax := u32 (reg_eax r)) in *. set (ebx := u32 (reg_ebx r)) in *.
  set (edx := u32 (reg_edx r)).
  change 0x1F with (2 ^ 5 - 1). change 0x7 with (2 ^ 3 - 1).
  change 0xFFF with (2 ^ 12 - 1). change 0x3FF with (2 ^ 10 - 1).
  change (Z.land ?z 0x1) with (Z.land z (2 ^ 0)).
  change (Z.land ?z 0x2) with (Z.land z (2 ^ 1)).
  change (Z.land ?z 0x4) with (Z.land z (2 ^ 2)).
  rewrite !to_bool_mask by lia.
  rewrite !land_low by lia.
  rewrite !Z.shiftr_shiftr, !Z.shiftr_spec, !Z.add_0_l by lia.
  change (5 + 3 + 1) with 9. change (5 + 3) with 8. change (12 + 10) with 22.
  rewrite !Z.shiftr_div_pow2 by lia.
  assert (0 <= ebx mod 2 ^ 12 < 2 ^ 12) by (apply Z.mod_pos_bound; lia).
  assert (0 <= ebx / 2 ^ 12 mod 2 ^ 10 < 2 ^ 10) by (apply Z.mod_pos_bound; lia).
  assert (0 <= ebx / 2 ^ 22 mod 2 ^ 10 < 2 ^ 10) by (apply Z.mod_pos_bound; lia).
  rewrite !(u32_small (_ mod _ + 1)) by lia.
  f_equal.
  set (w := ebx / 2 ^ 22 mod 2 ^ 10 + 1).
  set (p := ebx / 2 ^ 12 mod 2 ^ 10 + 1).
  set (l := ebx mod 2 ^ 12 + 1).
  set (s := u32 (u32 (reg_ecx r) + 1)).
  rewrite (u64_small (u32 _))
    by (pose proof (u32_range (u32 (u32 (w * p) * l) * s)); lia).
  rewrite u32_mul_idemp, <- Z.mul_assoc, u32_mul_idemp, Z.mul_assoc. reflexivity.
Qed.

(** Every decoded field is a 32-bit value. *)
Lemma decode_bounds (r : regs) :
  0 <= type (decode r) <= 31
  /\ 0 <= level (decode r) < 2 ^ 32
  /\ 0 <= line_size (decode r) < 2 ^ 32
  /\ 0 <= line_partitions (decode r) < 2 ^ 32
  /\ 0 <= ways (decode r) < 2 ^ 32
  /\ 0 <= sets (decode r) < 2 ^ 32
  /\ 0 <= total_size (decode r) < 2 ^ 32.
Proof.
  unfold decode. cbv zeta. cbn [type level line_size line_partitions ways
    sets total_size].
  change 0x1F with (2 ^ 5 - 1). change 0x7 with (2 ^ 3 - 1).
  rewrite !land_low by lia.
  rewrite u64_small
    by (match goal with |- _ <= u32 ?z < _ => pose proof (u32_range z) end; lia).
  pose proof (Z.mod_pos_bound (u32 (reg_eax r)) (2 ^ 5)).
  pose proof (Z.mod_pos_bound (Z.shiftr (u32 (reg_eax r)) 5) (2 ^ 3)).
  repeat split; try apply u32_range; lia.
Qed.

(** Whatever the registers hold, the decoded fields are in the range of
    their bit fields: a type of 0 to 31, a level of 0 to 7, a line size of
    1 to 4096, 1 to 1024 line partitions and ways; the number of sets is
    computed modulo 2^32 and can be 0; the total size is the product of
    ways, partitions, line size and sets modulo 2^32, the product being
    formed in [unsigned] arithmetic before it is widened to [size_t]. *)
Theorem decoded_fields_in_range (r : regs) :
  0 <= type (decode r) <= 31
  /\ 0 <= level (decode r) <= 7
  /\ 1 <= line_size (decode r) <= 4096
  /\ 1 <= line_partitions (decode r) <= 1024
  /\ 1 <= ways (decode r) <= 1024
  /\ sets (decode r) = (u32 (reg_ecx r) + 1) mod 2 ^ 32
  /\ total_size (decode r)
     = (ways (decode r) * line_partitions (decode r) * line_size (decode r)
        * sets (decode r)) mod 2 ^ 32.
Proof.
  rewrite decode_unfold. cbv zeta. cbn [type level line_size line_partitions ways
    sets total_size].
  pose proof (Z.mod_pos_bound (u32 (reg_eax r)) (2 ^ 5)).
  pose proof (Z.mod_pos_bound (u32 (reg_eax r) / 2 ^ 5) (2 ^ 3)).
  pose proof (Z.mod_pos_bound (u32 (reg_ebx r)) (2 ^ 12)).
  pose proof (Z.mod_pos_bound (u32 (reg_ebx r) / 2 ^ 12) (2 ^ 10)).
  pose proof (Z.mod_pos_bound (u32 (reg_ebx r) / 2 ^ 22) (2 ^ 10)).
  repeat split; try lia.
Qed.

Lemma digit_mod a b n : 0 <= a < n -> (a + n * b) mod n = a.
Proof.
  intros Ha. rewrite (Z.mul_comm n b), Z.mod_add by lia.
  now apply Z.mod_small.
Qed.

Lemma digit_div a b n : 0 <= a < n -> (a + n * b) / n = b.
Proof.
  intros Ha. rewrite (Z.mul_comm n b), Z.div_add by lia.
  rewrite (Z.div_small a n) by lia. lia.
Qed.

Lemma digit_bit a b k bit :
  0 <= k -> 0 <= a < 2 ^ k ->
  Z.testbit (a + 2 ^ k * (Z.b2z bit + 2 * b)) k = bit.
Proof.
  intros Hk Ha. rewrite Z.testbit_odd, Z.shiftr_div_pow2, digit_div by lia.
  rewrite Z.odd_add_mul_2. now destruct bit.
Qed.

(** The decoding agrees with the register layout documented at the top
    of the file: from the registers that hold a cache's fields in the
    documented bit positions, the in-place shifts and masks get every field
    back, whatever the other bits hold: the three stored less one are
    incremented, and the total size is the product of the four counts
    modulo 2^32. *)
Theorem decode_reads_documented_layout
    (t lv : Z) (si fa : bool) (ids : Z) (ls lp w s : Z) (wb incl idx : bool)
    (spare : Z) :
  0 <= t < 2 ^ 5 -> 0 <= lv < 2 ^ 3 -> 0 <= ids < 2 ^ 22 ->
  1 <= ls <= 2 ^ 12 -> 1 <= lp <= 2 ^ 10 -> 1 <= w <= 2 ^ 10 ->
  1 <= s <= 2 ^ 32 -> 0 <= spare < 2 ^ 29 ->
  decode (leaf4 t lv si fa ids ls lp w s wb incl idx spare)
  = mk_cache t lv si fa ls lp w (s mod 2 ^ 32) wb incl idx
      ((w * lp * ls * (s mod 2 ^ 32)) mod 2 ^ 32).
Proof.
  intros Ht Hlv Hids Hls Hlp Hw Hs Hspare.
  rewrite decode_unfold. unfold leaf4. cbn [reg_eax reg_ebx reg_ecx reg_edx].
  assert (0 <= Z.b2z si <= 1) by (destruct si; cbn; lia).
  assert (0 <= Z.b2z fa <= 1) by (destruct fa; cbn; lia).
  assert (0 <= Z.b2z wb <= 1) by (destruct wb; cbn; lia).
  assert (0 <= Z.b2z incl <= 1) by (destruct incl; cbn; lia).
  assert (0 <= Z.b2z idx <= 1) by (destruct idx; cbn; lia).
  set (eax := t + 2 ^ 5 * lv + 2 ^ 8 * Z.b2z si + 2 ^ 9 * Z.b2z fa + 2 ^ 10 * ids).
  set (ebx := ls - 1 + 2 ^ 12 * (lp - 1) + 2 ^ 22 * (w - 1)).
  set (edx := Z.b2z wb + 2 * Z.b2z incl + 4 * Z.b2z idx + 8 * spare).
  rewrite (u32_small eax), (u32_small ebx), (u32_small edx), (u32_small (s - 1))
    by (unfold eax, ebx, edx; lia).
  cbv zeta.
  assert (eax mod 2 ^ 5 = t) as ->.
  { replace eax with (t + 2 ^ 5 * (lv + 8 * Z.b2z si + 16 * Z.b2z fa + 32 * ids))
      by (unfold eax; lia).
    now apply digit_mod. }
  assert (eax / 2 ^ 5 mod 2 ^ 3 = lv) as ->.
  { replace eax with (t + 2 ^ 5 * (lv + 2 ^ 3 * (Z.b2z si + 2 * Z.b2z fa + 4 * ids)))
      by (unfold eax; lia).
    rewrite digit_div by lia. now apply digit_mod. }
  assert (Z.testbit eax 8 = si) as ->.
  { replace eax with (t + 2 ^ 5 * lv + 2 ^ 8 * (Z.b2z si + 2 * (Z.b2z fa + 2 * ids)))
      by (unfold eax; lia).
    apply digit_bit; lia. }
  assert (Z.testbit eax 9 = fa) as ->.
  { replace eax
      with (t + 2 ^ 5 * lv + 2 ^ 8 * Z.b2z si + 2 ^ 9 * (Z.b2z fa + 2 * ids))
      by (unfold eax; lia).
    apply digit_bit; lia. }
  assert (ebx mod 2 ^ 12 + 1 = ls) as ->.
  { replace ebx with (ls - 1 + 2 ^ 12 * (lp - 1 + 2 ^ 10 * (w - 1)))
      by (unfold ebx; lia).
    rewrite digit_mod by lia. lia. }
  assert (ebx / 2 ^ 12 mod 2 ^ 10 + 1 = lp) as ->.
  { replace ebx with (ls - 1 + 2 ^ 12 * (lp - 1 + 2 ^ 10 * (w - 1)))
      by (unfold ebx; lia).
    rewrite digit_div, digit_mod by lia. lia. }
  assert (ebx / 2 ^ 22 mod 2 ^ 10 + 1 = w) as ->.
  { replace ebx with (ls - 1 + 2 ^ 12 * (lp - 1) + 2 ^ 22 * (w - 1 + 2 ^ 10 * 0))
      by (unfold ebx; lia).
    rewrite digit_div, digit_mod by lia. lia. }
  assert (Z.testbit edx 0 = wb) as ->.
  { replace edx
      with (0 + 2 ^ 0 * (Z.b2z wb + 2 * (Z.b2z incl + 2 * Z.b2z idx + 4 * spare)))
      by (unfold edx; lia).
    apply digit_bit; lia. }
  assert (Z.testbit edx 1 = incl) as ->.
  { replace edx
      with (Z.b2z wb + 2 ^ 1 * (Z.b2z incl + 2 * (Z.b2z idx + 2 * spare)))
      by (unfold edx; lia).
    apply digit_bit; lia. }
  assert (Z.testbit edx 2 = idx) as ->.
  { replace edx
      with (Z.b2z wb + 2 * Z.b2z incl + 2 ^ 2 * (Z.b2z idx + 2 * spare))
      by (unfold edx; lia).
    apply digit_bit; lia. }
  replace (s - 1 + 1) with s by lia. reflexivity.
Qed.

Lemma decode_reads_documented_layout_witness :
  decode (leaf4 1 1 true false 0 64 1 8 64 false false false 0)
  = mk_cache 1 1 true false 64 1 8 64 false false false 32768.
Proof.
  exact (decode_reads_documented_layout 1 1 true false 0 64 1 8 64
           false false false 0
           ltac:(lia) ltac:(lia) ltac:(lia) ltac:(lia) ltac:(lia) ltac:(lia)
           ltac:(lia) ltac:(lia)).
Defined.

Lemma sprintf_row l a1 s1 n a2 a3 a4 a5 s2 a6 u f1 f2 f3 :
  sprintf row_format
    [ArgS l; ArgU a1; ArgS s1; ArgS n; ArgU a2; ArgU a3; ArgU a4; ArgU a5;
     ArgS s2; ArgU a6; ArgS u; ArgS f1; ArgS f2; ArgS f3]
  = (lpad 2 l ++ dec (u64 a1) ++ s1
     ++ " " ++ lpad 8 n
     ++ " " ++ lpad 6 (dec (u64 a2))
     ++ " " ++ lpad 8 (dec (u64 a3))
     ++ " " ++ lpad 8 (dec (u64 a4))
     ++ " " ++ lpad 8 (dec (u64 a5)) ++ s2
     ++ " " ++ lpad 8 (dec (u64 a6)) ++ u
     ++ " " ++ lpad 4 f1
     ++ " " ++ lpad 6 f2
     ++ " " ++ lpad 6 f3 ++ nl)%string.
Proof. reflexivity. Qed.

Lemma shift10_bound b : 0 <= b -> 0 <= Z.shiftr b 10 <= b.
Proof.
  intros Hb. rewrite Z.shiftr_div_pow2 by lia. split.
  - apply Z.div_pos; lia.
  - apply Z.div_le_upper_bound; lia.
Qed.

Lemma bytes_to_prefix_bound b s :
  0 <= b -> 0 <= fst (bytes_to_prefix b s) <= b.
Proof.
  intros Hb. unfold bytes_to_prefix. destruct s as [p |]; [| cbn; lia].
  pose proof (shift10_bound b Hb) as H1.
  pose proof (shift10_bound (Z.shiftr b 10) ltac:(lia)) as H2.
  pose proof (shift10_bound (Z.shiftr (Z.shiftr b 10) 10) ltac:(lia)) as H3.
  repeat match goal with
         | |- context [Z.land ?x ?m =? 0] => destruct (Z.land x m =? 0)
         end; cbn [fst]; lia.
Qed.

Lemma cache_type_lookup beyond t :
  0 <= t <= 31 ->
  shown (cache_type_at beyond (u32 (t - 1))) = type_name beyond t.
Proof.
  intros Ht. unfold cache_type_at, type_name.
  destruct (Z.eq_dec t 0) as [-> | ?].
  { rewrite lookup_ge_None_2; [reflexivity |]. unfold cache_type. cbn [length].
    change (u32 (0 - 1)) with 4294967295. lia. }
  destruct (Z_le_gt_dec t 5) as [Hlow | Hhigh].
  - assert (t = 1 \/ t = 2 \/ t = 3 \/ t = 4 \/ t = 5) as Hcases by lia.
    destruct Hcases as [-> | [-> | [-> | [-> | ->]]]]; reflexivity.
  - rewrite (u32_small (t - 1)) by lia.
    rewrite lookup_ge_None_2 by (unfold cache_type; cbn [length]; lia).
    repeat match goal with
           | |- context [t =? ?k] => destruct (Z.eqb_spec t k); [lia |]
           end.
    reflexivity.
Qed.

Lemma row_of_decode beyond r :
  row beyond (decode r)
  = (fun name =>
       row_line (decode r) name
         (fst (bytes_to_prefix (total_size (decode r)) (Some " "%string)))
         (c_str (snd (bytes_to_prefix (total_size (decode r)) (Some " "%string)))))
    <$> type_name beyond (type (decode r)).
Proof.
  destruct (decode_bounds r) as (Ht & Hlv & Hls & Hlp & Hw & Hsets & Htotal).
  pose proof (bytes_to_prefix_bound (total_size (decode r)) (Some " "%string)
                ltac:(lia)) as Hvalue.
  rewrite <- (cache_type_lookup beyond _ Ht). unfold row.
  destruct (bytes_to_prefix (total_size (decode r)) (Some " "%string))
    as [value unit].
  cbn [fst snd] in *.
  destruct (shown (cache_type_at beyond (u32 (type (decode r) - 1)))) as [name |];
    [| reflexivity].
  cbn [fmap option_fmap option_map]. f_equal.
  rewrite sprintf_row. rewrite !u64_small by lia. reflexivity.
Qed.

(** A row, whatever the registers hold: " L" and the level, a star for a
    self-initialising level, then the type name, the sets, the line size,
    the line partitions and the ways (starred when fully associative)
    right-aligned in fields of 8, 6, 8, 8 and 8, the scaled size with its
    unit in a field of 8, and the three flags in fields of 4, 6 and 6: "N"
    when bit 0 of EDX is set and "Y" when it is clear, "N" when bit 1 is
    set and "Y" when it is clear, "D" when bit 2 is set and "C" when it is
    clear. For a type field of 1 to 4 the name is the table entry of the
    type; type 5 finds the null pointer that ends the table. For a type
    field of 6 to 31 nothing stops the lookup: the name is read past the
    end of the table, and the row shows whatever string the pointer found
    there leads to. Only a pointer that cannot be read leaves no row. *)
Theorem row_layout (beyond : Z -> pointee) (r : regs) :
  row beyond (decode r)
  = (fun name =>
       row_line (decode r) name
         (fst (bytes_to_prefix (total_size (decode r)) (Some " "%string)))
         (c_str (snd (bytes_to_prefix (total_size (decode r)) (Some " "%string)))))
    <$> type_name beyond (type (decode r))
  /\ wbinvd (decode r) = Z.testbit (u32 (reg_edx r)) 0
  /\ inclusive (decode r) = Z.testbit (u32 (reg_edx r)) 1
  /\ indexing (decode r) = Z.testbit (u32 (reg_edx r)) 2.
Proof.
  split; [apply row_of_decode |]. now rewrite decode_unfold.
Qed.

(** A type with an entry in the table has a row. *)
Lemma row_of_known_type beyond r :
  1 <= type (decode r) <= 5 -> is_Some (row beyond (decode r)).
Proof.
  intros Ht. rewrite row_of_decode. unfold type_name.
  assert (type (decode r) = 1 \/ type (decode r) = 2 \/ type (decode r) = 3
          \/ type (decode r) = 4 \/ type (decode r) = 5) as Hcases by lia.
  destruct Hcases as [E | [E | [E | [E | E]]]]; rewrite E; cbn; eauto.
Qed.

(** So has a reserved type, when the pointer past the table can be
    read. *)
Lemma row_of_reserved_type beyond r :
  6 <= type (decode r) ->
  beyond (type (decode r) - 1) <> Wild ->
  is_Some (row beyond (decode r)).
Proof.
  intros Ht Hread. destruct (decode_bounds r) as (Hrange & _).
  rewrite row_of_decode. unfold type_name.
  repeat match goal with
         | |- context [?t =? ?k] => destruct (Z.eqb_spec t k); [lia |]
         end.
  rewrite u32_small by lia.
  destruct (beyond (type (decode r) - 1)); cbn; eauto. congruence.
Qed.

(** The Size column never rounds: the number shown times the multiplier
    of the unit shown is the total size. The copy of [bytes_to_prefix] in
    enumerate.c computes what the one in benchmark.c computes, for every
    size and every string passed in. *)
Theorem size_column_is_exact (r : regs) :
  (forall b s, bytes_to_prefix b s = Prefix.bytes_to_prefix b s)
  /\ fst (bytes_to_prefix (total_size (decode r)) (Some " "%string))
     * Further.unit_scale
         (snd (bytes_to_prefix (total_size (decode r)) (Some " "%string)))
     = total_size (decode r).
Proof.
  split; [reflexivity |].
  change (bytes_to_prefix ?b ?s) with (Prefix.bytes_to_prefix b s).
  now apply bytes_to_prefix_scaled.
Qed.

Lemma print_header_returns (fuel : nat) :
  (6 <= fuel)%nat ->
  print_header fuel 0 (mk_console [] []) = Returned (mk_console header_lines []).
Proof.
  intros Hfuel. do 6 (destruct fuel as [| fuel]; [lia |]). reflexivity.
Qed.

Lemma print_header_running (fuel : nat) :
  (fuel < 6)%nat -> print_header fuel 0 (mk_console [] []) = Running.
Proof.
  intros Hfuel. do 6 (destruct fuel as [| fuel]; [reflexivity |]). lia.
Qed.

(** The loop over the sub-leaves from [index] on: a row for each of the
    [n] sub-leaves that report a type and have a row, then the sub-leaf
    after them. *)
Lemma enumerate_loop_rows (cpuid : processor) (beyond : Z -> pointee) (n : nat) :
  forall (fuel : nat) (index : Z) (o : console),
    0 <= index -> index + Z.of_nat n < 2 ^ 31 ->
    (forall i, index <= i < index + Z.of_nat n ->
       type (decode (cpuid 4 i)) <> 0
       /\ is_Some (row beyond (decode (cpuid 4 i)))) ->
    (n < fuel)%nat ->
    exists rows,
      Some <$> rows
      = (fun i => row beyond (decode (cpuid 4 i))) <$> seqZ index (Z.of_nat n)
      /\ enumerate_loop cpuid beyond fuel index o
         = let o' := mk_console (stdout o ++ rows)
                       (queries o ++ (query <$> seqZ index (Z.of_nat n + 1))) in
           if type (decode (cpuid 4 (index + Z.of_nat n))) =? 0 then Returned o'
           else match row beyond (decode (cpuid 4 (index + Z.of_nat n))) with
                | Some line =>
                    enumerate_loop cpuid beyond (fuel - S n)
                      (s32 (index + Z.of_nat n + 1)) (say line o')
                | None => Killed o'
                end.
Proof.
  induction n as [| n IH]; intros fuel index o Hindex Hlast Hrows Hfuel.
  - exists []. split; [done |].
    destruct fuel as [| fuel]; [lia |]. cbn [enumerate_loop].
    rewrite (u32_small index) by lia. cbv zeta.
    change (Z.of_nat 0) with 0. rewrite !Z.add_0_r, app_nil_r.
    replace (S fuel - 1)%nat with fuel by lia.
    change (seqZ index (0 + 1)) with [index].
    unfold to_bool. rewrite negb_involutive. reflexivity.
  - destruct fuel as [| fuel]; [lia |]. cbn [enumerate_loop].
    rewrite (u32_small index) by lia. cbv zeta.
    destruct (Hrows index ltac:(lia)) as [Htype [line Eline]].
    unfold to_bool. rewrite negb_involutive.
    destruct (Z.eqb_spec (type (decode (cpuid 4 index))) 0) as [? | _]; [lia |].
    rewrite Eline. rewrite s32_small by lia.
    destruct (IH fuel (index + 1) (say line (ask 4 index o)))
      as (rows & Hlines & Hrun); [lia | lia | intros i Hi; apply Hrows; lia | lia |].
    exists (line :: rows). split.
    + rewrite (seqZ_cons index) by lia. cbn [fmap list_fmap].
      rewrite Eline. f_equal.
      replace (Z.succ index) with (index + 1) by lia.
      replace (Z.pred (Z.of_nat (S n))) with (Z.of_nat n) by lia. exact Hlines.
    + rewrite Hrun. cbn [say ask stdout queries].
      replace (S fuel - S (S n))%nat with (fuel - S n)%nat by lia.
      replace (index + 1 + Z.of_nat n) with (index + Z.of_nat (S n)) by lia.
      rewrite <- !app_assoc. cbn [app].
      rewrite (seqZ_cons index (Z.of_nat (S n) + 1)) by lia. cbn [fmap list_fmap].
      replace (Z.succ index) with (index + 1) by lia.
      replace (Z.pred (Z.of_nat (S n) + 1)) with (Z.of_nat n + 1) by lia.
      reflexivity.
Qed.

(** A run over [n] sub-leaves that report a type and have a row, ended by
    the null type of sub-leaf [n]. *)
Lemma enumerate_cache_rows (cpuid : processor) (beyond : Z -> pointee)
    (n : Z) (fuel : nat) :
  0 <= n < 2 ^ 31 ->
  (forall i, 0 <= i < n ->
     type (decode (cpuid 4 i)) <> 0
     /\ is_Some (row beyond (decode (cpuid 4 i)))) ->
  type (decode (cpuid 4 n)) = 0 ->
  (6 <= fuel)%nat -> (Z.to_nat n < fuel)%nat ->
  exists rows,
    enumerate_cache cpuid beyond fuel
    = Returned (mk_console (header_lines ++ rows) (query <$> seqZ 0 (n + 1)))
    /\ Some <$> rows = (fun i => row beyond (decode (cpuid 4 i))) <$> seqZ 0 n.
Proof.
  intros Hn Hrows Hnull Hheader Hfuel. unfold enumerate_cache. cbv zeta.
  rewrite print_header_returns by done.
  destruct (enumerate_loop_rows cpuid beyond (Z.to_nat n) fuel 0
              (mk_console header_lines []))
    as (rows & Hlines & Hrun);
    [lia | lia | intros i Hi; apply Hrows; lia | lia |].
  rewrite Z2Nat.id in Hlines by lia. rewrite Z2Nat.id, !Z.add_0_l in Hrun by lia.
  exists rows. split; [| done].
  rewrite Hrun. cbv zeta. now rewrite Hnull.
Qed.

(** A processor with [n] caches: sub-leaves 0 to n-1 report a type with
    an entry in the table, sub-leaf n the null type. [enumerate_cache]
    returns; it has printed the header and, in the order of the
    sub-leaves, one row for each of them, and it has asked for the
    sub-leaves 0 to n and for no other. *)
Theorem enumerate_cache_prints_one_row_per_cache
    (cpuid : processor) (beyond : Z -> pointee) (n : Z) (fuel : nat) :
  0 <= n < 2 ^ 31 ->
  (forall i, 0 <= i < n -> 1 <= type (decode (cpuid 4 i)) <= 5) ->
  type (decode (cpuid 4 n)) = 0 ->
  (6 <= fuel)%nat -> (Z.to_nat n < fuel)%nat ->
  exists rows,
    enumerate_cache cpuid beyond fuel
    = Returned (mk_console (header_lines ++ rows) (query <$> seqZ 0 (n + 1)))
    /\ Some <$> rows = (fun i => row beyond (decode (cpuid 4 i))) <$> seqZ 0 n.
Proof.
  intros Hn Htypes Hnull Hheader Hfuel.
  apply enumerate_cache_rows; try done.
  intros i Hi. pose proof (Htypes i Hi). split; [lia |].
  now apply row_of_known_type.
Qed.

Lemma enumerate_cache_prints_one_row_per_cache_witness :
  exists rows,
    enumerate_cache
      (fun _ i => if i <? 2
                  then leaf4 (i + 1) 1 true false 0 64 1 8 64 false false false 0
                  else mk_regs 0 0 0 0)
      (fun _ => Wild) 6
    = Returned (mk_console (header_lines ++ rows) [query 0; query 1; query 2])
    /\ length rows = 2%nat.
Proof.
  destruct (enumerate_cache_prints_one_row_per_cache
              (fun _ i => if i <? 2
                          then leaf4 (i + 1) 1 true false 0 64 1 8 64
                                 false false false 0
                          else mk_regs 0 0 0 0)
              (fun _ => Wild) 2 6)
    as (rows & Hrun & Hrows).
  - lia.
  - intros i Hi. assert (i = 0 \/ i = 1) as [-> | ->] by lia; vm_compute;
      split; discriminate.
  - reflexivity.
  - lia.
  - lia.
  - exists rows. split; [exact Hrun |].
    apply (f_equal length) in Hrows. now rewrite !length_fmap in Hrows.
Defined.

(** A reserved type does not end the enumeration. The loop has no exit
    but the null type: for a sub-leaf with a type of 6 to 31 the name is
    read past the end of [cache_type], and as long as the pointers found
    there are null or lead to a string, [enumerate_cache] prints a row for
    every sub-leaf before the first null type, those with a reserved type
    included, and returns after asking for the sub-leaves 0 to n. *)
Theorem enumerate_cache_reads_beyond_type_table
    (cpuid : processor) (beyond : Z -> pointee) (n : Z) (fuel : nat) :
  0 <= n < 2 ^ 31 ->
  (forall i, 0 <= i < n -> type (decode (cpuid 4 i)) <> 0) ->
  (forall i, 0 <= i < n -> 6 <= type (decode (cpuid 4 i)) ->
     beyond (type (decode (cpuid 4 i)) - 1) <> Wild) ->
  type (decode (cpuid 4 n)) = 0 ->
  (6 <= fuel)%nat -> (Z.to_nat n < fuel)%nat ->
  exists rows,
    enumerate_cache cpuid beyond fuel
    = Returned (mk_console (header_lines ++ rows) (query <$> seqZ 0 (n + 1)))
    /\ Some <$> rows = (fun i => row beyond (decode (cpuid 4 i))) <$> seqZ 0 n.
Proof.
  intros Hn Htypes Hread Hnull Hheader Hfuel.
  apply enumerate_cache_rows; try done.
  intros i Hi. split; [now apply Htypes |].
  destruct (decode_bounds (cpuid 4 i)) as (Hrange & _).
  pose proof (Htypes i Hi).
  destruct (Z_le_gt_dec (type (decode (cpuid 4 i))) 5).
  - apply row_of_known_type. lia.
  - apply row_of_reserved_type; [lia |]. apply Hread; [done | lia].
Qed.

Lemma enumerate_cache_reads_beyond_type_table_witness :
  exists rows,
    enumerate_cache
      (fun _ i => if i <? 3
                  then leaf4 (6 * i + 1) 1 true false 0 64 1 8 64
                         false false false 0
                  else mk_regs 0 0 0 0)
      (fun _ => Text "past") 6
    = Returned (mk_console (header_lines ++ rows)
                  [query 0; query 1; query 2; query 3])
    /\ length rows = 3%nat.
Proof.
  destruct (enumerate_cache_reads_beyond_type_table
              (fun _ i => if i <? 3
                          then leaf4 (6 * i + 1) 1 true false 0 64 1 8 64
                                 false false false 0
                          else mk_regs 0 0 0 0)
              (fun _ => Text "past") 3 6)
    as (rows & Hrun & Hrows).
  - lia.
  - intros i Hi. assert (i = 0 \/ i = 1 \/ i = 2) as [-> | [-> | ->]] by lia;
      vm_compute; discriminate.
  - intros i _ _. discriminate.
  - reflexivity.
  - lia.
  - lia.
  - exists rows. split; [exact Hrun |].
    apply (f_equal length) in Hrows. now rewrite !length_fmap in Hrows.
Defined.

Lemma enumerate_loop_running (cpuid : processor) (beyond : Z -> pointee) :
  (forall i, 1 <= type (decode (cpuid 4 i)) <= 5) ->
  forall fuel index o, enumerate_loop cpuid beyond fuel index o = Running.
Proof.
  intros Htypes. induction fuel as [| fuel IH]; intros index o; [done |].
  cbn [enumerate_loop]. cbv zeta.
  pose proof (Htypes (u32 index)) as Htype.
  unfold to_bool. rewrite negb_involutive.
  destruct (Z.eqb_spec (type (decode (cpuid 4 (u32 index)))) 0) as [? | _]; [lia |].
  destruct (row_of_known_type beyond (cpuid 4 (u32 index)) Htype) as [line ->].
  apply IH.
Qed.

(** The enumeration relies on the processor for its end: when no
    sub-leaf reports the null type, every one of them having a name in the
    table, no amount of fuel lets [enumerate_cache] return. *)
Theorem enumerate_cache_needs_null_type
    (cpuid : processor) (beyond : Z -> pointee) (fuel : nat) :
  (forall i, 1 <= type (decode (cpuid 4 i)) <= 5) ->
  enumerate_cache cpuid beyond fuel = Running.
Proof.
  intros Htypes. unfold enumerate_cache. cbv zeta.
  destruct (le_lt_dec 6 fuel) as [Hfuel | Hfuel].
  - rewrite print_header_returns by done. now apply enumerate_loop_running.
  - now rewrite print_header_running.
Qed.

Lemma enumerate_cache_needs_null_type_witness :
  enumerate_cache
    (fun _ _ => leaf4 3 2 true false 0 64 1 8 512 false true false 0)
    (fun _ => Wild) 100
  = Running.
Proof.
  apply (enumerate_cache_needs_null_type
           (fun _ _ => leaf4 3 2 true false 0 64 1 8 512 false true false 0)
           (fun _ => Wild) 100).
  intros i. vm_compute. split; discriminate.
Defined.

End EnumerateFacts.

(** ** The control register *)

Section ControlRegister.
Import Int ReadCr0.

Lemma low_bit z : negb (Z.land z 1 =? 0) = Z.testbit z 0.
Proof.
  change (Enumerate.to_bool (Z.land z (2 ^ 0)) = Z.testbit z 0).
  apply to_bool_mask. lia.
Qed.

(** The two flags [__read_cr0] logs are bits 29 and 30 of the register:
    the second shift, by one, starts from the value already shifted by 29.
    The register value is logged as read. *)
Theorem read_cr0_logs_bits_29_and_30 (value cpu : Z) :
  __read_cr0 value cpu
  = (cpu, u64 value,
     if Z.testbit value 29 then "true"%string else "false"%string,
     if Z.testbit value 30 then "true"%string else "false"%string).
Proof.
  unfold __read_cr0. cbv zeta. rewrite !low_bit.
  rewrite Z.shiftr_shiftr, !Z.shiftr_spec by lia.
  change (0 + 29) with 29. change (0 + (29 + 1)) with 30.
  unfold u64, wrap. now rewrite !Z.mod_pow2_bits_low by lia.
Qed.

End ControlRegister.
